(** * Math-MinimizerOptimizer-Module: QR decomposition and constraint residuals

    A shallow embedding of [src/headers/decomposition/QR.h] and
    [src/headers/ErrorFunctions.h], followed by one of the graph container
    [src/headers/graph/Graph.h].

    Conventions of the embedding.
    - A C++ [double] is read in two ways.  In the module [Double] it is the
      IEEE 754 binary64 number it is ([PrimFloat.float], with rounding,
      overflow, signed zeros and NaN): those definitions run, and what the
      two Gram-Schmidt methods and the derivative of a residual return is
      stated of them.  Outside [Double] it is a real number of
      [Stdlib.Reals].  That reading serves the statements that involve no
      rounding (construction, what [solve] returns, the empty strategies, the
      stored matrix, the distance residual at points with whole coordinates),
      and it says what holds in exact arithmetic: what the two Gram-Schmidt
      methods compute, and that the regularized factor of [pseudoInverse] is
      not singular.  A statement about exact arithmetic says so.
    - A [std::vector<double>] is a list; [v[k]] is [nth k v 0].
    - A [throw] is the [Throw] constructor of [result].
    - A member function that mutates [*this] takes the object and returns the
      new object.
    - [QR.h] spells the classical Gram-Schmidt method with a Cyrillic letter;
      it is [qrCGS] here.
    - [Matrix.h] and [Function.h] are included by the two headers but are not
      part of the sources; what is used of them is modelled from the
      specification and marked so.

    The file has three parts: the program (in exact arithmetic, then in
    double precision), the vocabulary of the statements (among it the loop
    invariants of the two Gram-Schmidt methods), and the proofs, which end
    with the statements about the claims C1 to C10 and with further
    properties of the decompositions.  The graph container comes last, in a
    module of its own built on the finite maps and sets of stdpp, again as
    program, vocabulary and proofs. *)

From Stdlib Require Import Floats.
From Stdlib Require Import String Reals Lra Lia Arith Bool List.
Import ListNotations.
Open Scope R_scope.
Set Warnings "-inexact-float".

(** * The program *)

(** ** Faults *)

(** [std::runtime_error(what)] is the only exception the two headers throw
    themselves; [matrix_fault] stands for whatever the [Matrix] collaborator
    throws from [inverse]. *)
Inductive exception : Type :=
| runtime_error (what : string)
| matrix_fault.

(** What a function that may throw hands back: its value, or the exception. *)
Inductive result (T : Type) : Type :=
| Ok (x : T)
| Throw (e : exception).
Arguments Ok {T} x.
Arguments Throw {T} e.

Definition bind {T U : Type} (r : result T) (k : T -> result U) : result U :=
  match r with
  | Ok x => k x
  | Throw e => Throw e
  end.

(** ** Vectors: [std::vector<double>] *)

(** [v[i] = x].  The sources write in range only; an index out of range
    changes nothing here. *)
Fixpoint list_set {T : Type} (l : list T) (i : nat) (x : T) : list T :=
  match l, i with
  | [], _ => []
  | _ :: t, O => x :: t
  | h :: t, S i' => h :: list_set t i' x
  end.

(** [for (k = 0; k < m; ++k) acc += a[k] * b[k];] starting from [0.0]. *)
Definition dot_loop (m : nat) (a b : list R) : R :=
  fold_left (fun acc k => acc + nth k a 0 * nth k b 0) (seq 0 m) 0.

(** [for (k = 0; k < m; ++k) u[k] -= p * e[k];] *)
Definition sub_scaled_loop (m : nat) (u : list R) (p : R) (e : list R) : list R :=
  fold_left (fun u k => list_set u k (nth k u 0 - p * nth k e 0)) (seq 0 m) u.

(** [std::vector<double> e(m); for (k = 0; k < m; ++k) e[k] = u[k] / norm;] *)
Definition normalize_loop (m : nat) (u : list R) (normVec : R) : list R :=
  fold_left (fun e k => list_set e k (nth k u 0 / normVec)) (seq 0 m) (repeat 0 m).

(** ** The dense matrix collaborator *)

(** Modelled from the spec: [Matrix.h] is not among the sources.  The spec
    describes the Dense Matrix as a rows x cols grid of doubles with value
    semantics, a shape query, element get/set, column get/set, transpose,
    matrix multiply, addition, identity and inverse.  The grid is kept
    row-major. *)
Record Matrix : Type := mkMatrix {
  rows_size : nat;
  cols_size : nat;
  cells : list (list R)
}.

(** Modelled from the spec: the default-constructed [Matrix<>()], which the
    spec calls empty. *)
Definition empty_matrix : Matrix := mkMatrix 0 0 [].

(** Modelled from the spec: [Matrix<>(m, n)], an m x n grid of zeros (the
    decompositions rely on the untouched entries being zero). *)
Definition zeros (m n : nat) : Matrix := mkMatrix m n (repeat (repeat 0 n) m).

(** Modelled from the spec: element read [M(i, j)]. *)
Definition mat (M : Matrix) (i j : nat) : R := nth j (nth i (cells M) []) 0.

(** Modelled from the spec: element write [M(i, j) = x] (in range in every
    use the sources make of it). *)
Definition mset (M : Matrix) (i j : nat) (x : R) : Matrix :=
  mkMatrix (rows_size M) (cols_size M)
    (list_set (cells M) i (list_set (nth i (cells M) []) j x)).

(** Modelled from the spec: [M.getCol(j)]. *)
Definition getCol (M : Matrix) (j : nat) : list R :=
  map (fun row => nth j row 0) (cells M).

(** Modelled from the spec: [M.setCol(v, j)]. *)
Definition setCol (M : Matrix) (v : list R) (j : nat) : Matrix :=
  mkMatrix (rows_size M) (cols_size M)
    (map (fun k => list_set (nth k (cells M) []) j (nth k v 0))
         (seq 0 (rows_size M))).

(** Finite sums [f 0 + ... + f (n-1)], the mathematical reading of the
    accumulation loops. *)
Fixpoint Rsum (f : nat -> R) (n : nat) : R :=
  match n with
  | O => 0
  | S n' => Rsum f n' + f n'
  end.

(** Modelled from the spec: [M.transpose()]. *)
Definition transpose (M : Matrix) : Matrix :=
  mkMatrix (cols_size M) (rows_size M)
    (map (fun j => getCol M j) (seq 0 (cols_size M))).

(** Modelled from the spec: the product [A * B] of an m x p and a p x n
    matrix.  What [Matrix.h] does with operands whose shapes do not fit is
    not specified; no statement below is about such operands. *)
Definition mmul (A B : Matrix) : Matrix :=
  mkMatrix (rows_size A) (cols_size B)
    (map (fun i =>
            map (fun j => Rsum (fun k => mat A i k * mat B k j) (cols_size A))
                (seq 0 (cols_size B)))
         (seq 0 (rows_size A))).

(** Modelled from the spec: the sum [A + B] of two matrices of one shape. *)
Definition madd (A B : Matrix) : Matrix :=
  mkMatrix (rows_size A) (cols_size A)
    (map (fun i => map (fun j => mat A i j + mat B i j) (seq 0 (cols_size A)))
         (seq 0 (rows_size A))).

(** Modelled from the spec: the product [A * c] with a scalar. *)
Definition mscale (A : Matrix) (c : R) : Matrix :=
  mkMatrix (rows_size A) (cols_size A)
    (map (fun i => map (fun j => mat A i j * c) (seq 0 (cols_size A)))
         (seq 0 (rows_size A))).

(** Modelled from the spec: [Matrix<>::identity(n)]. *)
Definition identity (n : nat) : Matrix :=
  mkMatrix n n
    (map (fun i => map (fun j => if Nat.eqb i j then 1 else 0) (seq 0 n))
         (seq 0 n)).

(** ** The QR decomposition engine: [class QR] *)

(** The three members of the class. *)
Record QR : Type := mkQR {
  _A : Matrix;
  _Q : Matrix;
  _R : Matrix
}.

(** [QR::QR(const Matrix<>&)]. *)
Definition QR_new (A : Matrix) : result QR :=
  if (rows_size A <? 1)%nat || (cols_size A <? 1)%nat
  then Throw (runtime_error "Matrix should be: rows > 0 && cols > 0")
  else Ok (mkQR A empty_matrix empty_matrix).

(** [QR::QR(const QR&)]. *)
Definition QR_copy (other : QR) : QR := mkQR (_A other) (_Q other) (_R other).

(** [QR::operator=]: copy (or move) into a temporary, then swap the three
    members with it. *)
Definition QR_assign (this other : QR) : QR :=
  let temp := QR_copy other in
  mkQR (_A temp) (_Q temp) (_R temp).

(** [QR::A()], [QR::Q()], [QR::R()]. *)
Definition QR_A (s : QR) : Matrix := _A s.

Definition QR_Q (s : QR) : Matrix := _Q s.

Definition QR_R (s : QR) : Matrix := _R s.

(** The rank tolerance of both Gram-Schmidt methods. *)
Definition epsilon : R := 1e-10.

(** *** Classical Gram-Schmidt *)

(** Body of the loop over [j] in [qrCGS]: one projection of the original
    column [v_i] on the column [j] of [_Q]. *)
Definition cgs_project (m : nat) (Qm : Matrix) (v_i : list R) (i : nat)
    (st : list R * Matrix) (j : nat) : list R * Matrix :=
  let '(u_i, Rm) := st in
  let e_j := getCol Qm j in
  let proj_scalar := dot_loop m v_i e_j in
  let Rm := mset Rm j i proj_scalar in
  (sub_scaled_loop m u_i proj_scalar e_j, Rm).

(** Body of the loop over [i] in [qrCGS]. *)
Definition cgs_column (A : Matrix) (m min_mn : nat)
    (st : Matrix * Matrix) (i : nat) : Matrix * Matrix :=
  let '(Qm, Rm) := st in
  let v_i := getCol A i in
  let '(u_i, Rm) :=
    fold_left (cgs_project m Qm v_i i) (seq 0 (Nat.min min_mn i)) (v_i, Rm) in
  if (i <? min_mn)%nat then
    let normVec := sqrt (dot_loop m u_i u_i) in
    if Rgt_dec normVec epsilon then
      let Rm := mset Rm i i normVec in
      let e_i := normalize_loop m u_i normVec in
      (setCol Qm e_i i, Rm)
    else (Qm, mset Rm i i 0)
  else (Qm, Rm).

(** [QR::qrCGS()]. *)
Definition qrCGS (s : QR) : QR :=
  let m := rows_size (_A s) in
  let n := cols_size (_A s) in
  let min_mn := Nat.min m n in
  let '(Qm, Rm) :=
    fold_left (cgs_column (_A s) m min_mn) (seq 0 n)
              (zeros m min_mn, zeros min_mn n) in
  mkQR (_A s) Qm Rm.

(** [QR::qr()]. *)
Definition qr (s : QR) : QR := qrCGS s.

(** *** Modified Gram-Schmidt *)

(** Body of the loop over [k] in the branch [normVec > epsilon] of [qrMGS]. *)
Definition mgs_update (m : nat) (q_j : list R) (j : nat)
    (st : Matrix * list (list R)) (k : nat) : Matrix * list (list R) :=
  let '(Rm, V) := st in
  let dotProduct := dot_loop m q_j (nth k V []) in
  let Rm := mset Rm j k dotProduct in
  (Rm, list_set V k (sub_scaled_loop m (nth k V []) dotProduct q_j)).

(** Body of the loop over [j] in [qrMGS]. *)
Definition mgs_column (m n : nat)
    (st : Matrix * Matrix * list (list R)) (j : nat)
    : Matrix * Matrix * list (list R) :=
  let '(Qm, Rm, V) := st in
  let normVec := sqrt (dot_loop m (nth j V []) (nth j V [])) in
  let Rm := mset Rm j j normVec in
  if Rgt_dec normVec epsilon then
    let q_j := normalize_loop m (nth j V []) normVec in
    let Qm := setCol Qm q_j j in
    let '(Rm, V) :=
      fold_left (mgs_update m q_j j) (seq (S j) (n - S j)) (Rm, V) in
    (Qm, Rm, V)
  else
    let zero_col := repeat 0 m in
    let Qm := setCol Qm zero_col j in
    let Rm := fold_left (fun Rm k => mset Rm j k 0) (seq (S j) (n - S j)) Rm in
    (Qm, Rm, V).

(** [QR::qrMGS()]. *)
Definition qrMGS (s : QR) : QR :=
  let m := rows_size (_A s) in
  let n := cols_size (_A s) in
  let min_mn := Nat.min m n in
  let V := map (fun i => getCol (_A s) i) (seq 0 n) in
  let '(Qm, Rm, _) :=
    fold_left (mgs_column m n) (seq 0 min_mn)
              (zeros m min_mn, zeros min_mn n, V) in
  mkQR (_A s) Qm Rm.

(** *** The strategies with an empty body *)

(** [QR::qrIGS], [qrBGS], [qrRGS], [qrCGSP], [qrHouseholder] and [qrGivens]
    are defined as [{ }]: the call returns and the object is as before. *)
Definition qrIGS (s : QR) : QR := s.

Definition qrBGS (s : QR) : QR := s.

Definition qrRGS (s : QR) : QR := s.

Definition qrCGSP (s : QR) : QR := s.

Definition qrHouseholder (s : QR) : QR := s.

Definition qrGivens (s : QR) : QR := s.

(** *** Solving and the pseudo-inverse *)

Section Inverse.

(** [Matrix::inverse()] is not among the sources; the spec says that it
    reports a non-square or singular matrix as an error.  It is a parameter
    of [solve] and [pseudoInverse]. *)
Variable inverse : Matrix -> result Matrix.

(** [QR::solve].  The initializer [(R().inverse(), Qt_b)] is a comma
    expression: the inverse is computed (and may throw), its value is
    dropped, and [x] is a copy of [Qt_b]. *)
Definition solve (s : QR) (b : Matrix) : result Matrix :=
  let Qt_b := mmul (transpose (QR_Q s)) b in
  bind (inverse (QR_R s)) (fun _ =>
  let x := Qt_b in
  Ok x).

(** The local [R] of [QR::pseudoInverse]: the factor plus [1e-8] times the
    identity. *)
Definition regularized (Rm : Matrix) : Matrix :=
  madd Rm (mscale (identity (rows_size Rm)) 1e-8).

(** The numbers [QR::pseudoInverse] writes to [std::cout], row by row: the
    entries of the member [_R] over the shape of the local [R]. *)
Definition pseudoInverse_cout (s : QR) : list (list R) :=
  let Rl := regularized (_R s) in
  map (fun i => map (fun j => mat (_R s) i j) (seq 0 (cols_size Rl)))
      (seq 0 (rows_size Rl)).

(** [QR::pseudoInverse]. *)
Definition pseudoInverse (s : QR) : result Matrix :=
  let Rl := regularized (_R s) in
  bind (inverse Rl) (fun R_inv =>
  Ok (mmul R_inv (transpose (_Q s)))).

End Inverse.

(** *** Calling the member functions *)

(** The member functions of [QR], assignment apart. *)
Inductive call : Type :=
| call_qr | call_qrCGS | call_qrMGS
| call_qrIGS | call_qrBGS | call_qrRGS | call_qrCGSP
| call_qrHouseholder | call_qrGivens
| call_A | call_Q | call_R
| call_solve (b : Matrix)
| call_pseudoInverse.

(** How a call ends: a [void] member function returns, a member function
    with a result returns a matrix, or an exception leaves the call. *)
Inductive outcome : Type :=
| returned
| yielded (M : Matrix)
| raised (e : exception).

Definition outcome_of (r : result Matrix) : outcome :=
  match r with
  | Ok M => yielded M
  | Throw e => raised e
  end.

(** One call on the object [s]: the object afterwards and the outcome.  The
    [const] member functions leave the object as it is. *)
Definition invoke (inverse : Matrix -> result Matrix) (c : call) (s : QR)
    : QR * outcome :=
  match c with
  | call_qr => (qr s, returned)
  | call_qrCGS => (qrCGS s, returned)
  | call_qrMGS => (qrMGS s, returned)
  | call_qrIGS => (qrIGS s, returned)
  | call_qrBGS => (qrBGS s, returned)
  | call_qrRGS => (qrRGS s, returned)
  | call_qrCGSP => (qrCGSP s, returned)
  | call_qrHouseholder => (qrHouseholder s, returned)
  | call_qrGivens => (qrGivens s, returned)
  | call_A => (s, yielded (QR_A s))
  | call_Q => (s, yielded (QR_Q s))
  | call_R => (s, yielded (QR_R s))
  | call_solve b => (s, outcome_of (solve inverse s b))
  | call_pseudoInverse => (s, outcome_of (pseudoInverse inverse s))
  end.

(** A sequence of calls on one object. *)
Definition run (inverse : Matrix -> result Matrix) (cs : list call) (s : QR) : QR :=
  fold_left (fun s c => fst (invoke inverse c s)) cs s.

(** ** Constraint residuals: [ErrorFunctions.h] *)

(** Modelled from the spec: a [Variable*] of [Function.h], which is not among
    the sources.  A scalar unknown is known by its identity (the address the
    pointer holds); its current value is looked up in a store the caller
    owns. *)
Definition Variable_ptr : Type := nat.

(** The current values of the unknowns. *)
Definition store : Type := Variable_ptr -> R.

(** Modelled from the spec: the expression nodes of [Function.h], which is
    not among the sources: a constant, a reference to an unknown, the unary
    operations negate and sqrt, and the binary operations add, subtract,
    multiply and divide. *)
Inductive Function : Type :=
| Constant (c : R)
| Unknown (v : Variable_ptr)
| Negate (f : Function)
| Sqrt (f : Function)
| Addition (f g : Function)
| Subtraction (f g : Function)
| Multiplication (f g : Function)
| Division (f g : Function).

(** Modelled from the spec: [Function::evaluate], the value of the node
    under the current values of the unknowns, in exact arithmetic (the
    statement made of it is about values that doubles hold exactly; what a
    derivative evaluates to, where 0 / 0 matters, is stated in [Double]). *)
Fixpoint evaluate (env : store) (f : Function) : R :=
  match f with
  | Constant c => c
  | Unknown v => env v
  | Negate f => - evaluate env f
  | Sqrt f => sqrt (evaluate env f)
  | Addition f g => evaluate env f + evaluate env g
  | Subtraction f g => evaluate env f - evaluate env g
  | Multiplication f g => evaluate env f * evaluate env g
  | Division f g => evaluate env f / evaluate env g
  end.

(** [class ErrorFunctions] for an object of a concrete kind: the owned
    residual formula [c_f], set by the constructor of the kind, and the
    dependency list [m_X].  (The object with [c_f] still null is in
    [Double].) *)
Record ErrorFunctions : Type := mkErrorFunctions {
  c_f : Function;
  m_X : list Variable_ptr
}.

(** [ErrorFunctions::getVariables]. *)
Definition getVariables (e : ErrorFunctions) : list Variable_ptr := m_X e.

(** [ErrorFunctions::evaluate]. *)
Definition ErrorFunctions_evaluate (env : store) (e : ErrorFunctions) : R :=
  evaluate env (c_f e).

(** [ErrorFunctions::clone]. *)
Definition clone (e : ErrorFunctions) : result Function :=
  Throw (runtime_error "Not implemented").

(** Modelled from the spec: the constructor of [PointPointDistanceError],
    declared in [ErrorFunctions.h] and defined in a file that is not among
    the sources.  Over the unknowns x1, y1, x2, y2 (in this order in [x]) and
    the target [error] the residual is
    sqrt((x2-x1)^2 + (y2-y1)^2) - error. *)
Definition PointPointDistanceError (x : list Variable_ptr) (error : R)
    : ErrorFunctions :=
  let x1 := Unknown (nth 0 x 0%nat) in
  let y1 := Unknown (nth 1 x 0%nat) in
  let x2 := Unknown (nth 2 x 0%nat) in
  let y2 := Unknown (nth 3 x 0%nat) in
  let dx := Subtraction x2 x1 in
  let dy := Subtraction y2 y1 in
  mkErrorFunctions
    (Subtraction (Sqrt (Addition (Multiplication dx dx) (Multiplication dy dy)))
                 (Constant error))
    x.

(** Modelled from the spec: the constructor of [PointOnPointError], the
    subclass of [PointPointDistanceError] with the target fixed to zero. *)
Definition PointOnPointError (x : list Variable_ptr) : ErrorFunctions :=
  PointPointDistanceError x 0.

(** * The program in double precision *)

(** The member functions that compute with [double]s, once more, with a
    [double] read as the IEEE 754 binary64 number it is ([PrimFloat.float]).
    Every [+], [-], [*], [/] and [sqrt] rounds to nearest, ties to even, as
    the compiled statements do one by one (a product and the sum that takes
    it are two roundings, not a fused multiply-add); [x > y] is false when
    either side is NaN.  These definitions run: [vm_compute] evaluates them on a matrix
    of literals, so that a run of the program can be put next to them. *)
Module Double.

Import PrimFloat.
Local Open Scope float_scope.
Set Warnings "-inexact-float".

(** ** Vectors: [std::vector<double>] *)

(** [for (k = 0; k < m; ++k) acc += a[k] * b[k];] starting from [0.0]: the
    product is rounded, then the sum. *)
Definition dot_loop (m : nat) (a b : list float) : float :=
  fold_left (fun acc k => acc + nth k a 0 * nth k b 0) (seq 0 m) 0.

(** [for (k = 0; k < m; ++k) u[k] -= p * e[k];] *)
Definition sub_scaled_loop (m : nat) (u : list float) (p : float)
    (e : list float) : list float :=
  fold_left (fun u k => list_set u k (nth k u 0 - p * nth k e 0)) (seq 0 m) u.

(** [std::vector<double> e(m); for (k = 0; k < m; ++k) e[k] = u[k] / norm;] *)
Definition normalize_loop (m : nat) (u : list float) (normVec : float)
    : list float :=
  fold_left (fun e k => list_set e k (nth k u 0 / normVec)) (seq 0 m)
            (repeat 0 m).

(** ** The dense matrix collaborator *)

(** Modelled from the spec: the Dense Matrix of [Matrix.h], a rows x cols
    grid of doubles kept row-major. *)
Record Matrix : Type := mkMatrix {
  rows_size : nat;
  cols_size : nat;
  cells : list (list float)
}.

(** Modelled from the spec: the default-constructed, empty [Matrix<>()]. *)
Definition empty_matrix : Matrix := mkMatrix 0 0 [].

(** Modelled from the spec: [Matrix<>(m, n)], an m x n grid of [0.0]. *)
Definition zeros (m n : nat) : Matrix := mkMatrix m n (repeat (repeat 0 n) m).

(** Modelled from the spec: element read [M(i, j)]. *)
Definition mat (M : Matrix) (i j : nat) : float := nth j (nth i (cells M) []) 0.

(** Modelled from the spec: element write [M(i, j) = x]. *)
Definition mset (M : Matrix) (i j : nat) (x : float) : Matrix :=
  mkMatrix (rows_size M) (cols_size M)
    (list_set (cells M) i (list_set (nth i (cells M) []) j x)).

(** Modelled from the spec: [M.getCol(j)]. *)
Definition getCol (M : Matrix) (j : nat) : list float :=
  map (fun row => nth j row 0) (cells M).

(** Modelled from the spec: [M.setCol(v, j)]. *)
Definition setCol (M : Matrix) (v : list float) (j : nat) : Matrix :=
  mkMatrix (rows_size M) (cols_size M)
    (map (fun k => list_set (nth k (cells M) []) j (nth k v 0))
         (seq 0 (rows_size M))).

(** ** The QR decomposition engine: [class QR] *)

Record QR : Type := mkQR {
  _A : Matrix;
  _Q : Matrix;
  _R : Matrix
}.

(** [QR::QR(const Matrix<>&)]. *)
Definition QR_new (A : Matrix) : result QR :=
  if (rows_size A <? 1)%nat || (cols_size A <? 1)%nat
  then Throw (runtime_error "Matrix should be: rows > 0 && cols > 0")
  else Ok (mkQR A empty_matrix empty_matrix).

(** [QR::A()], [QR::Q()], [QR::R()]. *)
Definition QR_A (s : QR) : Matrix := _A s.

Definition QR_Q (s : QR) : Matrix := _Q s.

Definition QR_R (s : QR) : Matrix := _R s.

(** The rank tolerance of both Gram-Schmidt methods: the double nearest to
    1e-10. *)
Definition epsilon : float := 1e-10.

(** Body of the loop over [j] in [qrCGS]. *)
Definition cgs_project (m : nat) (Qm : Matrix) (v_i : list float) (i : nat)
    (st : list float * Matrix) (j : nat) : list float * Matrix :=
  let '(u_i, Rm) := st in
  let e_j := getCol Qm j in
  let proj_scalar := dot_loop m v_i e_j in
  let Rm := mset Rm j i proj_scalar in
  (sub_scaled_loop m u_i proj_scalar e_j, Rm).

(** Body of the loop over [i] in [qrCGS]. *)
Definition cgs_column (A : Matrix) (m min_mn : nat)
    (st : Matrix * Matrix) (i : nat) : Matrix * Matrix :=
  let '(Qm, Rm) := st in
  let v_i := getCol A i in
  let '(u_i, Rm) :=
    fold_left (cgs_project m Qm v_i i) (seq 0 (Nat.min min_mn i)) (v_i, Rm) in
  if (i <? min_mn)%nat then
    let normVec := sqrt (dot_loop m u_i u_i) in
    if epsilon <? normVec then
      let Rm := mset Rm i i normVec in
      let e_i := normalize_loop m u_i normVec in
      (setCol Qm e_i i, Rm)
    else (Qm, mset Rm i i 0)
  else (Qm, Rm).

(** [QR::qrCGS()]. *)
Definition qrCGS (s : QR) : QR :=
  let m := rows_size (_A s) in
  let n := cols_size (_A s) in
  let min_mn := Nat.min m n in
  let '(Qm, Rm) :=
    fold_left (cgs_column (_A s) m min_mn) (seq 0 n)
              (zeros m min_mn, zeros min_mn n) in
  mkQR (_A s) Qm Rm.

(** [QR::qr()]. *)
Definition qr (s : QR) : QR := qrCGS s.

(** Body of the loop over [k] in the branch [normVec > epsilon] of [qrMGS]. *)
Definition mgs_update (m : nat) (q_j : list float) (j : nat)
    (st : Matrix * list (list float)) (k : nat) : Matrix * list (list float) :=
  let '(Rm, V) := st in
  let dotProduct := dot_loop m q_j (nth k V []) in
  let Rm := mset Rm j k dotProduct in
  (Rm, list_set V k (sub_scaled_loop m (nth k V []) dotProduct q_j)).

(** Body of the loop over [j] in [qrMGS]. *)
Definition mgs_column (m n : nat)
    (st : Matrix * Matrix * list (list float)) (j : nat)
    : Matrix * Matrix * list (list float) :=
  let '(Qm, Rm, V) := st in
  let normVec := sqrt (dot_loop m (nth j V []) (nth j V [])) in
  let Rm := mset Rm j j normVec in
  if epsilon <? normVec then
    let q_j := normalize_loop m (nth j V []) normVec in
    let Qm := setCol Qm q_j j in
    let '(Rm, V) :=
      fold_left (mgs_update m q_j j) (seq (S j) (n - S j)) (Rm, V) in
    (Qm, Rm, V)
  else
    let zero_col := repeat 0 m in
    let Qm := setCol Qm zero_col j in
    let Rm := fold_left (fun Rm k => mset Rm j k 0) (seq (S j) (n - S j)) Rm in
    (Qm, Rm, V).

(** [QR::qrMGS()]. *)
Definition qrMGS (s : QR) : QR :=
  let m := rows_size (_A s) in
  let n := cols_size (_A s) in
  let min_mn := Nat.min m n in
  let V := map (fun i => getCol (_A s) i) (seq 0 n) in
  let '(Qm, Rm, _) :=
    fold_left (mgs_column m n) (seq 0 min_mn)
              (zeros m min_mn, zeros min_mn n, V) in
  mkQR (_A s) Qm Rm.

(** ** Constraint residuals: [ErrorFunctions.h] *)

(** The current values of the unknowns. *)
Definition store : Type := Variable_ptr -> float.

(** Modelled from the spec: the expression nodes of [Function.h], a constant
    being a double. *)
Inductive Function : Type :=
| Constant (c : float)
| Unknown (v : Variable_ptr)
| Negate (f : Function)
| Sqrt (f : Function)
| Addition (f g : Function)
| Subtraction (f g : Function)
| Multiplication (f g : Function)
| Division (f g : Function).

(** Modelled from the spec: [Function::evaluate] in double arithmetic. *)
Fixpoint evaluate (env : store) (f : Function) : float :=
  match f with
  | Constant c => c
  | Unknown v => env v
  | Negate f => - evaluate env f
  | Sqrt f => sqrt (evaluate env f)
  | Addition f g => evaluate env f + evaluate env g
  | Subtraction f g => evaluate env f - evaluate env g
  | Multiplication f g => evaluate env f * evaluate env g
  | Division f g => evaluate env f / evaluate env g
  end.


(** [class ErrorFunctions]: the pointer [c_f] to the residual formula, null
    ([None]) or set, and the dependency list [m_X]. *)
Record ErrorFunctions : Type := mkErrorFunctions {
  c_f : option Function;
  m_X : list Variable_ptr
}.


(** [ErrorFunctions::getVariables]. *)
Definition getVariables (e : ErrorFunctions) : list Variable_ptr := m_X e.

(** [ErrorFunctions::evaluate]: [c_f->evaluate()].  With [c_f] null the call
    dereferences a null pointer and has no result ([None]). *)
Definition ErrorFunctions_evaluate (env : store) (e : ErrorFunctions)
    : option float :=
  option_map (evaluate env) (c_f e).


(** Modelled from the spec: the constructor of [PointPointDistanceError],
    declared in [ErrorFunctions.h] and defined in a file that is not among
    the sources: over the unknowns x1, y1, x2, y2 (in this order in [x]) and
    the target [error] it sets the formula
    sqrt((x2-x1)^2 + (y2-y1)^2) - error. *)
Definition PointPointDistanceError (x : list Variable_ptr) (error : float)
    : ErrorFunctions :=
  let x1 := Unknown (nth 0 x 0%nat) in
  let y1 := Unknown (nth 1 x 0%nat) in
  let x2 := Unknown (nth 2 x 0%nat) in
  let y2 := Unknown (nth 3 x 0%nat) in
  let dx := Subtraction x2 x1 in
  let dy := Subtraction y2 y1 in
  mkErrorFunctions
    (Some (Subtraction
             (Sqrt (Addition (Multiplication dx dx) (Multiplication dy dy)))
             (Constant error)))
    x.

(** Modelled from the spec: the constructor of [PointOnPointError], the
    subclass of [PointPointDistanceError] with the target fixed to zero. *)
Definition PointOnPointError (x : list Variable_ptr) : ErrorFunctions :=
  PointPointDistanceError x 0.

(** ** Vocabulary *)

(** The shape invariant of a grid. *)
Definition wf (M : Matrix) : Prop :=
  length (cells M) = rows_size M /\
  Forall (fun row => length row = cols_size M) (cells M).

(** The object the constructor builds from [A]. *)
Definition QR_init (A : Matrix) : QR := mkQR A empty_matrix empty_matrix.

(** The 1 x 1 matrix [[x]]. *)
Definition matrix1 (x : float) : Matrix := mkMatrix 1 1 [[x]].

(** Every entry below the diagonal is [+0.0]. *)
Definition upper_triangular (M : Matrix) : Prop :=
  forall a b, (b < a)%nat -> mat M a b = 0.

(** Column [c] was kept: its diagonal entry of [Rm] passes the test
    [normVec > 1e-10]. *)
Definition kept (Rm : Matrix) (c : nat) : bool := epsilon <? mat Rm c c.


(** The store that gives the unknown [v] the [v]-th number of a list. *)
Definition store_of (values : list float) : store := fun v => nth v values 0.





(** What holds of [_Q] and [_R] in [qrCGS] once the columns before [i] are
    done: the shapes, zeros where nothing was written yet and below the
    diagonal, and for each column done either a diagonal entry above the
    tolerance, or [0.0] on the diagonal and a zero column of [_Q]. *)
Record cgs_inv (m mn n i : nat) (Qm Rm : Matrix) : Prop := {
  cgs_wfQ : wf Qm /\ rows_size Qm = m /\ cols_size Qm = mn;
  cgs_wfR : wf Rm /\ rows_size Rm = mn /\ cols_size Rm = n;
  cgs_zeroR : forall a b, (i <= b)%nat \/ (b < a)%nat -> mat Rm a b = 0;
  cgs_zeroQ : forall k b, (i <= b)%nat -> mat Qm k b = 0;
  cgs_cols : forall c, (c < i)%nat -> (c < mn)%nat ->
             kept Rm c = true \/
             (mat Rm c c = 0 /\ forall k, mat Qm k c = 0)
}.

(** What holds of [_Q] and [_R] in [qrMGS] once the columns before [j] are
    done: here a dropped column keeps the computed norm on the diagonal and
    has zeros to the right of it. *)
Record mgs_inv (m mn n j : nat) (Qm Rm : Matrix) : Prop := {
  mgs_wfQ : wf Qm /\ rows_size Qm = m /\ cols_size Qm = mn;
  mgs_wfR : wf Rm /\ rows_size Rm = mn /\ cols_size Rm = n;
  mgs_zeroR : forall a b, (j <= a)%nat \/ (b < a)%nat -> mat Rm a b = 0;
  mgs_zeroQ : forall k b, (j <= b)%nat -> mat Qm k b = 0;
  mgs_cols : forall c, (c < j)%nat ->
             kept Rm c = true \/
             (kept Rm c = false /\ (forall k, mat Qm k c = 0) /\
              forall b, (c < b)%nat -> mat Rm c b = 0)
}.

(** The vector [u_i] of [qrCGS] for column [i] read off the factors: column
    [i] of [A] less its components on the columns of [Qm] before it, with
    the coefficients stored in column [i] of [Rm]. *)
Definition cgs_residual (A : Matrix) (m mn : nat) (Qm Rm : Matrix) (i : nat)
    : list float :=
  fold_left (fun u j => sub_scaled_loop m u (mat Rm j i) (getCol Qm j))
            (seq 0 (Nat.min mn i)) (getCol A i).

(** The recurrences of the classical method for column [i], every operation
    rounded as the loops round it: the entries of [Rm] above the diagonal
    are the scalar products of column [i] of [A] with the columns of [Qm],
    the diagonal entry is the norm of [u_i] and column [i] of [Qm] is [u_i]
    over its norm, or both are zero when the norm is not above the
    tolerance. *)
Definition cgs_recurrence (A : Matrix) (m mn : nat) (Qm Rm : Matrix) (i : nat)
    : Prop :=
  (forall j, (j < Nat.min mn i)%nat ->
     mat Rm j i = dot_loop m (getCol A i) (getCol Qm j)) /\
  ((i < mn)%nat ->
   let u_i := cgs_residual A m mn Qm Rm i in
   let normVec := sqrt (dot_loop m u_i u_i) in
   if epsilon <? normVec
   then mat Rm i i = normVec /\ getCol Qm i = normalize_loop m u_i normVec
   else mat Rm i i = 0 /\ getCol Qm i = repeat 0 m).

(** Vector [k] of [qrMGS] when the pass over column [j] starts, read off the
    factors: column [k] of [A] less, for each kept column [l] before [j],
    its component on column [l] of [Qm], with the coefficient stored at
    [(l, k)] in [Rm]. *)
Definition mgs_residual (A : Matrix) (m : nat) (Qm Rm : Matrix) (k j : nat)
    : list float :=
  fold_left (fun v l => if kept Rm l
                        then sub_scaled_loop m v (mat Rm l k) (getCol Qm l)
                        else v)
            (seq 0 j) (getCol A k).

(** The recurrences of the modified method for column [j], every operation
    rounded as the loops round it: the diagonal entry of [Rm] is the norm of
    vector [j]; when it is above the tolerance column [j] of [Qm] is the
    vector over its norm and the entries of [Rm] to the right are the scalar
    products of that column with the vectors after it; otherwise the column
    and those entries are zero. *)
Definition mgs_recurrence (A : Matrix) (m n : nat) (Qm Rm : Matrix) (j : nat)
    : Prop :=
  let v_j := mgs_residual A m Qm Rm j j in
  mat Rm j j = sqrt (dot_loop m v_j v_j) /\
  if kept Rm j
  then getCol Qm j = normalize_loop m v_j (mat Rm j j) /\
       forall k, (j < k < n)%nat ->
         mat Rm j k = dot_loop m (getCol Qm j) (mgs_residual A m Qm Rm k j)
  else getCol Qm j = repeat 0 m /\
       forall k, (j < k < n)%nat -> mat Rm j k = 0.

(** A finite double as a fraction: its numerator and its denominator, a
    power of 2 (0 / 1 for the infinities and NaN, which stand for no
    number). *)
Definition fraction (x : float) : Z * Z :=
  match Prim2SF x with
  | S754_finite s m e =>
      let n := if s then Z.neg m else Z.pos m in
      if (0 <=? e)%Z then (n * 2 ^ e, 1)%Z else (n, 2 ^ (- e))%Z
  | _ => (0, 1)%Z
  end.

(** The real number a finite double stands for. *)
Definition exact (x : float) : R :=
  (IZR (fst (fraction x)) / IZR (snd (fraction x)))%R.

(** *** Matrices of the examples *)

(** Three columns that differ from (1, 0, 0, 0) by 1e-8 in one place each
    (a matrix of Laeuchli). *)
Definition nearly_parallel : Matrix :=
  mkMatrix 4 3 [[1; 1; 1]; [1e-8; 0; 0]; [0; 1e-8; 0]; [0; 0; 1e-8]].

(** Two identical columns. *)
Definition twin_columns : Matrix :=
  mkMatrix 3 2 [[3e7; 3e7]; [1e7; 1e7]; [7e7; 7e7]].



(** A matrix with more columns than rows. *)
Definition wide : Matrix := mkMatrix 1 2 [[3; 6]].

(** A well-conditioned square matrix. *)
Definition three_by_three : Matrix :=
  mkMatrix 3 3 [[1; 2; 3]; [4; 5; 6]; [7; 8; 10]].

(** A square matrix of whole numbers whose first row is 1e8 times larger
    than the others. *)
Definition steep : Matrix :=
  mkMatrix 3 3 [[1e8; 1e8; 1e8]; [1; 2; 3]; [1; 4; 9]].

End Double.

(** * Vocabulary of the statements *)

(** ** Matrices *)

(** The shape invariant of a grid. *)
Definition wf (M : Matrix) : Prop :=
  length (cells M) = rows_size M /\
  Forall (fun row => length row = cols_size M) (cells M).

(** The object the constructor builds from [A]: [_Q] and [_R] are empty. *)
Definition QR_init (A : Matrix) : QR := mkQR A empty_matrix empty_matrix.

(** The 1 x 1 matrix [[x]]. *)
Definition matrix1 (x : R) : Matrix := mkMatrix 1 1 [[x]].

(** Two identical columns. *)
Definition twin_columns : Matrix := mkMatrix 2 2 [[1; 1]; [0; 0]].

(** Two columns that are both kept, the second after a projection on the
    first. *)
Definition three_four : Matrix := mkMatrix 2 2 [[3; 1]; [4; 2]].

(** One row, two columns. *)
Definition wide : Matrix := mkMatrix 1 2 [[3; 6]].

(** A right-hand side for the identity of size 3. *)
Definition rhs3 : Matrix := mkMatrix 3 1 [[1]; [2]; [3]].

(** Every entry below the diagonal is 0. *)
Definition upper_triangular (M : Matrix) : Prop :=
  forall a b, (b < a)%nat -> mat M a b = 0.

(** Equality of two matrices of one shape up to an absolute tolerance. *)
Definition approx_eq (tol : R) (M N : Matrix) : Prop :=
  rows_size M = rows_size N /\ cols_size M = cols_size N /\
  forall i j, (i < rows_size M)%nat -> (j < cols_size M)%nat ->
    Rabs (mat M i j - mat N i j) <= tol.

(** The columns of [A] are linearly independent. *)
Definition full_column_rank (A : Matrix) : Prop :=
  forall alpha : nat -> R,
    (forall k, (k < rows_size A)%nat ->
       Rsum (fun c => alpha c * mat A k c) (cols_size A) = 0) ->
    forall c, (c < cols_size A)%nat -> alpha c = 0.



(** The strategies [QR.h] declares but leaves with an empty body. *)
Definition unimplemented (c : call) : bool :=
  match c with
  | call_qrIGS | call_qrBGS | call_qrRGS | call_qrCGSP
  | call_qrHouseholder | call_qrGivens => true
  | _ => false
  end.

(** ** Determinants and the contract of [inverse] *)


(** A list without its [i]-th element. *)
Fixpoint drop_nth {T : Type} (i : nat) (l : list T) : list T :=
  match l, i with
  | [], _ => []
  | _ :: t, O => t
  | h :: t, S i' => h :: drop_nth i' t
  end.

(** The grid without row [i] and column [j]. *)
Definition minor (i j : nat) (rows : list (list R)) : list (list R) :=
  map (drop_nth j) (drop_nth i rows).

(** The determinant of an n x n grid, expanded along its first column.  A
    square matrix is singular when its determinant is 0. *)
Fixpoint det_rows (n : nat) (rows : list (list R)) : R :=
  match n with
  | O => 1
  | S n' =>
      Rsum (fun i => (-1) ^ i * nth 0 (nth i rows []) 0 *
                     det_rows n' (minor i 0 rows)) (S n')
  end.

(** The determinant of a square matrix. *)
Definition det (M : Matrix) : R := det_rows (rows_size M) (cells M).

(** Modelled from the spec: an instance of [Matrix::inverse], which is not
    among the sources: a non-square or singular matrix is reported as an
    error, and the inverse of any other matrix is given by its cofactors. *)
Definition inverse_by_cofactors (M : Matrix) : result Matrix :=
  let n := rows_size M in
  if (n =? cols_size M)%nat then
    if Req_dec_T (det M) 0 then Throw matrix_fault
    else Ok (mkMatrix n n
               (map (fun i =>
                       map (fun j => (-1) ^ (i + j) *
                                     det_rows (n - 1) (minor j i (cells M)) /
                                     det M)
                           (seq 0 n))
                    (seq 0 n)))
  else Throw matrix_fault.



(** ** Doubles read as real numbers *)

(** The real matrix of the numbers the doubles of a grid stand for. *)
Definition exact_matrix (M : Double.Matrix) : Matrix :=
  mkMatrix (Double.rows_size M) (Double.cols_size M)
           (map (map Double.exact) (Double.cells M)).

(** [Q^t Q] for a matrix [Qm] of doubles, each double and each operation
    taken exactly. *)
Definition exact_gram (Qm : Double.Matrix) : Matrix :=
  mmul (transpose (exact_matrix Qm)) (exact_matrix Qm).

(** ** Expressions *)

(** The store that gives the unknown [v] the [v]-th number of a list. *)
Definition store_of (values : list R) : store := fun v => nth v values 0.

(** ** Loop invariants of the two Gram-Schmidt methods *)

(** The projection coefficient of a vector [v] on column [a] of [Qm]. *)
Definition proj_coeff (m : nat) (Qm : Matrix) (v : list R) (a : nat) : R :=
  Rsum (fun k => nth k v 0 * mat Qm k a) m.

(** The vector left of [v] after the first [j0] projections are taken off. *)
Definition residual (m : nat) (Qm : Matrix) (v : list R) (j0 k : nat) : R :=
  nth k v 0 - Rsum (fun l => proj_coeff m Qm v l * mat Qm k l) j0.

(** The norm of the residual of column [i] of [A] against the columns of
    [Qm] computed so far. *)
Definition residual_norm (A : Matrix) (m mn : nat) (Qm : Matrix) (i : nat) : R :=
  sqrt (Rsum (fun k => residual m Qm (getCol A i) (Nat.min mn i) k *
                       residual m Qm (getCol A i) (Nat.min mn i) k) m).

(** The scalar product of two columns of a matrix with [m] rows. *)
Definition coldot (m : nat) (Qm : Matrix) (a b : nat) : R :=
  Rsum (fun k => mat Qm k a * mat Qm k b) m.

(** What holds of [_Q] and [_R] once the columns before [i] are done. *)
Record cgs_inv (A : Matrix) (m mn n i : nat) (Qm Rm : Matrix) : Prop := {
  cgs_wfQ : wf Qm /\ rows_size Qm = m /\ cols_size Qm = mn;
  cgs_wfR : wf Rm /\ rows_size Rm = mn /\ cols_size Rm = n;
  cgs_zeroR : forall a b, (i <= b)%nat \/ (b < a)%nat -> mat Rm a b = 0;
  cgs_zeroQ : forall k b, (i <= b)%nat -> mat Qm k b = 0;
  cgs_ortho : forall a b, a <> b -> coldot m Qm a b = 0;
  cgs_unit : forall c, (c < i)%nat -> (c < mn)%nat ->
             mat Rm c c > epsilon -> coldot m Qm c c = 1;
  cgs_recon : forall c, (c < i)%nat -> (c < mn)%nat ->
              mat Rm c c > epsilon ->
              forall k, (k < m)%nat ->
              mat A k c = Rsum (fun l => mat Qm k l * mat Rm l c) (S c);
  cgs_degen : forall c, (c < i)%nat -> (c < mn)%nat ->
              ~ mat Rm c c > epsilon ->
              mat Rm c c = 0 /\ forall k, mat Qm k c = 0;
  cgs_proj : forall a c, (a < c)%nat -> (c < i)%nat -> (a < mn)%nat ->
             mat Rm a c = Rsum (fun k => mat A k c * mat Qm k a) m
}.

(** [V[k][r]]. *)
Definition vat (V : list (list R)) (k r : nat) : R := nth r (nth k V []) 0.

(** The coefficient [dotProduct] of the vector [V[k]] on [q_j]. *)
Definition mgs_coeff (m : nat) (q : list R) (V : list (list R)) (k : nat) : R :=
  Rsum (fun l => nth l q 0 * vat V k l) m.

(** What holds of [_Q], [_R] and [V] once the columns before [j] are done. *)
Record mgs_inv (A : Matrix) (m mn n j : nat) (Qm Rm : Matrix)
    (V : list (list R)) : Prop := {
  mgs_wfQ : wf Qm /\ rows_size Qm = m /\ cols_size Qm = mn;
  mgs_wfR : wf Rm /\ rows_size Rm = mn /\ cols_size Rm = n;
  mgs_lenV : length V = n /\
             forall k, (k < length V)%nat -> length (nth k V []) = m;
  mgs_zeroR : forall a b, (j <= a)%nat \/ (b < a)%nat -> mat Rm a b = 0;
  mgs_zeroQ : forall k b, (j <= b)%nat -> mat Qm k b = 0;
  mgs_Vdef : forall k r, (k < n)%nat -> (r < m)%nat ->
             vat V k r =
             mat A r k - Rsum (fun l => mat Qm r l * mat Rm l k) (Nat.min j k);
  mgs_perp : forall a k, (a < j)%nat -> (a < k)%nat -> (k < n)%nat ->
             Rsum (fun r => mat Qm r a * vat V k r) m = 0;
  mgs_diag : forall c, (c < j)%nat ->
             mat Rm c c = sqrt (Rsum (fun r => vat V c r * vat V c r) m);
  mgs_col : forall c, (c < j)%nat ->
            (mat Rm c c > epsilon /\
             forall r, (r < m)%nat -> mat Qm r c = vat V c r / mat Rm c c) \/
            (~ mat Rm c c > epsilon /\ forall r, mat Qm r c = 0)
}.

(** Column [c] of [A] minus its components on the columns of [Qm] before
    [c], with the coefficients stored in [Rm]. *)
Definition resid (A Qm Rm : Matrix) (k c : nat) : R :=
  mat A k c - Rsum (fun l => mat Qm k l * mat Rm l c) c.

(** What both methods have established on return: the shapes, [Rm] upper
    triangular with a non-negative diagonal, the columns of [Qm] pairwise
    orthogonal, and for each column either a unit vector that completes the
    reconstruction of the column of [A] (diagonal entry above the tolerance)
    or the zero vector (column dropped). *)
Record gs_facts (A : Matrix) (m mn n : nat) (Qm Rm : Matrix) : Prop := {
  gs_wfQ : wf Qm /\ rows_size Qm = m /\ cols_size Qm = mn;
  gs_wfR : wf Rm /\ rows_size Rm = mn /\ cols_size Rm = n;
  gs_upper : forall a b, (b < a)%nat -> mat Rm a b = 0;
  gs_ortho : forall a b, a <> b -> coldot m Qm a b = 0;
  gs_unit : forall c, (c < mn)%nat -> mat Rm c c > epsilon ->
            coldot m Qm c c = 1;
  gs_recon : forall c, (c < mn)%nat -> mat Rm c c > epsilon ->
             forall k, (k < m)%nat ->
             mat A k c = Rsum (fun l => mat Qm k l * mat Rm l c) (S c);
  gs_dropped : forall c, (c < mn)%nat -> ~ mat Rm c c > epsilon ->
               forall k, mat Qm k c = 0;
  gs_perp : forall a c, (a < c)%nat -> (c < mn)%nat ->
            Rsum (fun k => mat Qm k a * resid A Qm Rm k c) m = 0;
  gs_diag : forall c, (c < mn)%nat ->
            0 <= mat Rm c c /\
            mat Rm c c * mat Rm c c <=
            Rsum (fun k => resid A Qm Rm k c * resid A Qm Rm k c) m
}.

(** * Proofs *)

(** ** Tactics *)

(** Splits a conjunction into its parts without unfolding definitions. *)
Ltac split_all := repeat match goal with |- _ /\ _ => split end.

(** Case analysis on the comparisons of indices in the goal. *)
Ltac bool_cases :=
  repeat match goal with
  | |- context [Nat.eqb ?a ?b] => destruct (Nat.eqb_spec a b)
  | |- context [Nat.ltb ?a ?b] => destruct (Nat.ltb_spec a b)
  | |- context [Nat.leb ?a ?b] => destruct (Nat.leb_spec a b)
  end; simpl; try lia; try reflexivity.

(** Unrolls the loops of a decomposition on a concrete matrix, leaving the
    real arithmetic as it is. *)
Ltac gs_unfold :=
  cbn -[Rgt_dec sqrt Rplus Rmult Rminus Rdiv Ropp Rinv epsilon IZR].

(** Settles the next test [normVec > epsilon], the norm being [x]. *)
Ltac norm_is x :=
  match goal with
  | |- context [Rgt_dec (sqrt ?e) epsilon] =>
      let H := fresh "Hnorm" in
      assert (H : sqrt e = x);
      [ | rewrite !H; destruct (Rgt_dec x epsilon) as [?|?];
          [ try (exfalso; unfold epsilon in *; lra)
          | try (exfalso; unfold epsilon in *; lra) ] ]
  end.

(** ** Lists, loops and sums *)

Lemma length_list_set {T : Type} (l : list T) (i : nat) (x : T) :
  length (list_set l i x) = length l.
Proof.
  revert i; induction l as [|h t IH]; intros [|i]; simpl; auto.
Qed.

Lemma nth_list_set_eq {T : Type} (l : list T) (i : nat) (x d : T) :
  (i < length l)%nat -> nth i (list_set l i x) d = x.
Proof.
  revert i; induction l as [|h t IH]; intros [|i] H; simpl in *; try lia; auto.
  apply IH; lia.
Qed.

Lemma nth_list_set_neq {T : Type} (l : list T) (i j : nat) (x d : T) :
  i <> j -> nth j (list_set l i x) d = nth j l d.
Proof.
  revert i j; induction l as [|h t IH]; intros [|i] [|j] H; simpl; auto; try lia.
Qed.

Lemma list_set_overflow {T : Type} (l : list T) (i : nat) (x : T) :
  (length l <= i)%nat -> list_set l i x = l.
Proof.
  revert i; induction l as [|h t IH]; intros [|i] H; simpl in *; auto; try lia.
  f_equal. apply IH. lia.
Qed.

Lemma Forall_list_set {T : Type} (P : T -> Prop) (l : list T) (i : nat) (x : T) :
  Forall P l -> P x -> Forall P (list_set l i x).
Proof.
  intros Hl Hx. revert i.
  induction Hl as [|h t Hh Ht IH]; intros [|i]; simpl; auto.
Qed.

Lemma nth_map_seq {T : Type} (f : nat -> T) (n k : nat) (d : T) :
  (k < n)%nat -> nth k (map f (seq 0 n)) d = f k.
Proof.
  intros Hk. rewrite (nth_indep _ d (f 0%nat)) by (rewrite length_map, length_seq; lia).
  rewrite map_nth, seq_nth by lia. reflexivity.
Qed.

Lemma fold_left_seq_S {T : Type} (f : T -> nat -> T) (a n : nat) (x : T) :
  fold_left f (seq a (S n)) x = f (fold_left f (seq a n) x) (a + n)%nat.
Proof.
  rewrite seq_S, fold_left_app. reflexivity.
Qed.

Lemma Rsum_ext (f g : nat -> R) (n : nat) :
  (forall k, (k < n)%nat -> f k = g k) -> Rsum f n = Rsum g n.
Proof.
  induction n as [|n IH]; intros H; simpl; auto.
  rewrite IH, H by (intros; auto with arith). reflexivity.
Qed.

Lemma Rsum_zero (f : nat -> R) (n : nat) :
  (forall k, (k < n)%nat -> f k = 0) -> Rsum f n = 0.
Proof.
  induction n as [|n IH]; intros H; simpl; auto.
  rewrite IH, H by (intros; auto with arith). lra.
Qed.

Lemma Rsum_plus (f g : nat -> R) (n : nat) :
  Rsum (fun k => f k + g k) n = Rsum f n + Rsum g n.
Proof.
  induction n as [|n IH]; simpl; [lra | rewrite IH; lra].
Qed.

Lemma Rsum_minus (f g : nat -> R) (n : nat) :
  Rsum (fun k => f k - g k) n = Rsum f n - Rsum g n.
Proof.
  induction n as [|n IH]; simpl; [lra | rewrite IH; lra].
Qed.

Lemma Rsum_scal_l (c : R) (f : nat -> R) (n : nat) :
  Rsum (fun k => c * f k) n = c * Rsum f n.
Proof.
  induction n as [|n IH]; simpl; [lra | rewrite IH; lra].
Qed.

Lemma Rsum_scal_r (c : R) (f : nat -> R) (n : nat) :
  Rsum (fun k => f k * c) n = Rsum f n * c.
Proof.
  induction n as [|n IH]; simpl; [lra | rewrite IH; lra].
Qed.

Lemma Rsum_swap (f : nat -> nat -> R) (m n : nat) :
  Rsum (fun k => Rsum (fun l => f k l) n) m =
  Rsum (fun l => Rsum (fun k => f k l) m) n.
Proof.
  induction m as [|m IH]; simpl.
  - symmetry; apply Rsum_zero; auto.
  - rewrite IH, <- Rsum_plus. reflexivity.
Qed.

(** A sum with a single non-zero term. *)
Lemma Rsum_single (f : nat -> R) (n a : nat) :
  (a < n)%nat -> (forall k, (k < n)%nat -> k <> a -> f k = 0) ->
  Rsum f n = f a.
Proof.
  induction n as [|n IH]; intros Ha H; [lia|]. simpl.
  destruct (Nat.eq_dec a n) as [->|Hne].
  - rewrite Rsum_zero; [lra|]. intros k Hk; apply H; lia.
  - rewrite IH, (H n) by (try lia; intros; apply H; lia). lra.
Qed.

Lemma Rsum_nonneg (f : nat -> R) (n : nat) :
  (forall k, (k < n)%nat -> 0 <= f k) -> 0 <= Rsum f n.
Proof.
  induction n as [|n IH]; intros H; simpl; [lra|].
  specialize (IH (fun k Hk => H k (Nat.lt_lt_succ_r _ _ Hk))).
  specialize (H n (Nat.lt_succ_diag_r n)). lra.
Qed.

(** A sum whose terms vanish from [b] on. *)
Lemma Rsum_trunc (f : nat -> R) (b n : nat) :
  (b <= n)%nat -> (forall k, (b <= k < n)%nat -> f k = 0) ->
  Rsum f n = Rsum f b.
Proof.
  intros Hb H. induction n as [|n IH].
  - replace b with 0%nat by lia. reflexivity.
  - destruct (Nat.eq_dec b (S n)) as [->|Hne]; [reflexivity|].
    simpl. rewrite IH, H by (try lia; intros; apply H; lia). lra.
Qed.



(** The accumulation loop is the finite sum. *)
Lemma dot_loop_Rsum (m : nat) (a b : list R) :
  dot_loop m a b = Rsum (fun k => nth k a 0 * nth k b 0) m.
Proof.
  unfold dot_loop. induction m as [|m IH]; [reflexivity|].
  rewrite fold_left_seq_S, IH. reflexivity.
Qed.

(** A loop [for (k = 0; k < m; ++k) u[k] = g k u[k];] rewrites the first [m]
    cells independently of each other. *)
Lemma length_pointwise_loop (g : nat -> R -> R) (m : nat) (u : list R) :
  length (fold_left (fun u k => list_set u k (g k (nth k u 0))) (seq 0 m) u)
  = length u.
Proof.
  induction m as [|m IH]; [reflexivity|].
  rewrite fold_left_seq_S, length_list_set. exact IH.
Qed.

Lemma nth_pointwise_loop (g : nat -> R -> R) (m : nat) (u : list R) :
  (m <= length u)%nat ->
  forall k,
  nth k (fold_left (fun u k => list_set u k (g k (nth k u 0))) (seq 0 m) u) 0
  = if (k <? m)%nat then g k (nth k u 0) else nth k u 0.
Proof.
  induction m as [|m IH]; intros Hm k; [reflexivity|].
  specialize (IH ltac:(lia)).
  assert (Hl := length_pointwise_loop g m u).
  rewrite fold_left_seq_S. simpl.
  destruct (Nat.eq_dec k m) as [->|Hne].
  - rewrite nth_list_set_eq by lia. rewrite IH, Nat.ltb_irrefl.
    replace (m <? S m)%nat with true by (symmetry; apply Nat.ltb_lt; lia).
    reflexivity.
  - rewrite nth_list_set_neq by auto. rewrite IH.
    destruct (k <? m)%nat eqn:E1, (k <? S m)%nat eqn:E2; auto;
      apply Nat.ltb_lt in E1 || apply Nat.ltb_ge in E1;
      apply Nat.ltb_lt in E2 || apply Nat.ltb_ge in E2; lia.
Qed.

Lemma length_sub_scaled_loop (m : nat) (u : list R) (p : R) (e : list R) :
  length (sub_scaled_loop m u p e) = length u.
Proof.
  apply (length_pointwise_loop (fun k x => x - p * nth k e 0)).
Qed.

Lemma nth_sub_scaled_loop (m : nat) (u : list R) (p : R) (e : list R) (k : nat) :
  (m <= length u)%nat ->
  nth k (sub_scaled_loop m u p e) 0 =
  if (k <? m)%nat then nth k u 0 - p * nth k e 0 else nth k u 0.
Proof.
  intros Hm.
  apply (nth_pointwise_loop (fun k x => x - p * nth k e 0)); exact Hm.
Qed.

Lemma length_normalize_loop (m : nat) (u : list R) (c : R) :
  length (normalize_loop m u c) = m.
Proof.
  unfold normalize_loop.
  rewrite (length_pointwise_loop (fun k _ => nth k u 0 / c)).
  apply repeat_length.
Qed.

Lemma nth_normalize_loop (m : nat) (u : list R) (c : R) (k : nat) :
  nth k (normalize_loop m u c) 0 =
  if (k <? m)%nat then nth k u 0 / c else 0.
Proof.
  unfold normalize_loop.
  rewrite (nth_pointwise_loop (fun k _ => nth k u 0 / c))
    by (rewrite repeat_length; lia).
  destruct (k <? m)%nat; [reflexivity|].
  apply nth_repeat.
Qed.

Lemma sqrt_sq1 (x : R) : 0 <= x -> sqrt (0 + x * x) = x.
Proof.
  intros Hx. replace (0 + x * x) with (x * x) by lra. apply sqrt_square, Hx.
Qed.


Lemma epsilon_pos : 0 < epsilon.
Proof. unfold epsilon. lra. Qed.

(** ** The matrix operations *)

Lemma wf_row (M : Matrix) (i : nat) :
  wf M -> (i < rows_size M)%nat -> length (nth i (cells M) []) = cols_size M.
Proof.
  intros [Hr Hc] Hi. rewrite Forall_forall in Hc. apply Hc, nth_In. lia.
Qed.

Lemma mat_overflow (M : Matrix) (i j : nat) :
  wf M -> (rows_size M <= i)%nat \/ (cols_size M <= j)%nat -> mat M i j = 0.
Proof.
  intros HM H. unfold mat.
  destruct (Nat.lt_ge_cases i (rows_size M)) as [Hi|Hi].
  - apply nth_overflow. rewrite wf_row by auto. lia.
  - rewrite (nth_overflow (cells M)) by (destruct HM; lia). destruct j; reflexivity.
Qed.

Lemma wf_zeros (m n : nat) : wf (zeros m n).
Proof.
  split; simpl; [apply repeat_length|].
  apply Forall_forall. intros row Hrow.
  apply repeat_spec in Hrow. subst. apply repeat_length.
Qed.

Lemma mat_zeros (m n i j : nat) : mat (zeros m n) i j = 0.
Proof.
  unfold mat, zeros; simpl.
  destruct (Nat.lt_ge_cases i m) as [Hi|Hi].
  - rewrite nth_repeat_lt by exact Hi. apply nth_repeat.
  - rewrite (nth_overflow (repeat (repeat 0 n) m))
      by (rewrite repeat_length; lia).
    destruct j; reflexivity.
Qed.

Lemma wf_mset (M : Matrix) (i j : nat) (x : R) : wf M -> wf (mset M i j x).
Proof.
  intros HM. pose proof HM as [Hr Hc]. split; simpl.
  - rewrite length_list_set. exact Hr.
  - destruct (Nat.lt_ge_cases i (rows_size M)) as [Hi|Hi].
    + apply Forall_list_set; [exact Hc|].
      rewrite length_list_set. apply wf_row; auto.
    + rewrite list_set_overflow by lia. exact Hc.
Qed.

Lemma mat_mset_eq (M : Matrix) (i j : nat) (x : R) :
  wf M -> (i < rows_size M)%nat -> (j < cols_size M)%nat ->
  mat (mset M i j x) i j = x.
Proof.
  intros HM Hi Hj. unfold mat, mset; simpl.
  rewrite nth_list_set_eq by (destruct HM; lia).
  apply nth_list_set_eq. rewrite wf_row; auto.
Qed.

Lemma mat_mset_neq (M : Matrix) (i j a b : nat) (x : R) :
  a <> i \/ b <> j -> mat (mset M i j x) a b = mat M a b.
Proof.
  intros H. unfold mat, mset; simpl.
  destruct (Nat.eq_dec a i) as [->|Ha].
  - destruct (Nat.lt_ge_cases i (length (cells M))) as [Hi|Hi].
    + rewrite nth_list_set_eq by exact Hi.
      apply nth_list_set_neq. lia.
    + rewrite list_set_overflow by exact Hi. reflexivity.
  - rewrite nth_list_set_neq by auto. reflexivity.
Qed.

Lemma wf_setCol (M : Matrix) (v : list R) (j : nat) : wf M -> wf (setCol M v j).
Proof.
  intros HM. split; simpl.
  - rewrite length_map, length_seq. reflexivity.
  - apply Forall_forall. intros row Hrow.
    apply in_map_iff in Hrow. destruct Hrow as [k [<- Hk]].
    apply in_seq in Hk. rewrite length_list_set. apply wf_row; auto. lia.
Qed.

Lemma mat_setCol (M : Matrix) (v : list R) (j a b : nat) :
  wf M ->
  mat (setCol M v j) a b =
  if (b =? j)%nat && (a <? rows_size M)%nat && (j <? cols_size M)%nat
  then nth a v 0 else mat M a b.
Proof.
  intros HM. unfold mat at 1. unfold setCol; simpl.
  destruct (Nat.ltb_spec a (rows_size M)) as [Ha|Ha].
  - rewrite nth_map_seq by exact Ha.
    destruct (Nat.eqb_spec b j) as [->|Hb]; simpl.
    + destruct (Nat.ltb_spec j (cols_size M)) as [Hj|Hj].
      * apply nth_list_set_eq. rewrite wf_row; auto.
      * rewrite list_set_overflow by (rewrite wf_row; auto). reflexivity.
    + rewrite nth_list_set_neq by auto. reflexivity.
  - rewrite andb_false_r; simpl.
    rewrite (nth_overflow (map _ _)) by (rewrite length_map, length_seq; lia).
    rewrite mat_overflow by auto. destruct b; reflexivity.
Qed.

Lemma nth_getCol (M : Matrix) (j k : nat) : nth k (getCol M j) 0 = mat M k j.
Proof.
  unfold getCol, mat.
  destruct (Nat.lt_ge_cases k (length (cells M))) as [Hk|Hk].
  - rewrite (nth_indep _ 0 (nth j [] 0)) by (rewrite length_map; lia).
    exact (map_nth (fun row : list R => nth j row 0) (cells M) [] k).
  - rewrite (nth_overflow (map _ _)) by (rewrite length_map; lia).
    rewrite (nth_overflow (cells M)) by lia. destruct j; reflexivity.
Qed.

Lemma length_getCol (M : Matrix) (j : nat) :
  wf M -> length (getCol M j) = rows_size M.
Proof.
  intros [Hr _]. unfold getCol. rewrite length_map. exact Hr.
Qed.



(** A well-formed matrix is the table of its entries. *)
Lemma matrix_tabulate (M : Matrix) :
  wf M ->
  M = mkMatrix (rows_size M) (cols_size M)
        (map (fun i => map (fun j => mat M i j) (seq 0 (cols_size M)))
             (seq 0 (rows_size M))).
Proof.
  intros HM. pose proof HM as [Hr Hc].
  destruct M as [m n c]; simpl in *. f_equal.
  apply nth_ext with (d := []) (d' := []).
  - rewrite length_map, length_seq. exact Hr.
  - intros i Hi. rewrite nth_map_seq by lia.
    apply nth_ext with (d := 0) (d' := 0).
    + rewrite length_map, length_seq.
      apply (wf_row (mkMatrix m n c) i HM). simpl; lia.
    + intros j Hj. rewrite (nth_map_seq (fun j => mat _ i j)); [reflexivity|].
      pose proof (wf_row (mkMatrix m n c) i HM) as Hrow. simpl in Hrow.
      rewrite <- Hrow by lia. exact Hj.
Qed.

(** Two tables over the same shape are equal when their entries are. *)
Lemma tabulate_ext (f g : nat -> nat -> R) (m n : nat) :
  (forall i j, (i < m)%nat -> (j < n)%nat -> f i j = g i j) ->
  mkMatrix m n (map (fun i => map (fun j => f i j) (seq 0 n)) (seq 0 m)) =
  mkMatrix m n (map (fun i => map (fun j => g i j) (seq 0 n)) (seq 0 m)).
Proof.
  intros H. f_equal. apply map_ext_in. intros i Hi. apply in_seq in Hi.
  apply map_ext_in. intros j Hj. apply in_seq in Hj. apply H; lia.
Qed.

Lemma mat_transpose (M : Matrix) (i k : nat) :
  (i < cols_size M)%nat -> mat (transpose M) i k = mat M k i.
Proof.
  intros Hi. unfold mat at 1, transpose; simpl.
  rewrite nth_map_seq by exact Hi. apply nth_getCol.
Qed.

Lemma approx_eq_refl (tol : R) (M : Matrix) : 0 <= tol -> approx_eq tol M M.
Proof.
  intros Ht. unfold approx_eq. split_all; auto. intros i j _ _.
  replace (mat M i j - mat M i j) with 0 by lra. rewrite Rabs_R0. exact Ht.
Qed.

Lemma wf_matrix1 (x : R) : wf (matrix1 x).
Proof. split; simpl; auto. Qed.




(** ** Determinants *)





(** ** Classical Gram-Schmidt: what one column step computes *)

Lemma dot_loop_getCol (m : nat) (Qm : Matrix) (v : list R) (a : nat) :
  dot_loop m v (getCol Qm a) = proj_coeff m Qm v a.
Proof.
  rewrite dot_loop_Rsum. apply Rsum_ext. intros k _.
  rewrite nth_getCol. reflexivity.
Qed.

Lemma cgs_inner_spec (m : nat) (Qm : Matrix) (v : list R) (i : nat)
    (Rm : Matrix) (j0 : nat) :
  wf Rm -> length v = m ->
  (j0 <= rows_size Rm)%nat -> (i < cols_size Rm)%nat ->
  let st := fold_left (cgs_project m Qm v i) (seq 0 j0) (v, Rm) in
  length (fst st) = m /\
  (forall k, (k < m)%nat -> nth k (fst st) 0 = residual m Qm v j0 k) /\
  wf (snd st) /\
  rows_size (snd st) = rows_size Rm /\
  cols_size (snd st) = cols_size Rm /\
  (forall a b, mat (snd st) a b =
     if (b =? i)%nat && (a <? j0)%nat then proj_coeff m Qm v a else mat Rm a b).
Proof.
  intros HR Hv Hj Hi. induction j0 as [|j0 IH]; intros st.
  - subst st; simpl. repeat split; auto.
    + intros k _. unfold residual; simpl. lra.
    + apply HR.
    + apply HR.
    + intros a b. rewrite andb_false_r. reflexivity.
  - specialize (IH ltac:(lia)). simpl in IH.
    subst st. rewrite fold_left_seq_S. simpl.
    destruct (fold_left (cgs_project m Qm v i) (seq 0 j0) (v, Rm)) as [u R1].
    simpl in IH. destruct IH as (Hu & Hnth & HR1 & Hrows & Hcols & Hmat).
    unfold cgs_project. simpl. rewrite dot_loop_getCol.
    repeat split.
    + rewrite length_sub_scaled_loop. exact Hu.
    + intros k Hk. rewrite nth_sub_scaled_loop by lia.
      replace (k <? m)%nat with true by (symmetry; apply Nat.ltb_lt; exact Hk).
      rewrite Hnth, nth_getCol by exact Hk. unfold residual. simpl. lra.
    + apply (wf_mset R1 j0 i _ HR1).
    + apply (wf_mset R1 j0 i _ HR1).
    + exact Hrows.
    + exact Hcols.
    + intros a b.
      destruct (Nat.eqb_spec b i) as [->|Hb], (Nat.eq_dec a j0) as [->|Ha]; simpl.
      * rewrite mat_mset_eq by (auto; lia).
        replace (j0 <? S j0)%nat with true by (symmetry; apply Nat.ltb_lt; lia).
        reflexivity.
      * rewrite mat_mset_neq, Hmat by auto.
        rewrite Nat.eqb_refl; simpl.
        destruct (Nat.ltb_spec a j0), (Nat.ltb_spec a (S j0)); auto; lia.
      * rewrite mat_mset_neq, Hmat by auto.
        replace (b =? i)%nat with false by (symmetry; apply Nat.eqb_neq; exact Hb).
        reflexivity.
      * rewrite mat_mset_neq, Hmat by auto.
        replace (b =? i)%nat with false by (symmetry; apply Nat.eqb_neq; exact Hb).
        reflexivity.
Qed.

Lemma cgs_column_spec (A : Matrix) (m mn : nat) (Qm Rm : Matrix) (i : nat) :
  wf A -> rows_size A = m ->
  wf Qm -> rows_size Qm = m -> cols_size Qm = mn ->
  wf Rm -> rows_size Rm = mn -> (i < cols_size Rm)%nat ->
  let st := cgs_column A m mn (Qm, Rm) i in
  let v := getCol A i in
  let nrm := residual_norm A m mn Qm i in
  (wf (fst st) /\ rows_size (fst st) = m /\ cols_size (fst st) = mn) /\
  (wf (snd st) /\ rows_size (snd st) = mn /\
   cols_size (snd st) = cols_size Rm) /\
  (forall a b, b <> i -> mat (snd st) a b = mat Rm a b) /\
  (forall k b, b <> i -> mat (fst st) k b = mat Qm k b) /\
  (forall a, (a < Nat.min mn i)%nat -> mat (snd st) a i = proj_coeff m Qm v a) /\
  (forall a, (i < a)%nat -> mat (snd st) a i = mat Rm a i) /\
  ((i < mn)%nat ->
     (nrm > epsilon /\ mat (snd st) i i = nrm /\
      forall k, (k < m)%nat ->
        mat (fst st) k i = residual m Qm v (Nat.min mn i) k / nrm) \/
     (~ nrm > epsilon /\ mat (snd st) i i = 0 /\
      forall k, mat (fst st) k i = mat Qm k i)) /\
  ((mn <= i)%nat -> fst st = Qm).
Proof.
  intros HA HAm HQ HQm HQn HR HRm Hi st v nrm.
  assert (Hv : length v = m) by (unfold v; rewrite length_getCol; auto).
  pose proof (cgs_inner_spec m Qm v i Rm (Nat.min mn i) HR Hv ltac:(lia) Hi)
    as Hinner.
  simpl in Hinner. subst st. unfold cgs_column. fold v.
  destruct (fold_left (cgs_project m Qm v i) (seq 0 (Nat.min mn i)) (v, Rm))
    as [u R1].
  simpl in Hinner. destruct Hinner as (Hu & Hnth & HR1 & Hrows & Hcols & Hmat).
  assert (Hnrm : sqrt (dot_loop m u u) = nrm).
  { unfold nrm, residual_norm. f_equal. rewrite dot_loop_Rsum.
    apply Rsum_ext. intros k Hk. rewrite Hnth by exact Hk. reflexivity. }
  rewrite Hnrm.
  assert (Hold : forall a b, b <> i -> mat R1 a b = mat Rm a b).
  { intros a b Hb. rewrite Hmat.
    replace (b =? i)%nat with false by (symmetry; apply Nat.eqb_neq; exact Hb).
    reflexivity. }
  assert (Hproj : forall a, (a < Nat.min mn i)%nat ->
                            mat R1 a i = proj_coeff m Qm v a).
  { intros a Ha. rewrite Hmat, Nat.eqb_refl.
    replace (a <? Nat.min mn i)%nat with true
      by (symmetry; apply Nat.ltb_lt; exact Ha). reflexivity. }
  assert (Hbelow : forall a, (Nat.min mn i <= a)%nat -> mat R1 a i = mat Rm a i).
  { intros a Ha. rewrite Hmat, Nat.eqb_refl.
    replace (a <? Nat.min mn i)%nat with false
      by (symmetry; apply Nat.ltb_ge; exact Ha). reflexivity. }
  destruct (Nat.ltb_spec i mn) as [Himn|Himn].
  - destruct (Rgt_dec nrm epsilon) as [Hgt|Hle]; simpl.
    + split_all; try (apply wf_setCol; auto); try (apply wf_mset; auto);
        auto; try lia.
      * intros a b Hb. rewrite mat_mset_neq by auto. apply Hold; exact Hb.
      * intros k b Hb. rewrite mat_setCol by auto.
        replace (b =? i)%nat with false by (symmetry; apply Nat.eqb_neq; exact Hb).
        reflexivity.
      * intros a Ha. rewrite mat_mset_neq by lia. apply Hproj; exact Ha.
      * intros a Ha. rewrite mat_mset_neq by lia. apply Hbelow; lia.
      * intros _. left. split_all; auto.
        -- apply mat_mset_eq; auto; lia.
        -- intros k Hk. rewrite mat_setCol by auto.
           rewrite Nat.eqb_refl, HQm, HQn.
           replace (k <? m)%nat with true by (symmetry; apply Nat.ltb_lt; exact Hk).
           replace (i <? mn)%nat with true by (symmetry; apply Nat.ltb_lt; exact Himn).
           simpl. rewrite nth_normalize_loop.
           replace (k <? m)%nat with true by (symmetry; apply Nat.ltb_lt; exact Hk).
           rewrite Hnth by exact Hk. reflexivity.
    + split_all; try (apply wf_mset; auto); auto; try lia.
      * intros a b Hb. rewrite mat_mset_neq by auto. apply Hold; exact Hb.
      * intros a Ha. rewrite mat_mset_neq by lia. apply Hproj; exact Ha.
      * intros a Ha. rewrite mat_mset_neq by lia. apply Hbelow; lia.
      * intros _. right. split_all; auto.
        apply mat_mset_eq; auto; lia.
  - simpl. split_all; auto; try lia.
    intros a Ha. apply Hbelow. lia.
Qed.

(** ** Classical Gram-Schmidt: the loop invariant *)

(** The residual is orthogonal to every column it was projected on, when
    those columns are pairwise orthogonal and each is a unit or zero vector. *)
Lemma residual_orthogonal (m : nat) (Qm : Matrix) (v : list R) (j0 a : nat) :
  (forall b c, b <> c -> coldot m Qm b c = 0) ->
  (forall c, (c < j0)%nat ->
     coldot m Qm c c = 1 \/ forall k, mat Qm k c = 0) ->
  (a < j0)%nat ->
  Rsum (fun k => mat Qm k a * residual m Qm v j0 k) m = 0.
Proof.
  intros Hortho Hunit Ha. unfold residual.
  rewrite (Rsum_ext _ (fun k => nth k v 0 * mat Qm k a -
     Rsum (fun l => proj_coeff m Qm v l * (mat Qm k a * mat Qm k l)) j0)).
  2:{ intros k _.
      rewrite (Rsum_ext (fun l => proj_coeff m Qm v l * (mat Qm k a * mat Qm k l))
                  (fun l => mat Qm k a * (proj_coeff m Qm v l * mat Qm k l)))
        by (intros; lra).
      rewrite Rsum_scal_l. lra. }
  rewrite Rsum_minus, Rsum_swap.
  rewrite (Rsum_ext (fun l => Rsum (fun k => proj_coeff m Qm v l *
                                             (mat Qm k a * mat Qm k l)) m)
             (fun l => proj_coeff m Qm v l * coldot m Qm a l))
    by (intros; apply Rsum_scal_l).
  rewrite (Rsum_single _ j0 a Ha).
  2:{ intros l _ Hl. rewrite Hortho by auto. lra. }
  fold (proj_coeff m Qm v a).
  destruct (Hunit a Ha) as [H1|H0].
  - rewrite H1. lra.
  - assert (Hp : proj_coeff m Qm v a = 0)
      by (apply Rsum_zero; intros k _; rewrite H0; lra).
    rewrite Hp. lra.
Qed.

Lemma residual_norm_sqr (A : Matrix) (m mn : nat) (Qm : Matrix) (i : nat) :
  residual_norm A m mn Qm i * residual_norm A m mn Qm i =
  Rsum (fun k => residual m Qm (getCol A i) (Nat.min mn i) k *
                 residual m Qm (getCol A i) (Nat.min mn i) k) m.
Proof.
  unfold residual_norm. apply sqrt_sqrt.
  apply Rsum_nonneg. intros; nra.
Qed.

Lemma coldot_ext (m : nat) (Q1 Q2 : Matrix) (a b : nat) :
  (forall k, mat Q1 k a = mat Q2 k a) ->
  (forall k, mat Q1 k b = mat Q2 k b) ->
  coldot m Q1 a b = coldot m Q2 a b.
Proof.
  intros Ha Hb. apply Rsum_ext. intros k _. rewrite Ha, Hb. reflexivity.
Qed.

Lemma coldot_sym (m : nat) (Qm : Matrix) (a b : nat) :
  coldot m Qm a b = coldot m Qm b a.
Proof. apply Rsum_ext. intros; lra. Qed.

Lemma coldot_zero_r (m : nat) (Qm : Matrix) (a b : nat) :
  (forall k, mat Qm k b = 0) -> coldot m Qm a b = 0.
Proof. intros H. apply Rsum_zero. intros k _. rewrite H. lra. Qed.

Lemma cgs_inv_init (A : Matrix) (m mn n : nat) :
  cgs_inv A m mn n 0 (zeros m mn) (zeros mn n).
Proof.
  constructor; try (intros; lia).
  - split_all; auto using wf_zeros.
  - split_all; auto using wf_zeros.
  - intros. apply mat_zeros.
  - intros. apply mat_zeros.
  - intros. apply Rsum_zero. intros. rewrite mat_zeros. lra.
Qed.

Lemma cgs_inv_unit_or_zero (A : Matrix) (m mn n i : nat) (Qm Rm : Matrix) :
  cgs_inv A m mn n i Qm Rm ->
  forall c, coldot m Qm c c = 1 \/ forall k, mat Qm k c = 0.
Proof.
  intros H c.
  destruct (Nat.lt_ge_cases c i) as [Hci|Hci];
    [|right; intros; apply (cgs_zeroQ _ _ _ _ _ _ _ H); exact Hci].
  destruct (Nat.lt_ge_cases c mn) as [Hcm|Hcm].
  - destruct (Rgt_dec (mat Rm c c) epsilon) as [Hgt|Hle].
    + left. apply (cgs_unit _ _ _ _ _ _ _ H); auto.
    + right. apply (cgs_degen _ _ _ _ _ _ _ H); auto.
  - right. intros k. apply mat_overflow; [apply H|].
    right. destruct (cgs_wfQ _ _ _ _ _ _ _ H) as (_ & _ & ->). exact Hcm.
Qed.

(** The step and the whole loop, for a matrix [A] with [m] rows and [n]
    columns and factors of width and height [mn]. *)
Section ClassicalInvariant.

Variables (A : Matrix) (m mn n : nat).
Hypothesis HA : wf A.
Hypothesis HAm : rows_size A = m.
Hypothesis Hmn : (mn <= n)%nat.

Lemma cgs_inv_step (i : nat) (Qm Rm : Matrix) :
  (i < n)%nat ->
  cgs_inv A m mn n i Qm Rm ->
  cgs_inv A m mn n (S i) (fst (cgs_column A m mn (Qm, Rm) i))
                         (snd (cgs_column A m mn (Qm, Rm) i)).
Proof using HA HAm Hmn.
  intros Hi Hinv.
  pose proof (cgs_inv_unit_or_zero _ _ _ _ _ _ _ Hinv) as Huz.
  destruct Hinv as [HwQ HwR HzR HzQ Ho Hu Hr Hd Hp].
  destruct HwQ as (HQ & HQm & HQn). destruct HwR as (HR & HRm & HRn).
  pose proof (cgs_column_spec A m mn Qm Rm i HA HAm HQ HQm HQn HR HRm
                ltac:(lia)) as Hspec.
  cbv zeta in Hspec.
  destruct (cgs_column A m mn (Qm, Rm) i) as [Q' R'].
  unfold fst, snd in *.
  destruct Hspec as (HQ' & HR' & HRold & HQold & Hproj & Hbelow & Hdiag & Hsame).
  set (v := getCol A i) in *. set (nrm := residual_norm A m mn Qm i) in *.
  (* the columns other than [i] *)
  assert (Hcd : forall a b, a <> i -> b <> i -> coldot m Q' a b = coldot m Qm a b).
  { intros a b Ha Hb. apply coldot_ext; intros k; apply HQold; auto. }
  assert (Hmin : (i < mn)%nat -> Nat.min mn i = i) by lia.
  constructor.
  - exact HQ'.
  - rewrite <- HRn. exact HR'.
  - intros a b [Hb|Hb].
    + rewrite HRold by lia. apply HzR. lia.
    + destruct (Nat.eq_dec b i) as [->|Hbi].
      * rewrite Hbelow by lia. apply HzR. lia.
      * rewrite HRold by exact Hbi. apply HzR. lia.
  - intros k b Hb. rewrite HQold by lia. apply HzQ. lia.
  - (* pairwise orthogonality *)
    assert (Hnew : forall a, a <> i -> coldot m Q' a i = 0).
    { intros a Ha.
      destruct (Nat.lt_ge_cases i mn) as [Himn|Himn].
      2:{ rewrite Hsame by exact Himn. apply Ho; exact Ha. }
      destruct (Hdiag Himn) as [(Hgt & _ & Hcol)|(_ & _ & Hcol)].
      2:{ apply coldot_zero_r. intros k. rewrite Hcol. apply HzQ. lia. }
      destruct (Nat.lt_ge_cases i a) as [Hia|Hia].
      { rewrite coldot_sym. apply coldot_zero_r.
        intros k. rewrite HQold by lia. apply HzQ. lia. }
      unfold coldot.
      rewrite (Rsum_ext _ (fun k => (mat Qm k a * residual m Qm v i k) * / nrm)).
      2:{ intros k Hk. rewrite Hcol, HQold, Hmin by auto.
          unfold Rdiv. lra. }
      rewrite Rsum_scal_r.
      rewrite (residual_orthogonal m Qm v i a Ho) by (auto; lia). lra. }
    intros a b Hab.
    destruct (Nat.eq_dec b i) as [->|Hb]; [apply Hnew; exact Hab|].
    destruct (Nat.eq_dec a i) as [->|Ha];
      [rewrite coldot_sym; apply Hnew; exact Hb|].
    rewrite Hcd by auto. apply Ho; exact Hab.
  - (* unit columns *)
    intros c Hc Hcm Hgt.
    destruct (Nat.eq_dec c i) as [->|Hci].
    + destruct (Hdiag Hcm) as [(Hn & HRii & Hcol)|(_ & HRii & _)];
        [|rewrite HRii in Hgt; pose proof epsilon_pos; lra].
      unfold coldot.
      rewrite (Rsum_ext _ (fun k => (residual m Qm v (Nat.min mn i) k *
                                     residual m Qm v (Nat.min mn i) k) *
                                    (/ nrm * / nrm))).
      2:{ intros k Hk. rewrite Hcol by exact Hk. unfold Rdiv. lra. }
      rewrite Rsum_scal_r. unfold v. rewrite <- residual_norm_sqr.
      fold nrm. pose proof epsilon_pos. field. lra.
    + rewrite Hcd by auto. apply Hu; auto; try lia.
      rewrite <- HRold by exact Hci. exact Hgt.
  - (* the column of [A] is recovered *)
    intros c Hc Hcm Hgt k Hk.
    destruct (Nat.eq_dec c i) as [->|Hci].
    + destruct (Hdiag Hcm) as [(Hn & HRii & Hcol)|(_ & HRii & _)];
        [|rewrite HRii in Hgt; pose proof epsilon_pos; lra].
      simpl. rewrite HRii, Hcol by exact Hk.
      rewrite (Rsum_ext _ (fun l => proj_coeff m Qm v l * mat Qm k l)).
      2:{ intros l Hl. rewrite HQold, Hproj by lia. lra. }
      rewrite Hmin by exact Hcm. unfold residual.
      replace (nth k v 0) with (mat A k i) by (symmetry; apply nth_getCol).
      pose proof epsilon_pos. field. lra.
    + rewrite (Rsum_ext _ (fun l => mat Qm k l * mat Rm l c)).
      2:{ intros l Hl. rewrite HQold, HRold by lia. reflexivity. }
      apply Hr; auto; try lia.
      rewrite <- HRold by exact Hci. exact Hgt.
  - (* dropped columns *)
    intros c Hc Hcm Hle.
    destruct (Nat.eq_dec c i) as [->|Hci].
    + destruct (Hdiag Hcm) as [(Hn & HRii & _)|(_ & HRii & Hcol)];
        [rewrite HRii in Hle; contradiction|].
      split; [exact HRii|]. intros k. rewrite Hcol. apply HzQ. lia.
    + rewrite HRold in * by exact Hci.
      destruct (Hd c ltac:(lia) Hcm Hle) as [H0 Hz].
      split; [exact H0|]. intros k. rewrite HQold by exact Hci. apply Hz.
  - (* projection coefficients *)
    intros a c Hac Hc Ham.
    destruct (Nat.eq_dec c i) as [->|Hci].
    + rewrite Hproj by lia. unfold proj_coeff.
      apply Rsum_ext. intros k _.
      unfold v. rewrite nth_getCol, HQold by lia. reflexivity.
    + rewrite HRold by exact Hci. rewrite Hp by (auto; lia).
      apply Rsum_ext. intros k _. rewrite HQold by lia. reflexivity.
Qed.

Lemma cgs_inv_fold (i : nat) :
  (i <= n)%nat ->
  let st := fold_left (cgs_column A m mn) (seq 0 i) (zeros m mn, zeros mn n) in
  cgs_inv A m mn n i (fst st) (snd st).
Proof using HA HAm Hmn.
  induction i as [|i IH]; intros Hi; cbv zeta.
  - apply cgs_inv_init.
  - rewrite fold_left_seq_S. simpl.
    specialize (IH ltac:(lia)). cbv zeta in IH.
    destruct (fold_left (cgs_column A m mn) (seq 0 i) (zeros m mn, zeros mn n))
      as [Qm Rm].
    apply cgs_inv_step; auto.
Qed.

End ClassicalInvariant.

(** ** Modified Gram-Schmidt: what one column step computes *)

Lemma mgs_update_spec (m : nat) (q : list R) (j : nat) (Rm : Matrix)
    (V : list (list R)) (len : nat) :
  wf Rm -> (j < rows_size Rm)%nat ->
  (S j + len <= cols_size Rm)%nat -> (S j + len <= length V)%nat ->
  (forall k, (k < length V)%nat -> length (nth k V []) = m) ->
  let st := fold_left (mgs_update m q j) (seq (S j) len) (Rm, V) in
  (wf (fst st) /\ rows_size (fst st) = rows_size Rm /\
   cols_size (fst st) = cols_size Rm) /\
  (forall a b, mat (fst st) a b =
     if (a =? j)%nat && (S j <=? b)%nat && (b <? S j + len)%nat
     then mgs_coeff m q V b else mat Rm a b) /\
  length (snd st) = length V /\
  (forall k, (k < length V)%nat -> length (nth k (snd st) []) = m) /\
  (forall k r, vat (snd st) k r =
     if (S j <=? k)%nat && (k <? S j + len)%nat && (r <? m)%nat
     then vat V k r - mgs_coeff m q V k * nth r q 0 else vat V k r).
Proof.
  intros HR Hj. induction len as [|len IH]; intros Hc Hl Hlen st.
  - subst st; cbn [seq fold_left fst snd]. split_all; auto.
    + intros a b. bool_cases.
    + intros k r. bool_cases.
  - specialize (IH ltac:(lia) ltac:(lia) Hlen). cbv zeta in IH.
    subst st. rewrite fold_left_seq_S.
    destruct (fold_left (mgs_update m q j) (seq (S j) len) (Rm, V)) as [R1 V1].
    unfold fst, snd in IH.
    destruct IH as ((HR1 & Hrows & Hcols) & Hmat & HlV & HlVk & Hvat).
    unfold mgs_update, fst, snd.
    assert (Hrow : nth (S j + len) V1 [] = nth (S j + len) V []).
    { apply nth_ext with (d := 0) (d' := 0).
      - rewrite HlVk, Hlen by lia. reflexivity.
      - intros r _. specialize (Hvat (S j + len)%nat r). unfold vat in Hvat.
        rewrite Hvat. bool_cases. }
    assert (Hdot : dot_loop m q (nth (S j + len) V1 []) =
                   mgs_coeff m q V (S j + len)).
    { rewrite Hrow, dot_loop_Rsum. reflexivity. }
    rewrite Hdot, Hrow.
    split_all; auto using wf_mset.
    + intros a b.
      destruct (Nat.eq_dec a j) as [->|Ha], (Nat.eq_dec b (S j + len)) as [->|Hb].
      * rewrite mat_mset_eq by (auto; lia). bool_cases.
      * rewrite mat_mset_neq, Hmat by auto. bool_cases.
      * rewrite mat_mset_neq, Hmat by auto. bool_cases.
      * rewrite mat_mset_neq, Hmat by auto. bool_cases.
    + rewrite length_list_set. exact HlV.
    + intros k Hk. destruct (Nat.eq_dec k (S j + len)) as [->|Hne].
      * rewrite nth_list_set_eq by lia.
        rewrite length_sub_scaled_loop. apply Hlen; lia.
      * rewrite nth_list_set_neq by auto. apply HlVk; exact Hk.
    + intros k r. unfold vat at 1.
      destruct (Nat.eq_dec k (S j + len)) as [->|Hne].
      * rewrite nth_list_set_eq by lia.
        rewrite nth_sub_scaled_loop by (rewrite Hlen; lia).
        fold (vat V (S j + len) r). bool_cases.
      * rewrite nth_list_set_neq by auto.
        fold (vat V1 k r). rewrite Hvat. bool_cases.
Qed.

(** The loop of the branch for a dropped column: [_R(j, k) = 0.0]. *)
Lemma mgs_clear_spec (j : nat) (Rm : Matrix) (len : nat) :
  wf Rm -> (j < rows_size Rm)%nat -> (S j + len <= cols_size Rm)%nat ->
  let R' := fold_left (fun Rm k => mset Rm j k 0) (seq (S j) len) Rm in
  (wf R' /\ rows_size R' = rows_size Rm /\ cols_size R' = cols_size Rm) /\
  (forall a b, mat R' a b =
     if (a =? j)%nat && (S j <=? b)%nat && (b <? S j + len)%nat
     then 0 else mat Rm a b).
Proof.
  intros HR Hj. induction len as [|len IH]; intros Hc R'.
  - subst R'; cbn [seq fold_left]. split_all; auto. intros a b. bool_cases.
  - specialize (IH ltac:(lia)). cbv zeta in IH.
    subst R'. rewrite fold_left_seq_S.
    destruct IH as ((HR1 & Hrows & Hcols) & Hmat).
    set (R1 := fold_left (fun Rm k => mset Rm j k 0) (seq (S j) len) Rm) in *.
    split_all; auto using wf_mset.
    intros a b.
    destruct (Nat.eq_dec a j) as [->|Ha], (Nat.eq_dec b (S j + len)) as [->|Hb].
    + rewrite mat_mset_eq by (auto; lia). bool_cases.
    + rewrite mat_mset_neq, Hmat by auto. bool_cases.
    + rewrite mat_mset_neq, Hmat by auto. bool_cases.
    + rewrite mat_mset_neq, Hmat by auto. bool_cases.
Qed.

Lemma mgs_column_spec (m n : nat) (Qm Rm : Matrix) (V : list (list R)) (j : nat) :
  wf Qm -> rows_size Qm = m -> (j < cols_size Qm)%nat ->
  wf Rm -> (j < rows_size Rm)%nat -> cols_size Rm = n -> (j < n)%nat ->
  length V = n -> (forall k, (k < length V)%nat -> length (nth k V []) = m) ->
  let st := mgs_column m n (Qm, Rm, V) j in
  let Q' := fst (fst st) in
  let R' := snd (fst st) in
  let V' := snd st in
  let nrm := sqrt (Rsum (fun r => vat V j r * vat V j r) m) in
  (wf Q' /\ rows_size Q' = rows_size Qm /\ cols_size Q' = cols_size Qm) /\
  (wf R' /\ rows_size R' = rows_size Rm /\ cols_size R' = cols_size Rm) /\
  length V' = length V /\
  (forall k, (k < length V)%nat -> length (nth k V' []) = m) /\
  (forall a b, a <> j -> mat R' a b = mat Rm a b) /\
  (forall b, (b < j)%nat -> mat R' j b = mat Rm j b) /\
  mat R' j j = nrm /\
  (forall k b, b <> j -> mat Q' k b = mat Qm k b) /\
  (forall k r, (k <= j)%nat -> vat V' k r = vat V k r) /\
  ((nrm > epsilon /\
    (forall r, (r < m)%nat -> mat Q' r j = vat V j r / nrm) /\
    (forall k, (j < k < n)%nat ->
       mat R' j k = Rsum (fun l => mat Q' l j * vat V k l) m /\
       forall r, (r < m)%nat ->
         vat V' k r = vat V k r - mat R' j k * mat Q' r j)) \/
   (~ nrm > epsilon /\
    (forall r, mat Q' r j = 0) /\
    (forall k, (j < k < n)%nat -> mat R' j k = 0) /\
    (forall k r, vat V' k r = vat V k r))).
Proof.
  intros HQ HQm HQj HR HRj HRn Hjn HV HVk st Q' R' V' nrm.
  subst Q' R' V' st. unfold mgs_column.
  assert (Hnrm : sqrt (dot_loop m (nth j V []) (nth j V [])) = nrm).
  { unfold nrm. f_equal. apply dot_loop_Rsum. }
  rewrite Hnrm.
  assert (HR1 : wf (mset Rm j j nrm)) by (apply wf_mset; exact HR).
  destruct (Rgt_dec nrm epsilon) as [Hgt|Hle].
  - set (q := normalize_loop m (nth j V []) nrm).
    pose proof (mgs_update_spec m q j (mset Rm j j nrm) V (n - S j) HR1
                  HRj ltac:(simpl; lia) ltac:(lia) HVk) as Hup.
    cbv zeta in Hup.
    destruct (fold_left (mgs_update m q j) (seq (S j) (n - S j))
                        (mset Rm j j nrm, V)) as [R2 V2].
    unfold fst, snd in *.
    destruct Hup as ((HR2 & Hrows & Hcols) & Hmat & HlV & HlVk & Hvat).
    assert (Hq : forall r, (r < m)%nat -> mat (setCol Qm q j) r j = nth r q 0).
    { intros r Hr. rewrite mat_setCol by exact HQ. rewrite HQm. bool_cases. }
    assert (Hco : forall k, mgs_coeff m q V k =
                            Rsum (fun l => mat (setCol Qm q j) l j * vat V k l) m).
    { intros k. apply Rsum_ext. intros l Hl. rewrite Hq by exact Hl. reflexivity. }
    split_all; auto using wf_setCol.
    + intros a b Ha. rewrite Hmat. rewrite mat_mset_neq by auto. bool_cases.
    + intros b Hb. rewrite Hmat. rewrite mat_mset_neq by lia. bool_cases.
    + rewrite Hmat. rewrite mat_mset_eq by (auto; lia). bool_cases.
    + intros k b Hb. rewrite mat_setCol by exact HQ. bool_cases.
    + intros k r Hk. rewrite Hvat. bool_cases.
    + left. split_all; auto.
      * intros r Hr. rewrite Hq by exact Hr. unfold q.
        rewrite nth_normalize_loop. unfold vat. bool_cases.
      * intros k [H1 H2]. split.
        -- rewrite Hmat, <- Hco. bool_cases.
        -- intros r Hr. rewrite Hvat, Hmat, Hq by exact Hr. bool_cases.
  - pose proof (mgs_clear_spec j (mset Rm j j nrm) (n - S j) HR1 HRj
                  ltac:(simpl; lia)) as Hcl.
    cbv zeta in Hcl.
    set (R2 := fold_left (fun Rm k => mset Rm j k 0) (seq (S j) (n - S j))
                         (mset Rm j j nrm)) in *.
    unfold fst, snd.
    destruct Hcl as ((HR2 & Hrows & Hcols) & Hmat).
    split_all; auto using wf_setCol.
    + intros a b Ha. rewrite Hmat. rewrite mat_mset_neq by auto. bool_cases.
    + intros b Hb. rewrite Hmat. rewrite mat_mset_neq by lia. bool_cases.
    + rewrite Hmat. rewrite mat_mset_eq by (auto; lia). bool_cases.
    + intros k b Hb. rewrite mat_setCol by exact HQ. bool_cases.
    + right. split_all; auto.
      * intros r. rewrite mat_setCol by exact HQ.
        destruct (Nat.ltb_spec r (rows_size Qm)) as [Hr|Hr].
        -- rewrite Nat.eqb_refl. simpl.
           destruct (Nat.ltb_spec j (cols_size Qm)); [apply nth_repeat | lia].
        -- rewrite andb_false_r. simpl. apply mat_overflow; auto.
      * intros k Hk. rewrite Hmat. bool_cases.
Qed.

(** ** Modified Gram-Schmidt: the loop invariant *)

Lemma mgs_inv_init (A : Matrix) (m mn n : nat) :
  wf A -> rows_size A = m ->
  mgs_inv A m mn n 0 (zeros m mn) (zeros mn n)
          (map (fun i => getCol A i) (seq 0 n)).
Proof.
  intros HA HAm.
  assert (Hnth : forall k, (k < n)%nat ->
            nth k (map (fun i => getCol A i) (seq 0 n)) [] = getCol A k)
    by (intros; apply nth_map_seq; auto).
  constructor; try (intros; lia).
  - split_all; auto using wf_zeros.
  - split_all; auto using wf_zeros.
  - rewrite length_map, length_seq. split; [reflexivity|].
    intros k Hk. rewrite Hnth by exact Hk. rewrite length_getCol; auto.
  - intros. apply mat_zeros.
  - intros. apply mat_zeros.
  - intros k r Hk Hr. unfold vat. rewrite Hnth by exact Hk.
    rewrite nth_getCol. simpl. lra.
Qed.

(** The step and the whole loop, under the same assumptions as for the
    classical method. *)
Section ModifiedInvariant.

Variables (A : Matrix) (m mn n : nat).
Hypothesis HA : wf A.
Hypothesis HAm : rows_size A = m.
Hypothesis Hmn : (mn <= n)%nat.

Lemma mgs_inv_step (j : nat) (Qm Rm : Matrix) (V : list (list R)) :
  (j < mn)%nat ->
  mgs_inv A m mn n j Qm Rm V ->
  let st := mgs_column m n (Qm, Rm, V) j in
  mgs_inv A m mn n (S j) (fst (fst st)) (snd (fst st)) (snd st).
Proof using HA HAm Hmn.
  intros Hj Hinv.
  destruct Hinv as [HwQ HwR HlV HzR HzQ HVd Hperp Hdiag Hcol].
  destruct HwQ as (HQ & HQm & HQn). destruct HwR as (HR & HRm & HRn).
  destruct HlV as (HV & HVk).
  pose proof (mgs_column_spec m n Qm Rm V j HQ HQm ltac:(lia) HR ltac:(lia)
                HRn ltac:(lia) HV HVk) as Hspec.
  cbv zeta in Hspec |- *.
  destruct (mgs_column m n (Qm, Rm, V) j) as [[Q' R'] V'].
  unfold fst, snd in *.
  set (nrm := sqrt (Rsum (fun r => vat V j r * vat V j r) m)) in *.
  destruct Hspec as (HQ' & HR' & HV' & HVk' & HRold & HRleft & HRjj & HQold
                     & HVold & Hbranch).
  assert (Hsq : nrm * nrm = Rsum (fun r => vat V j r * vat V j r) m).
  { apply sqrt_sqrt. apply Rsum_nonneg. intros; nra. }
  constructor.
  - rewrite <- HQm, <- HQn. exact HQ'.
  - rewrite <- HRm, <- HRn. exact HR'.
  - rewrite HV'. split; [exact HV | exact HVk'].
  - intros a b [Ha|Ha].
    + rewrite HRold by lia. apply HzR. lia.
    + destruct (Nat.eq_dec a j) as [->|Haj].
      * rewrite HRleft by lia. apply HzR. lia.
      * rewrite HRold by exact Haj. apply HzR. lia.
  - intros k b Hb. rewrite HQold by lia. apply HzQ. lia.
  - (* the vectors still to be orthogonalized *)
    intros k r Hk Hr.
    destruct (Nat.le_gt_cases k j) as [Hkj|Hkj].
    + rewrite HVold by exact Hkj. rewrite HVd by auto.
      replace (Nat.min (S j) k) with (Nat.min j k) by lia.
      f_equal. apply Rsum_ext. intros l Hl.
      rewrite HQold, HRold by lia. reflexivity.
    + replace (Nat.min (S j) k) with (S j) by lia. simpl.
      rewrite (Rsum_ext _ (fun l => mat Qm r l * mat Rm l k))
        by (intros l Hl; rewrite HQold, HRold by lia; reflexivity).
      specialize (HVd k r Hk Hr). replace (Nat.min j k) with j in HVd by lia.
      destruct Hbranch as [(_ & _ & Hupd)|(_ & Hz & HRz & Hsame)].
      * destruct (Hupd k ltac:(lia)) as [_ Hv]. rewrite Hv by exact Hr. lra.
      * rewrite Hsame, Hz, HRz by lia. lra.
  - (* orthogonality to the finished columns *)
    intros a k Ha Hak Hk.
    destruct (Nat.eq_dec a j) as [->|Haj].
    + destruct Hbranch as [(Hgt & Hq & Hupd)|(_ & Hz & _)].
      2:{ apply Rsum_zero. intros r _. rewrite Hz. lra. }
      destruct (Hupd k ltac:(lia)) as [HRjk Hv].
      rewrite (Rsum_ext _ (fun r => mat Q' r j * vat V k r -
                                    mat R' j k * (mat Q' r j * mat Q' r j)))
        by (intros r Hr; rewrite Hv by exact Hr; lra).
      rewrite Rsum_minus, Rsum_scal_l, <- HRjk.
      rewrite (Rsum_ext (fun r => mat Q' r j * mat Q' r j)
                 (fun r => (vat V j r * vat V j r) * (/ nrm * / nrm)))
        by (intros r Hr; rewrite Hq by exact Hr; unfold Rdiv; lra).
      rewrite Rsum_scal_r, <- Hsq. pose proof epsilon_pos. field. lra.
    + rewrite (Rsum_ext _ (fun r => mat Qm r a * vat V' k r))
        by (intros r Hr; rewrite HQold by exact Haj; reflexivity).
      destruct (Nat.le_gt_cases k j) as [Hkj|Hkj].
      * rewrite (Rsum_ext _ (fun r => mat Qm r a * vat V k r))
          by (intros r Hr; rewrite HVold by exact Hkj; reflexivity).
        apply Hperp; auto; lia.
      * destruct Hbranch as [(Hgt & Hq & Hupd)|(_ & _ & _ & Hsame)].
        2:{ rewrite (Rsum_ext _ (fun r => mat Qm r a * vat V k r))
              by (intros r Hr; rewrite Hsame; reflexivity).
            apply Hperp; auto; lia. }
        destruct (Hupd k ltac:(lia)) as [_ Hv].
        rewrite (Rsum_ext _ (fun r => mat Qm r a * vat V k r -
                   (mat R' j k * / nrm) * (mat Qm r a * vat V j r))).
        2:{ intros r Hr. rewrite Hv, Hq by exact Hr. unfold Rdiv. lra. }
        rewrite Rsum_minus, Rsum_scal_l.
        rewrite !Hperp by (auto; lia). lra.
  - (* the diagonal of [_R] *)
    intros c Hc. destruct (Nat.eq_dec c j) as [->|Hcj].
    + rewrite HRjj. unfold nrm. f_equal. apply Rsum_ext. intros r _.
      rewrite HVold by lia. reflexivity.
    + rewrite HRold by exact Hcj. rewrite Hdiag by lia. f_equal.
      apply Rsum_ext. intros r _. rewrite HVold by lia. reflexivity.
  - (* the columns of [_Q] *)
    intros c Hc. destruct (Nat.eq_dec c j) as [->|Hcj].
    + rewrite HRjj.
      destruct Hbranch as [(Hgt & Hq & _)|(Hle & Hz & _)].
      * left. split; [exact Hgt|]. intros r Hr.
        rewrite HVold by lia. apply Hq; exact Hr.
      * right. split; [exact Hle | exact Hz].
    + rewrite HRold by exact Hcj.
      destruct (Hcol c ltac:(lia)) as [(Hgt & Hq)|(Hle & Hz)].
      * left. split; [exact Hgt|]. intros r Hr.
        rewrite HQold, HVold by lia. apply Hq; exact Hr.
      * right. split; [exact Hle|]. intros r.
        rewrite HQold by exact Hcj. apply Hz.
Qed.

Lemma mgs_inv_fold (j : nat) :
  (j <= mn)%nat ->
  let st := fold_left (mgs_column m n) (seq 0 j)
              (zeros m mn, zeros mn n, map (fun i => getCol A i) (seq 0 n)) in
  mgs_inv A m mn n j (fst (fst st)) (snd (fst st)) (snd st).
Proof using HA HAm Hmn.
  induction j as [|j IH]; intros Hj; cbv zeta.
  - apply mgs_inv_init; auto.
  - rewrite fold_left_seq_S. simpl.
    specialize (IH ltac:(lia)). cbv zeta in IH.
    destruct (fold_left (mgs_column m n) (seq 0 j) _) as [[Qm Rm] V].
    apply mgs_inv_step; auto.
Qed.

End ModifiedInvariant.

(** ** What both Gram-Schmidt methods establish *)

Lemma cgs_inv_facts (A : Matrix) (m mn n : nat) (Qm Rm : Matrix) :
  (mn <= n)%nat -> cgs_inv A m mn n n Qm Rm -> gs_facts A m mn n Qm Rm.
Proof.
  intros Hmn Hinv.
  pose proof (cgs_inv_unit_or_zero _ _ _ _ _ _ _ Hinv) as Huz.
  destruct Hinv as [HwQ HwR HzR HzQ Ho Hu Hr Hd Hp].
  assert (Hres : forall c k, (c < mn)%nat ->
            resid A Qm Rm k c = residual m Qm (getCol A c) c k).
  { intros c k Hc. unfold resid, residual. rewrite nth_getCol. f_equal.
    apply Rsum_ext. intros l Hl. rewrite Hp by lia. unfold proj_coeff.
    rewrite (Rsum_ext (fun k0 => nth k0 (getCol A c) 0 * mat Qm k0 l)
               (fun k0 => mat A k0 c * mat Qm k0 l))
      by (intros; rewrite nth_getCol; reflexivity).
    lra. }
  constructor.
  - exact HwQ.
  - exact HwR.
  - intros a b Hab. apply HzR. lia.
  - exact Ho.
  - intros c Hc. apply Hu; auto; lia.
  - intros c Hc. apply Hr; auto; lia.
  - intros c Hc Hle. apply (Hd c); auto; lia.
  - intros a c Hac Hc.
    rewrite (Rsum_ext _ (fun k => mat Qm k a * residual m Qm (getCol A c) c k))
      by (intros; rewrite Hres by exact Hc; reflexivity).
    apply residual_orthogonal; auto.
  - intros c Hc.
    destruct (Rgt_dec (mat Rm c c) epsilon) as [Hgt|Hle].
    + pose proof epsilon_pos. split; [lra|].
      rewrite (Rsum_ext _ (fun k => (mat Rm c c * mat Rm c c) *
                                    (mat Qm k c * mat Qm k c))).
      2:{ intros k Hk. unfold resid.
          rewrite (Hr c ltac:(lia) Hc Hgt k Hk). simpl. lra. }
      rewrite Rsum_scal_l. fold (coldot m Qm c c).
      rewrite Hu by (auto; lia). lra.
    + destruct (Hd c ltac:(lia) Hc Hle) as [H0 _]. rewrite H0.
      split; [lra|]. rewrite Rmult_0_l. apply Rsum_nonneg. intros; nra.
Qed.

Lemma mgs_inv_facts (A : Matrix) (m mn n : nat) (Qm Rm : Matrix)
    (V : list (list R)) :
  (mn <= n)%nat -> mgs_inv A m mn n mn Qm Rm V -> gs_facts A m mn n Qm Rm.
Proof.
  intros Hmn Hinv.
  destruct Hinv as [HwQ HwR HlV HzR HzQ HVd Hperp Hdiag Hcol].
  assert (Hres : forall c k, (c < mn)%nat -> (k < m)%nat ->
            resid A Qm Rm k c = vat V c k).
  { intros c k Hc Hk. rewrite HVd by (auto; lia).
    replace (Nat.min mn c) with c by lia. reflexivity. }
  assert (Hsq : forall c, (c < mn)%nat ->
            mat Rm c c * mat Rm c c = Rsum (fun r => vat V c r * vat V c r) m).
  { intros c Hc. rewrite Hdiag by exact Hc. apply sqrt_sqrt.
    apply Rsum_nonneg. intros; nra. }
  assert (Hlt : forall a b, (a < b)%nat -> coldot m Qm a b = 0).
  { intros a b Hab.
    destruct (Nat.le_gt_cases mn b) as [Hb|Hb];
      [apply coldot_zero_r; intros; apply HzQ; exact Hb|].
    destruct (Hcol b Hb) as [(Hgt & Hq)|(_ & Hz)];
      [|apply coldot_zero_r; exact Hz].
    unfold coldot.
    rewrite (Rsum_ext _ (fun r => (mat Qm r a * vat V b r) * / mat Rm b b))
      by (intros r Hr; rewrite (Hq r Hr); unfold Rdiv; lra).
    rewrite Rsum_scal_r, Hperp by lia. lra. }
  constructor.
  - exact HwQ.
  - exact HwR.
  - intros a b Hab. apply HzR. lia.
  - intros a b Hab. destruct (Nat.lt_total a b) as [H|[H|H]]; try lia.
    + apply Hlt; exact H.
    + rewrite coldot_sym. apply Hlt; exact H.
  - intros c Hc Hgt.
    destruct (Hcol c Hc) as [(_ & Hq)|(Hle & _)]; [|contradiction].
    unfold coldot.
    rewrite (Rsum_ext _ (fun r => (vat V c r * vat V c r) *
                                  (/ mat Rm c c * / mat Rm c c)))
      by (intros r Hr; rewrite (Hq r Hr); unfold Rdiv; lra).
    rewrite Rsum_scal_r, <- Hsq by exact Hc.
    pose proof epsilon_pos. field. lra.
  - intros c Hc Hgt k Hk.
    destruct (Hcol c Hc) as [(_ & Hq)|(Hle & _)]; [|contradiction].
    simpl. rewrite (Hq k Hk), <- Hres by auto. unfold resid.
    pose proof epsilon_pos. field. lra.
  - intros c Hc Hle.
    destruct (Hcol c Hc) as [(Hgt & _)|(_ & Hz)]; [contradiction | exact Hz].
  - intros a c Hac Hc.
    rewrite (Rsum_ext _ (fun k => mat Qm k a * vat V c k))
      by (intros k Hk; rewrite Hres by auto; reflexivity).
    apply Hperp; lia.
  - intros c Hc. split.
    + rewrite Hdiag by exact Hc. apply sqrt_pos.
    + rewrite Hsq by exact Hc. apply Req_le. apply Rsum_ext.
      intros k Hk. rewrite Hres by auto. reflexivity.
Qed.

Lemma qrCGS_A (s : QR) : QR_A (qrCGS s) = QR_A s.
Proof.
  unfold qrCGS. destruct (fold_left _ _ _) as [Qm Rm]. reflexivity.
Qed.

Lemma qrMGS_A (s : QR) : QR_A (qrMGS s) = QR_A s.
Proof.
  unfold qrMGS. destruct (fold_left _ _ _) as [[Qm Rm] V]. reflexivity.
Qed.

Lemma qrCGS_facts (s : QR) :
  wf (_A s) ->
  gs_facts (_A s) (rows_size (_A s))
           (Nat.min (rows_size (_A s)) (cols_size (_A s))) (cols_size (_A s))
           (QR_Q (qrCGS s)) (QR_R (qrCGS s)).
Proof.
  intros HA. apply cgs_inv_facts; [lia|].
  pose proof (cgs_inv_fold (_A s) (rows_size (_A s))
                (Nat.min (rows_size (_A s)) (cols_size (_A s)))
                (cols_size (_A s)) HA eq_refl ltac:(lia)
                (cols_size (_A s)) ltac:(lia)) as H.
  cbv zeta in H. unfold qrCGS.
  destruct (fold_left _ _ _) as [Qm Rm]. exact H.
Qed.

Lemma qrMGS_facts (s : QR) :
  wf (_A s) ->
  gs_facts (_A s) (rows_size (_A s))
           (Nat.min (rows_size (_A s)) (cols_size (_A s))) (cols_size (_A s))
           (QR_Q (qrMGS s)) (QR_R (qrMGS s)).
Proof.
  intros HA.
  pose proof (mgs_inv_fold (_A s) (rows_size (_A s))
                (Nat.min (rows_size (_A s)) (cols_size (_A s)))
                (cols_size (_A s)) HA eq_refl ltac:(lia)
                (Nat.min (rows_size (_A s)) (cols_size (_A s)))
                ltac:(lia)) as H.
  cbv zeta in H. unfold qrMGS.
  destruct (fold_left _ _ _) as [[Qm Rm] V].
  apply (mgs_inv_facts _ _ _ _ _ _ V); [lia | exact H].
Qed.

Lemma gs_full_rank (A : Matrix) (m n : nat) (Qm Rm : Matrix) :
  wf A -> rows_size A = m -> cols_size A = n ->
  gs_facts A m n n Qm Rm ->
  (forall i, (i < n)%nat -> mat Rm i i > epsilon) ->
  mmul (transpose Qm) Qm = identity n /\
  mmul Qm Rm = A /\
  (forall a b, (b < a)%nat -> mat Rm a b = 0).
Proof.
  intros HA HAm HAn [HwQ HwR Hup Ho Hu Hr Hd Hp Hdg] Hfull.
  destruct HwQ as (HQ & HQm & HQn). destruct HwR as (HR & HRm & HRn).
  split_all.
  - unfold mmul, identity. simpl. rewrite HQn, HQm.
    apply tabulate_ext. intros i j Hi Hj.
    rewrite (Rsum_ext _ (fun k => mat Qm k i * mat Qm k j))
      by (intros k Hk; rewrite mat_transpose by lia; reflexivity).
    fold (coldot m Qm i j).
    destruct (Nat.eqb_spec i j) as [->|Hij]; [apply Hu | apply Ho]; auto.
  - rewrite (matrix_tabulate A HA). unfold mmul. rewrite HQm, HRn, HQn, HAm, HAn.
    apply tabulate_ext. intros k c Hk Hc.
    rewrite (Hr c Hc (Hfull c Hc) k Hk).
    apply Rsum_trunc; [lia|]. intros l Hl. rewrite Hup by lia. lra.
  - exact Hup.
Qed.


(** ** Runs on concrete matrices *)

Lemma qrCGS_matrix1_kept (x : R) :
  x > epsilon -> qrCGS (QR_init (matrix1 x)) = mkQR (matrix1 x) (matrix1 1) (matrix1 x).
Proof.
  intros Hx. pose proof epsilon_pos. unfold qrCGS, QR_init, matrix1. gs_unfold.
  norm_is x. { apply sqrt_sq1; lra. }
  unfold setCol, mset; gs_unfold.
  replace (x / x) with 1 by (field; lra). reflexivity.
Qed.





(** On the identity of size 3 the classical method returns the identity for
    both factors, so that [solve] hands [b] back. *)
Lemma qrCGS_identity3 :
  qrCGS (QR_init (identity 3)) = mkQR (identity 3) (identity 3) (identity 3).
Proof.
  assert (Hone : forall e, e = 1 -> sqrt e = 1) by (intros e ->; apply sqrt_1).
  unfold qrCGS, QR_init. gs_unfold.
  norm_is 1. { apply Hone. lra. }
  unfold setCol, mset; gs_unfold.
  norm_is 1. { apply Hone. field. }
  unfold setCol, mset; gs_unfold.
  norm_is 1. { apply Hone. field. }
  unfold setCol, mset, identity; gs_unfold.
  repeat (f_equal; try (field; lra)).
Qed.

Lemma qrCGS_three_four :
  qrCGS (QR_init three_four) =
  mkQR three_four (mkMatrix 2 2 [[3 / 5; - 4 / 5]; [4 / 5; 3 / 5]])
                  (mkMatrix 2 2 [[5; 11 / 5]; [0; 2 / 5]]).
Proof.
  assert (Hsq : forall e x, 0 <= x -> e = x * x -> sqrt e = x)
    by (intros e x Hx ->; apply sqrt_square, Hx).
  unfold qrCGS, QR_init, three_four. gs_unfold.
  norm_is 5. { apply Hsq; lra. }
  unfold setCol, mset; gs_unfold.
  norm_is (2 / 5). { apply Hsq; [lra | field]. }
  unfold setCol, mset; gs_unfold.
  repeat (f_equal; try (field; lra)).
Qed.

Lemma qrMGS_three_four :
  qrMGS (QR_init three_four) =
  mkQR three_four (mkMatrix 2 2 [[3 / 5; - 4 / 5]; [4 / 5; 3 / 5]])
                  (mkMatrix 2 2 [[5; 11 / 5]; [0; 2 / 5]]).
Proof.
  assert (Hsq : forall e x, 0 <= x -> e = x * x -> sqrt e = x)
    by (intros e x Hx ->; apply sqrt_square, Hx).
  unfold qrMGS, QR_init, three_four. gs_unfold.
  norm_is 5. { apply Hsq; lra. }
  unfold setCol, mset; gs_unfold.
  norm_is (2 / 5). { apply Hsq; [lra | field]. }
  unfold setCol, mset; gs_unfold.
  repeat (f_equal; try (field; lra)).
Qed.

Lemma wf_three_four : wf three_four.
Proof. split; simpl; auto. Qed.



(** ** Double precision: the grids *)

Section DoubleGrids.

Import Double.
Local Open Scope float_scope.

Lemma double_wf_row (M : Matrix) (i : nat) :
  wf M -> (i < rows_size M)%nat -> length (nth i (cells M) []) = cols_size M.
Proof.
  intros [Hr Hc] Hi. rewrite Forall_forall in Hc. apply Hc, nth_In. lia.
Qed.

Lemma double_mat_overflow (M : Matrix) (i j : nat) :
  wf M -> (rows_size M <= i)%nat \/ (cols_size M <= j)%nat -> mat M i j = 0.
Proof.
  intros HM H. unfold mat.
  destruct (Nat.lt_ge_cases i (rows_size M)) as [Hi|Hi].
  - apply nth_overflow. rewrite double_wf_row by auto. lia.
  - rewrite (nth_overflow (cells M)) by (destruct HM; lia). destruct j; reflexivity.
Qed.

Lemma double_wf_zeros (m n : nat) : wf (zeros m n).
Proof.
  split; simpl; [apply repeat_length|].
  apply Forall_forall. intros row Hrow.
  apply repeat_spec in Hrow. subst. apply repeat_length.
Qed.

Lemma double_mat_zeros (m n i j : nat) : mat (zeros m n) i j = 0.
Proof.
  unfold mat, zeros; simpl.
  destruct (Nat.lt_ge_cases i m) as [Hi|Hi].
  - rewrite nth_repeat_lt by exact Hi. apply nth_repeat.
  - rewrite (nth_overflow (repeat (repeat 0 n) m))
      by (rewrite repeat_length; lia).
    destruct j; reflexivity.
Qed.

Lemma double_wf_mset (M : Matrix) (i j : nat) (x : float) :
  wf M -> wf (mset M i j x).
Proof.
  intros HM. pose proof HM as [Hr Hc]. split; simpl.
  - rewrite length_list_set. exact Hr.
  - destruct (Nat.lt_ge_cases i (rows_size M)) as [Hi|Hi].
    + apply Forall_list_set; [exact Hc|].
      rewrite length_list_set. apply double_wf_row; auto.
    + rewrite list_set_overflow by lia. exact Hc.
Qed.

Lemma double_mat_mset_eq (M : Matrix) (i j : nat) (x : float) :
  wf M -> (i < rows_size M)%nat -> (j < cols_size M)%nat ->
  mat (mset M i j x) i j = x.
Proof.
  intros HM Hi Hj. unfold mat, mset; simpl.
  rewrite nth_list_set_eq by (destruct HM; lia).
  apply nth_list_set_eq. rewrite double_wf_row; auto.
Qed.

Lemma double_mat_mset_neq (M : Matrix) (i j a b : nat) (x : float) :
  a <> i \/ b <> j -> mat (mset M i j x) a b = mat M a b.
Proof.
  intros H. unfold mat, mset; simpl.
  destruct (Nat.eq_dec a i) as [->|Ha].
  - destruct (Nat.lt_ge_cases i (length (cells M))) as [Hi|Hi].
    + rewrite nth_list_set_eq by exact Hi.
      apply nth_list_set_neq. lia.
    + rewrite list_set_overflow by exact Hi. reflexivity.
  - rewrite nth_list_set_neq by auto. reflexivity.
Qed.

Lemma double_wf_setCol (M : Matrix) (v : list float) (j : nat) :
  wf M -> wf (setCol M v j).
Proof.
  intros HM. split; simpl.
  - rewrite length_map, length_seq. reflexivity.
  - apply Forall_forall. intros row Hrow.
    apply in_map_iff in Hrow. destruct Hrow as [k [<- Hk]].
    apply in_seq in Hk. rewrite length_list_set. apply double_wf_row; auto. lia.
Qed.

Lemma double_mat_setCol (M : Matrix) (v : list float) (j a b : nat) :
  wf M ->
  mat (setCol M v j) a b =
  if (b =? j)%nat && (a <? rows_size M)%nat && (j <? cols_size M)%nat
  then nth a v 0 else mat M a b.
Proof.
  intros HM. unfold mat at 1. unfold setCol; simpl.
  destruct (Nat.ltb_spec a (rows_size M)) as [Ha|Ha].
  - rewrite nth_map_seq by exact Ha.
    destruct (Nat.eqb_spec b j) as [->|Hb]; simpl.
    + destruct (Nat.ltb_spec j (cols_size M)) as [Hj|Hj].
      * apply nth_list_set_eq. rewrite double_wf_row; auto.
      * rewrite list_set_overflow by (rewrite double_wf_row; auto). reflexivity.
    + rewrite nth_list_set_neq by auto. reflexivity.
  - rewrite andb_false_r; simpl.
    rewrite (nth_overflow (map _ _)) by (rewrite length_map, length_seq; lia).
    rewrite double_mat_overflow by auto. destruct b; reflexivity.
Qed.

Lemma double_nth_getCol (M : Matrix) (j k : nat) :
  nth k (getCol M j) 0 = mat M k j.
Proof.
  unfold getCol, mat.
  destruct (Nat.lt_ge_cases k (length (cells M))) as [Hk|Hk].
  - rewrite (nth_indep _ 0 (nth j [] 0)) by (rewrite length_map; lia).
    exact (map_nth (fun row : list float => nth j row 0) (cells M) [] k).
  - rewrite (nth_overflow (map _ _)) by (rewrite length_map; lia).
    rewrite (nth_overflow (cells M)) by lia. destruct j; reflexivity.
Qed.

Lemma double_getCol_zero (M : Matrix) (m c : nat) :
  wf M -> rows_size M = m -> (forall k, mat M k c = 0) ->
  getCol M c = repeat 0 m.
Proof.
  intros [Hr _] Hm Hz. apply nth_ext with (d := 0) (d' := 0).
  - unfold getCol. rewrite length_map, repeat_length. lia.
  - intros k _. rewrite double_nth_getCol, Hz. symmetry. apply nth_repeat.
Qed.

(** ** Double precision: the shape of the factors *)

(** The loop over [j] in [qrCGS] writes [_R] in column [i], above row
    [min(min_mn, i)], and nowhere else. *)
Lemma double_cgs_project_spec (m : nat) (Qm : Matrix) (v : list float)
    (i j0 : nat) (u0 : list float) (R0 : Matrix) :
  wf R0 ->
  forall u Rm,
  fold_left (cgs_project m Qm v i) (seq 0 j0) (u0, R0) = (u, Rm) ->
  wf Rm /\
  rows_size Rm = rows_size R0 /\ cols_size Rm = cols_size R0 /\
  forall a b, b <> i \/ (j0 <= a)%nat -> mat Rm a b = mat R0 a b.
Proof.
  intros HR0. induction j0 as [|j0 IH]; intros u Rm Hfold.
  - inversion Hfold; subst. auto.
  - rewrite fold_left_seq_S in Hfold. simpl Nat.add in Hfold.
    destruct (fold_left (cgs_project m Qm v i) (seq 0 j0) (u0, R0)) as [u1 R1].
    destruct (IH u1 R1 eq_refl) as (Hw & Hr & Hc & Hm).
    unfold cgs_project in Hfold. inversion Hfold; subst. split_all.
    + apply double_wf_mset, Hw.
    + exact Hr.
    + exact Hc.
    + intros a b Hab. rewrite double_mat_mset_neq by lia. apply Hm. lia.
Qed.

Lemma double_cgs_inv_init (m mn n : nat) :
  cgs_inv m mn n 0 (zeros m mn) (zeros mn n).
Proof.
  constructor.
  - split; [apply double_wf_zeros | split; reflexivity].
  - split; [apply double_wf_zeros | split; reflexivity].
  - intros. apply double_mat_zeros.
  - intros. apply double_mat_zeros.
  - intros c Hc. lia.
Qed.

Lemma double_cgs_inv_step (A : Matrix) (m mn n i : nat) (Qm Rm : Matrix) :
  (mn <= n)%nat -> (i < n)%nat ->
  cgs_inv m mn n i Qm Rm ->
  cgs_inv m mn n (S i) (fst (cgs_column A m mn (Qm, Rm) i))
                       (snd (cgs_column A m mn (Qm, Rm) i)).
Proof.
  intros Hmn Hi [(HQ & HQm & HQn) (HR & HRm & HRn) HzR HzQ Hcols].
  unfold cgs_column.
  pose proof (double_cgs_project_spec m Qm (getCol A i) i (Nat.min mn i)
                (getCol A i) Rm HR) as Hp.
  destruct (fold_left (cgs_project m Qm (getCol A i) i) (seq 0 (Nat.min mn i))
                      (getCol A i, Rm)) as [u R1].
  destruct (Hp u R1 eq_refl) as (HR1 & HR1m & HR1n & Hsame). clear Hp.
  assert (Hold : forall c, (c < i)%nat -> (c < mn)%nat ->
            kept R1 c = true \/ (mat R1 c c = 0 /\ forall k, mat Qm k c = 0)).
  { intros c Hc Hcm. unfold kept. rewrite Hsame by lia. apply Hcols; auto. }
  assert (HzR1 : forall a b, (S i <= b)%nat \/ (b < a)%nat -> mat R1 a b = 0).
  { intros a b Hab. rewrite Hsame by lia. apply HzR. lia. }
  destruct (Nat.ltb_spec i mn) as [Him|Him].
  - destruct (epsilon <? PrimFloat.sqrt (dot_loop m u u)) eqn:Hgt; simpl.
    + constructor.
      * split; [apply double_wf_setCol, HQ | split; assumption].
      * split; [apply double_wf_mset, HR1 | split; simpl; congruence].
      * intros a b Hab. rewrite double_mat_mset_neq by lia. apply HzR1, Hab.
      * intros k b Hb. rewrite double_mat_setCol by exact HQ.
        destruct (Nat.eqb_spec b i); [lia|]. simpl. apply HzQ. lia.
      * intros c Hc Hcm. destruct (Nat.eq_dec c i) as [->|Hne].
        -- left. unfold kept.
           rewrite double_mat_mset_eq by (auto; lia). exact Hgt.
        -- destruct (Hold c ltac:(lia) Hcm) as [Hk|[Hz Hq]].
           ++ left. unfold kept in *. rewrite double_mat_mset_neq by lia.
              exact Hk.
           ++ right. split.
              ** rewrite double_mat_mset_neq by lia. exact Hz.
              ** intros k. rewrite double_mat_setCol by exact HQ.
                 destruct (Nat.eqb_spec c i); [lia|]. simpl. apply Hq.
    + constructor.
      * split; [exact HQ | split; assumption].
      * split; [apply double_wf_mset, HR1 | split; simpl; congruence].
      * intros a b Hab. rewrite double_mat_mset_neq by lia. apply HzR1, Hab.
      * intros k b Hb. apply HzQ. lia.
      * intros c Hc Hcm. destruct (Nat.eq_dec c i) as [->|Hne].
        -- right. split.
           ++ apply double_mat_mset_eq; auto; lia.
           ++ intros k. apply HzQ. lia.
        -- destruct (Hold c ltac:(lia) Hcm) as [Hk|[Hz Hq]].
           ++ left. unfold kept in *. rewrite double_mat_mset_neq by lia.
              exact Hk.
           ++ right. split; [|exact Hq].
              rewrite double_mat_mset_neq by lia. exact Hz.
  - simpl. constructor.
    + split; [exact HQ | split; assumption].
    + split; [exact HR1 | split; congruence].
    + exact HzR1.
    + intros k b Hb. apply HzQ. lia.
    + intros c Hc Hcm. apply Hold; lia.
Qed.

Lemma double_cgs_inv_fold (A : Matrix) (m mn n i : nat) :
  (mn <= n)%nat -> (i <= n)%nat ->
  cgs_inv m mn n i
    (fst (fold_left (cgs_column A m mn) (seq 0 i) (zeros m mn, zeros mn n)))
    (snd (fold_left (cgs_column A m mn) (seq 0 i) (zeros m mn, zeros mn n))).
Proof.
  intros Hmn. induction i as [|i IH]; intros Hi.
  - apply double_cgs_inv_init.
  - rewrite fold_left_seq_S. simpl Nat.add.
    specialize (IH ltac:(lia)).
    destruct (fold_left (cgs_column A m mn) (seq 0 i) (zeros m mn, zeros mn n))
      as [Qm Rm].
    apply double_cgs_inv_step; auto.
Qed.

(** The loop over [k] in the branch [normVec > epsilon] of [qrMGS] writes
    [_R] in row [j], from column [k0] on, and nowhere else. *)
Lemma double_mgs_update_spec (m : nat) (q : list float) (j k0 len : nat)
    (R0 : Matrix) (V0 : list (list float)) :
  wf R0 ->
  forall Rm V,
  fold_left (mgs_update m q j) (seq k0 len) (R0, V0) = (Rm, V) ->
  wf Rm /\
  rows_size Rm = rows_size R0 /\ cols_size Rm = cols_size R0 /\
  forall a b, a <> j \/ (b < k0)%nat -> mat Rm a b = mat R0 a b.
Proof.
  intros HR0. induction len as [|len IH]; intros Rm V Hfold.
  - inversion Hfold; subst. auto.
  - rewrite fold_left_seq_S in Hfold.
    destruct (fold_left (mgs_update m q j) (seq k0 len) (R0, V0)) as [R1 V1].
    destruct (IH R1 V1 eq_refl) as (Hw & Hr & Hc & Hm).
    unfold mgs_update in Hfold. inversion Hfold; subst. split_all.
    + apply double_wf_mset, Hw.
    + exact Hr.
    + exact Hc.
    + intros a b Hab. rewrite double_mat_mset_neq by lia. apply Hm. lia.
Qed.

(** The loop over [k] in the other branch writes [0.0] in row [j] from
    column [k0] on. *)
Lemma double_mgs_clear_spec (j k0 len : nat) (R0 : Matrix) :
  wf R0 -> (j < rows_size R0)%nat ->
  wf (fold_left (fun Rm k => mset Rm j k 0) (seq k0 len) R0) /\
  rows_size (fold_left (fun Rm k => mset Rm j k 0) (seq k0 len) R0)
  = rows_size R0 /\
  cols_size (fold_left (fun Rm k => mset Rm j k 0) (seq k0 len) R0)
  = cols_size R0 /\
  (forall a b, a <> j \/ (b < k0)%nat ->
     mat (fold_left (fun Rm k => mset Rm j k 0) (seq k0 len) R0) a b
     = mat R0 a b) /\
  (forall b, (k0 <= b < k0 + len)%nat ->
     mat (fold_left (fun Rm k => mset Rm j k 0) (seq k0 len) R0) j b = 0).
Proof.
  intros HR0 Hj. induction len as [|len IH].
  - simpl. split_all; auto. intros b Hb. lia.
  - rewrite fold_left_seq_S.
    destruct IH as (Hw & Hr & Hc & Hm & Hz). split_all.
    + apply double_wf_mset, Hw.
    + exact Hr.
    + exact Hc.
    + intros a b Hab. rewrite double_mat_mset_neq by lia. apply Hm. lia.
    + intros b Hb. destruct (Nat.eq_dec b (k0 + len)) as [->|Hne].
      * destruct (Nat.lt_ge_cases (k0 + len) (cols_size R0)) as [Hlt|Hge].
        -- apply double_mat_mset_eq; [exact Hw | lia | lia].
        -- apply double_mat_overflow; [apply double_wf_mset, Hw|].
           right. simpl. lia.
      * rewrite double_mat_mset_neq by lia. apply Hz. lia.
Qed.

Lemma double_mgs_inv_init (m mn n : nat) :
  mgs_inv m mn n 0 (zeros m mn) (zeros mn n).
Proof.
  constructor.
  - split; [apply double_wf_zeros | split; reflexivity].
  - split; [apply double_wf_zeros | split; reflexivity].
  - intros. apply double_mat_zeros.
  - intros. apply double_mat_zeros.
  - intros c Hc. lia.
Qed.

Lemma double_mgs_inv_step (m mn n j : nat) (Qm Rm : Matrix)
    (V : list (list float)) :
  (mn <= n)%nat -> (j < mn)%nat ->
  mgs_inv m mn n j Qm Rm ->
  forall Q1 R1 V1, mgs_column m n (Qm, Rm, V) j = (Q1, R1, V1) ->
  mgs_inv m mn n (S j) Q1 R1.
Proof.
  intros Hmn Hj [(HQ & HQm & HQn) (HR & HRm & HRn) HzR HzQ Hcols] Q1 R1 V1.
  unfold mgs_column.
  set (normVec := PrimFloat.sqrt (dot_loop m (nth j V []) (nth j V []))).
  assert (HR2 : wf (mset Rm j j normVec)) by apply double_wf_mset, HR.
  assert (Hjj : mat (mset Rm j j normVec) j j = normVec)
    by (apply double_mat_mset_eq; auto; lia).
  destruct (epsilon <? normVec) eqn:Hgt.
  - pose proof (double_mgs_update_spec m (normalize_loop m (nth j V []) normVec)
                  j (S j) (n - S j) (mset Rm j j normVec) V HR2) as Hu.
    destruct (fold_left _ _ _) as [R3 V3].
    destruct (Hu R3 V3 eq_refl) as (HR3 & HR3m & HR3n & Hsame). clear Hu.
    intros Heq. inversion Heq; subst Q1 R1 V1. clear Heq.
    constructor.
    + split; [apply double_wf_setCol, HQ | split; assumption].
    + split; [exact HR3 | split; simpl in *; congruence].
    + intros a b Hab. destruct (Nat.eq_dec a j) as [->|Hne].
      * rewrite Hsame by lia. rewrite double_mat_mset_neq by lia.
        apply HzR. lia.
      * rewrite Hsame by lia. rewrite double_mat_mset_neq by lia.
        apply HzR. lia.
    + intros k b Hb. rewrite double_mat_setCol by exact HQ.
      destruct (Nat.eqb_spec b j); [lia|]. simpl. apply HzQ. lia.
    + intros c Hc. destruct (Nat.eq_dec c j) as [->|Hne].
      * left. unfold kept. rewrite Hsame by lia. rewrite Hjj. exact Hgt.
      * assert (Hrow : forall b, mat R3 c b = mat Rm c b).
        { intros b. rewrite Hsame by lia. apply double_mat_mset_neq. lia. }
        destruct (Hcols c ltac:(lia)) as [Hk|(Hk & Hq & Hz)].
        -- left. unfold kept in *. rewrite Hrow. exact Hk.
        -- right. unfold kept in *. rewrite Hrow. split_all; auto.
           ++ intros k. rewrite double_mat_setCol by exact HQ.
              destruct (Nat.eqb_spec c j); [lia|]. simpl. apply Hq.
           ++ intros b Hb. rewrite Hrow. apply Hz, Hb.
  - destruct (double_mgs_clear_spec j (S j) (n - S j) (mset Rm j j normVec)
                HR2 ltac:(simpl; lia)) as (HR3 & HR3m & HR3n & Hsame & Hzero).
    intros Heq. inversion Heq; subst Q1 R1 V1. clear Heq.
    constructor.
    + split; [apply double_wf_setCol, HQ | split; assumption].
    + split; [exact HR3 | split; simpl in *; congruence].
    + intros a b Hab. destruct (Nat.eq_dec a j) as [->|Hne].
      * rewrite Hsame by lia. rewrite double_mat_mset_neq by lia.
        apply HzR. lia.
      * rewrite Hsame by lia. rewrite double_mat_mset_neq by lia.
        apply HzR. lia.
    + intros k b Hb. rewrite double_mat_setCol by exact HQ.
      destruct (Nat.eqb_spec b j); [lia|]. simpl. apply HzQ. lia.
    + intros c Hc. destruct (Nat.eq_dec c j) as [->|Hne].
      * right. unfold kept. rewrite Hsame by lia. rewrite Hjj.
        split_all; auto.
        -- intros k. rewrite double_mat_setCol by exact HQ.
           rewrite Nat.eqb_refl. simpl.
           destruct ((k <? rows_size Qm)%nat && (j <? cols_size Qm)%nat).
           ++ destruct (Nat.lt_ge_cases k m) as [Hk|Hk].
              ** apply nth_repeat_lt. exact Hk.
              ** apply nth_overflow. rewrite repeat_length. exact Hk.
           ++ apply HzQ. lia.
        -- intros b Hb. destruct (Nat.lt_ge_cases b n) as [Hbn|Hbn].
           ++ apply Hzero. lia.
           ++ apply double_mat_overflow; [exact HR3|]. right.
              simpl in *. lia.
      * assert (Hrow : forall b, mat
                  (fold_left (fun Rm0 k => mset Rm0 j k 0) (seq (S j) (n - S j))
                             (mset Rm j j normVec)) c b = mat Rm c b).
        { intros b. rewrite Hsame by lia. apply double_mat_mset_neq. lia. }
        destruct (Hcols c ltac:(lia)) as [Hk|(Hk & Hq & Hz)].
        -- left. unfold kept in *. rewrite Hrow. exact Hk.
        -- right. unfold kept in *. rewrite Hrow. split_all; auto.
           ++ intros k. rewrite double_mat_setCol by exact HQ.
              destruct (Nat.eqb_spec c j); [lia|]. simpl. apply Hq.
           ++ intros b Hb. rewrite Hrow. apply Hz, Hb.
Qed.

Lemma double_mgs_inv_fold (m mn n j : nat) (V0 : list (list float)) :
  (mn <= n)%nat -> (j <= mn)%nat ->
  forall Qm Rm V,
  fold_left (mgs_column m n) (seq 0 j) (zeros m mn, zeros mn n, V0)
  = (Qm, Rm, V) ->
  mgs_inv m mn n j Qm Rm.
Proof.
  intros Hmn. induction j as [|j IH]; intros Hj Qm Rm V Hfold.
  - inversion Hfold; subst. apply double_mgs_inv_init.
  - rewrite fold_left_seq_S in Hfold. simpl Nat.add in Hfold.
    destruct (fold_left (mgs_column m n) (seq 0 j) (zeros m mn, zeros mn n, V0))
      as [[Q0 R0] V1].
    apply (double_mgs_inv_step m mn n j Q0 R0 V1 Hmn ltac:(lia)
             (IH ltac:(lia) Q0 R0 V1 eq_refl) Qm Rm V Hfold).
Qed.

(** What [qrCGS] has established on return. *)
Lemma double_qrCGS_inv (s : QR) :
  QR_A (qrCGS s) = QR_A s /\
  cgs_inv (rows_size (_A s)) (Nat.min (rows_size (_A s)) (cols_size (_A s)))
          (cols_size (_A s)) (cols_size (_A s))
          (QR_Q (qrCGS s)) (QR_R (qrCGS s)).
Proof.
  pose proof (double_cgs_inv_fold (_A s) (rows_size (_A s))
                (Nat.min (rows_size (_A s)) (cols_size (_A s)))
                (cols_size (_A s)) (cols_size (_A s))
                ltac:(lia) ltac:(lia)) as H.
  unfold qrCGS. destruct (fold_left _ _ _) as [Qm Rm]. split; [reflexivity|].
  exact H.
Qed.

(** What [qrMGS] has established on return. *)
Lemma double_qrMGS_inv (s : QR) :
  QR_A (qrMGS s) = QR_A s /\
  mgs_inv (rows_size (_A s)) (Nat.min (rows_size (_A s)) (cols_size (_A s)))
          (cols_size (_A s))
          (Nat.min (rows_size (_A s)) (cols_size (_A s)))
          (QR_Q (qrMGS s)) (QR_R (qrMGS s)).
Proof.
  pose proof (double_mgs_inv_fold (rows_size (_A s))
                (Nat.min (rows_size (_A s)) (cols_size (_A s)))
                (cols_size (_A s))
                (Nat.min (rows_size (_A s)) (cols_size (_A s)))
                (map (fun i => getCol (_A s) i) (seq 0 (cols_size (_A s))))
                ltac:(lia) ltac:(lia)) as H.
  unfold qrMGS. destruct (fold_left _ _ _) as [[Qm Rm] V].
  split; [reflexivity|]. exact (H Qm Rm V eq_refl).
Qed.

(** *** The recurrences of the classical method *)

Lemma fold_left_ext_in {S T : Type} (f g : S -> T -> S) (l : list T) (a : S) :
  (forall x, In x l -> forall b, f b x = g b x) ->
  fold_left f l a = fold_left g l a.
Proof.
  revert a. induction l as [|x l IH]; intros a H; simpl; [reflexivity|].
  rewrite H by (left; reflexivity). apply IH.
  intros y Hy. apply H. right. exact Hy.
Qed.

Lemma double_length_pointwise_loop (g : nat -> float -> float) (m : nat)
    (u : list float) :
  length (fold_left (fun u k => list_set u k (g k (nth k u 0))) (seq 0 m) u)
  = length u.
Proof.
  induction m as [|m IH]; [reflexivity|].
  rewrite fold_left_seq_S, length_list_set. exact IH.
Qed.

Lemma double_length_normalize_loop (m : nat) (u : list float) (c : float) :
  length (normalize_loop m u c) = m.
Proof.
  unfold normalize_loop.
  rewrite (double_length_pointwise_loop (fun k _ => nth k u 0 / c)).
  apply repeat_length.
Qed.

Lemma double_getCol_setCol_eq (M : Matrix) (v : list float) (i : nat) :
  wf M -> (i < cols_size M)%nat -> length v = rows_size M ->
  getCol (setCol M v i) i = v.
Proof.
  intros HM Hi Hv. apply nth_ext with (d := 0) (d' := 0).
  - unfold getCol, setCol. simpl. rewrite !length_map, length_seq. lia.
  - intros k Hk. rewrite double_nth_getCol, double_mat_setCol by exact HM.
    unfold getCol, setCol in Hk. simpl in Hk.
    rewrite !length_map, length_seq in Hk.
    rewrite Nat.eqb_refl. simpl.
    destruct (Nat.ltb_spec k (rows_size M)); [|lia].
    destruct (Nat.ltb_spec i (cols_size M)); [|lia]. reflexivity.
Qed.

Lemma double_getCol_setCol_neq (M : Matrix) (v : list float) (i j : nat) :
  wf M -> j <> i -> getCol (setCol M v i) j = getCol M j.
Proof.
  intros HM Hj. apply nth_ext with (d := 0) (d' := 0).
  - unfold getCol, setCol. simpl. rewrite !length_map, length_seq.
    destruct HM. lia.
  - intros k _. rewrite !double_nth_getCol, double_mat_setCol by exact HM.
    destruct (Nat.eqb_spec j i); [contradiction|]. reflexivity.
Qed.

(** The loop over [j] in [qrCGS]: the coefficients it stores and the vector
    it leaves. *)
Lemma double_cgs_project_values (m : nat) (Qm : Matrix) (v : list float)
    (i j0 : nat) (R0 : Matrix) :
  wf R0 -> (j0 <= rows_size R0)%nat -> (i < cols_size R0)%nat ->
  forall u Rm,
  fold_left (cgs_project m Qm v i) (seq 0 j0) (v, R0) = (u, Rm) ->
  (forall j, (j < j0)%nat -> mat Rm j i = dot_loop m v (getCol Qm j)) /\
  u = fold_left (fun u j => sub_scaled_loop m u (mat Rm j i) (getCol Qm j))
                (seq 0 j0) v.
Proof.
  intros HR0. induction j0 as [|j0 IH]; intros Hj0 Hi u Rm Hfold.
  - inversion Hfold; subst. split; [intros j Hj; lia | reflexivity].
  - rewrite fold_left_seq_S in Hfold. simpl Nat.add in Hfold.
    destruct (fold_left (cgs_project m Qm v i) (seq 0 j0) (v, R0))
      as [u1 R1] eqn:Hprev.
    destruct (double_cgs_project_spec m Qm v i j0 v R0 HR0 u1 R1 Hprev)
      as (HR1 & HR1m & HR1n & _).
    destruct (IH ltac:(lia) Hi u1 R1 eq_refl) as [Hcoef Hu].
    unfold cgs_project in Hfold. inversion Hfold; subst u Rm. clear Hfold.
    assert (Hnew : mat (mset R1 j0 i (dot_loop m v (getCol Qm j0))) j0 i
                   = dot_loop m v (getCol Qm j0))
      by (apply double_mat_mset_eq; auto; lia).
    split.
    + intros j Hj. destruct (Nat.eq_dec j j0) as [->|Hne]; [exact Hnew|].
      rewrite double_mat_mset_neq by lia. apply Hcoef. lia.
    + rewrite fold_left_seq_S. simpl Nat.add. rewrite Hnew. f_equal.
      rewrite Hu. apply fold_left_ext_in.
      intros j Hj b. apply in_seq in Hj.
      rewrite double_mat_mset_neq by lia. reflexivity.
Qed.

(** The recurrence of a column reads column [c] of [Rm] and the columns of
    [Qm] up to [c] only. *)
Lemma double_cgs_recurrence_ext (A : Matrix) (m mn : nat)
    (Q1 R1 Q2 R2 : Matrix) (c : nat) :
  (forall a, mat R2 a c = mat R1 a c) ->
  (forall j, (j <= c)%nat -> getCol Q2 j = getCol Q1 j) ->
  cgs_recurrence A m mn Q1 R1 c -> cgs_recurrence A m mn Q2 R2 c.
Proof.
  intros HR HQ [Hcoef Hdiag].
  assert (Hres : cgs_residual A m mn Q2 R2 c = cgs_residual A m mn Q1 R1 c).
  { unfold cgs_residual. apply fold_left_ext_in.
    intros j Hj b. apply in_seq in Hj. rewrite HR, HQ by lia. reflexivity. }
  split.
  - intros j Hj. rewrite HR, HQ by lia. apply Hcoef, Hj.
  - intros Hc. specialize (Hdiag Hc). cbv zeta in *.
    rewrite Hres, HR, HQ by lia. exact Hdiag.
Qed.

Lemma double_cgs_recurrence_step (A : Matrix) (m mn n i : nat)
    (Qm Rm : Matrix) :
  (mn <= n)%nat -> (i < n)%nat ->
  cgs_inv m mn n i Qm Rm ->
  (forall c, (c < i)%nat -> cgs_recurrence A m mn Qm Rm c) ->
  forall c, (c < S i)%nat ->
  cgs_recurrence A m mn (fst (cgs_column A m mn (Qm, Rm) i))
                        (snd (cgs_column A m mn (Qm, Rm) i)) c.
Proof.
  intros Hmn Hi [(HQ & HQm & HQn) (HR & HRm & HRn) HzR HzQ Hcols] Hrec.
  unfold cgs_column.
  pose proof (double_cgs_project_spec m Qm (getCol A i) i (Nat.min mn i)
                (getCol A i) Rm HR) as Hp.
  pose proof (double_cgs_project_values m Qm (getCol A i) i (Nat.min mn i)
                Rm HR ltac:(lia) ltac:(lia)) as Hv.
  destruct (fold_left (cgs_project m Qm (getCol A i) i) (seq 0 (Nat.min mn i))
                      (getCol A i, Rm)) as [u R1].
  destruct (Hp u R1 eq_refl) as (HR1 & HR1m & HR1n & Hsame). clear Hp.
  destruct (Hv u R1 eq_refl) as [Hcoef Hu]. clear Hv.
  fold (cgs_residual A m mn Qm R1 i) in Hu.
  (* the columns done before are as they were *)
  assert (Hold : forall Q2 R2,
            (forall a b, b <> i -> mat R2 a b = mat Rm a b) ->
            (forall j, j <> i -> getCol Q2 j = getCol Qm j) ->
            forall c, (c < i)%nat -> cgs_recurrence A m mn Q2 R2 c).
  { intros Q2 R2 HR2 HQ2 c Hc.
    apply (double_cgs_recurrence_ext A m mn Qm Rm).
    - intros a. apply HR2. lia.
    - intros j Hj. apply HQ2. lia.
    - apply Hrec, Hc. }
  destruct (Nat.ltb_spec i mn) as [Him|Him].
  - destruct (epsilon <? PrimFloat.sqrt (dot_loop m u u)) eqn:Hgt; simpl;
      intros c Hc; destruct (Nat.eq_dec c i) as [->|Hne].
    + (* the new column, kept *)
      assert (HQi : forall j, (j <= i)%nat -> j <> i ->
                getCol (setCol Qm (normalize_loop m u
                          (PrimFloat.sqrt (dot_loop m u u))) i) j
                = getCol Qm j)
        by (intros; apply double_getCol_setCol_neq; auto).
      assert (Hres : cgs_residual A m mn
                (setCol Qm (normalize_loop m u
                              (PrimFloat.sqrt (dot_loop m u u))) i)
                (mset R1 i i (PrimFloat.sqrt (dot_loop m u u))) i = u).
      { transitivity (cgs_residual A m mn Qm R1 i); [|symmetry; exact Hu].
        unfold cgs_residual. apply fold_left_ext_in.
        intros j Hj b. apply in_seq in Hj.
        rewrite double_mat_mset_neq, HQi by lia. reflexivity. }
      split.
      * intros j Hj. rewrite double_mat_mset_neq, HQi by lia.
        apply Hcoef, Hj.
      * intros _. cbv zeta. rewrite Hres, Hgt. split.
        -- apply double_mat_mset_eq; auto; lia.
        -- apply double_getCol_setCol_eq; auto; [lia|].
           rewrite double_length_normalize_loop. auto.
    + apply Hold; [| |lia].
      * intros a b Hb. rewrite double_mat_mset_neq by lia. apply Hsame. lia.
      * intros j Hj. apply double_getCol_setCol_neq; auto.
    + (* the new column, dropped *)
      assert (Hres : cgs_residual A m mn Qm (mset R1 i i 0) i = u).
      { transitivity (cgs_residual A m mn Qm R1 i); [|symmetry; exact Hu].
        unfold cgs_residual. apply fold_left_ext_in.
        intros j Hj b. apply in_seq in Hj.
        rewrite double_mat_mset_neq by lia. reflexivity. }
      split.
      * intros j Hj. rewrite double_mat_mset_neq by lia. apply Hcoef, Hj.
      * intros _. cbv zeta. rewrite Hres, Hgt. split.
        -- apply double_mat_mset_eq; auto; lia.
        -- apply double_getCol_zero; auto; intros k; apply HzQ; lia.
    + apply Hold; [| |lia].
      * intros a b Hb. rewrite double_mat_mset_neq by lia. apply Hsame. lia.
      * intros j Hj. reflexivity.
  - simpl. intros c Hc. destruct (Nat.eq_dec c i) as [->|Hne].
    + split; [|intros Hlt; lia].
      intros j Hj. apply Hcoef, Hj.
    + apply Hold; [| |lia].
      * intros a b Hb. apply Hsame. lia.
      * intros j Hj. reflexivity.
Qed.

Lemma double_cgs_recurrence_fold (A : Matrix) (m mn n i : nat) :
  (mn <= n)%nat -> (i <= n)%nat ->
  forall c, (c < i)%nat ->
  cgs_recurrence A m mn
    (fst (fold_left (cgs_column A m mn) (seq 0 i) (zeros m mn, zeros mn n)))
    (snd (fold_left (cgs_column A m mn) (seq 0 i) (zeros m mn, zeros mn n))) c.
Proof.
  intros Hmn. induction i as [|i IH]; intros Hi c Hc; [lia|].
  rewrite fold_left_seq_S. simpl Nat.add.
  pose proof (double_cgs_inv_fold A m mn n i Hmn ltac:(lia)) as Hinv.
  specialize (IH ltac:(lia)).
  destruct (fold_left (cgs_column A m mn) (seq 0 i) (zeros m mn, zeros mn n))
    as [Qm Rm].
  apply (double_cgs_recurrence_step A m mn n i Qm Rm); auto.
Qed.

(** *** The recurrences of the modified method *)

(** The loop over [k] in [qrMGS]: the coefficients it stores and the vectors
    it leaves. *)
Lemma double_mgs_update_values (m : nat) (q : list float) (j k0 len : nat)
    (R0 : Matrix) (V0 : list (list float)) :
  wf R0 -> (j < rows_size R0)%nat -> (k0 + len <= cols_size R0)%nat ->
  (k0 + len <= length V0)%nat ->
  forall Rm V,
  fold_left (mgs_update m q j) (seq k0 len) (R0, V0) = (Rm, V) ->
  length V = length V0 /\
  (forall k, (k0 <= k < k0 + len)%nat ->
     mat Rm j k = dot_loop m q (nth k V0 []) /\
     nth k V [] = sub_scaled_loop m (nth k V0 [])
                    (dot_loop m q (nth k V0 [])) q) /\
  (forall k, ~ (k0 <= k < k0 + len)%nat -> nth k V [] = nth k V0 []).
Proof.
  intros HR0 Hj. induction len as [|len IH]; intros Hlen HV0 Rm V Hfold.
  - inversion Hfold; subst. split_all; auto. intros k Hk. lia.
  - rewrite fold_left_seq_S in Hfold.
    pose proof (double_mgs_update_spec m q j k0 len R0 V0 HR0) as Hs.
    destruct (fold_left (mgs_update m q j) (seq k0 len) (R0, V0)) as [R1 V1].
    destruct (Hs R1 V1 eq_refl) as (HR1 & HR1m & HR1n & _). clear Hs.
    destruct (IH ltac:(lia) ltac:(lia) R1 V1 eq_refl) as (HlV & Hin & Hout).
    unfold mgs_update in Hfold. inversion Hfold; subst Rm V. clear Hfold.
    assert (Hlast : nth (k0 + len) V1 [] = nth (k0 + len) V0 [])
      by (apply Hout; lia).
    split_all.
    + rewrite length_list_set. exact HlV.
    + intros k Hk. destruct (Nat.eq_dec k (k0 + len)) as [->|Hne].
      * rewrite Hlast. split.
        -- apply double_mat_mset_eq; auto; lia.
        -- apply nth_list_set_eq. lia.
      * rewrite double_mat_mset_neq by lia.
        rewrite nth_list_set_neq by lia. apply Hin. lia.
    + intros k Hk. rewrite nth_list_set_neq by lia. apply Hout. lia.
Qed.

(** A vector of the modified method reads the rows of [Rm] and the columns
    of [Qm] before [j] only. *)
Lemma double_mgs_residual_ext (A : Matrix) (m : nat) (Q1 R1 Q2 R2 : Matrix)
    (k j : nat) :
  (forall l b, (l < j)%nat -> mat R2 l b = mat R1 l b) ->
  (forall l, (l < j)%nat -> getCol Q2 l = getCol Q1 l) ->
  mgs_residual A m Q2 R2 k j = mgs_residual A m Q1 R1 k j.
Proof.
  intros HR HQ. unfold mgs_residual. apply fold_left_ext_in.
  intros l Hl b. apply in_seq in Hl. unfold kept.
  rewrite !HR, HQ by lia. reflexivity.
Qed.

Lemma double_mgs_residual_S (A : Matrix) (m : nat) (Qm Rm : Matrix)
    (k j : nat) :
  mgs_residual A m Qm Rm k (S j)
  = if kept Rm j
    then sub_scaled_loop m (mgs_residual A m Qm Rm k j) (mat Rm j k)
                         (getCol Qm j)
    else mgs_residual A m Qm Rm k j.
Proof.
  unfold mgs_residual. rewrite fold_left_seq_S. reflexivity.
Qed.

(** The recurrence of a column reads the rows of [Rm] and the columns of
    [Qm] up to [c] only. *)
Lemma double_mgs_recurrence_ext (A : Matrix) (m n : nat)
    (Q1 R1 Q2 R2 : Matrix) (c : nat) :
  (forall l b, (l <= c)%nat -> mat R2 l b = mat R1 l b) ->
  (forall l, (l <= c)%nat -> getCol Q2 l = getCol Q1 l) ->
  mgs_recurrence A m n Q1 R1 c -> mgs_recurrence A m n Q2 R2 c.
Proof.
  intros HR HQ. unfold mgs_recurrence. cbv zeta.
  assert (Hres : forall k, mgs_residual A m Q2 R2 k c
                           = mgs_residual A m Q1 R1 k c).
  { intros k. apply double_mgs_residual_ext.
    - intros l b Hl. apply HR. lia.
    - intros l Hl. apply HQ. lia. }
  unfold kept. rewrite !Hres, !HR, HQ by lia.
  intros [Hnorm Hrest]. split; [exact Hnorm|].
  destruct (epsilon <? mat R1 c c).
  - destruct Hrest as [Hq Hdots]. split; [exact Hq|].
    intros k Hk. rewrite HR, Hres by lia. apply Hdots, Hk.
  - destruct Hrest as [Hq Hz]. split; [exact Hq|].
    intros k Hk. rewrite HR by lia. apply Hz, Hk.
Qed.

Lemma double_mgs_recurrence_step (A : Matrix) (m mn n j : nat)
    (Qm Rm : Matrix) (V : list (list float)) :
  (mn <= n)%nat -> (j < mn)%nat ->
  mgs_inv m mn n j Qm Rm ->
  length V = n ->
  (forall k, (k < n)%nat ->
     nth k V [] = mgs_residual A m Qm Rm k (Nat.min j k)) ->
  (forall c, (c < j)%nat -> mgs_recurrence A m n Qm Rm c) ->
  forall Q1 R1 V1, mgs_column m n (Qm, Rm, V) j = (Q1, R1, V1) ->
  length V1 = n /\
  (forall k, (k < n)%nat ->
     nth k V1 [] = mgs_residual A m Q1 R1 k (Nat.min (S j) k)) /\
  (forall c, (c < S j)%nat -> mgs_recurrence A m n Q1 R1 c).
Proof.
  intros Hmn Hj [(HQ & HQm & HQn) (HR & HRm & HRn) HzR HzQ Hcols] HlV HV Hrec
         Q1 R1 V1.
  unfold mgs_column.
  assert (HVj : nth j V [] = mgs_residual A m Qm Rm j j).
  { rewrite HV by lia. rewrite Nat.min_id. reflexivity. }
  set (normVec := PrimFloat.sqrt (dot_loop m (nth j V []) (nth j V []))).
  assert (HR2 : wf (mset Rm j j normVec)) by apply double_wf_mset, HR.
  assert (Hjj : mat (mset Rm j j normVec) j j = normVec)
    by (apply double_mat_mset_eq; auto; lia).
  (* what the pass leaves of the rows and columns before [j] *)
  assert (Hkeep : forall Q2 R2,
            (forall a b, a <> j -> mat R2 a b = mat Rm a b) ->
            (forall l, l <> j -> getCol Q2 l = getCol Qm l) ->
            (forall k i, (i <= j)%nat ->
               mgs_residual A m Q2 R2 k i = mgs_residual A m Qm Rm k i) /\
            (forall c, (c < j)%nat -> mgs_recurrence A m n Q2 R2 c)).
  { intros Q2 R2 HR2' HQ2'. split.
    - intros k i Hi. apply double_mgs_residual_ext.
      + intros l b Hl. apply HR2'. lia.
      + intros l Hl. apply HQ2'. lia.
    - intros c Hc. apply (double_mgs_recurrence_ext A m n Qm Rm).
      + intros l b Hl. apply HR2'. lia.
      + intros l Hl. apply HQ2'. lia.
      + apply Hrec, Hc. }
  destruct (epsilon <? normVec) eqn:Hgt.
  - set (q_j := normalize_loop m (nth j V []) normVec).
    pose proof (double_mgs_update_spec m q_j j (S j) (n - S j)
                  (mset Rm j j normVec) V HR2) as Hs.
    pose proof (double_mgs_update_values m q_j j (S j) (n - S j)
                  (mset Rm j j normVec) V HR2 ltac:(simpl; lia)
                  ltac:(simpl; lia) ltac:(lia)) as Hv.
    destruct (fold_left _ _ _) as [R3 V3].
    destruct (Hs R3 V3 eq_refl) as (HR3 & HR3m & HR3n & Hsame). clear Hs.
    destruct (Hv R3 V3 eq_refl) as (HlV3 & Hin & Hout). clear Hv.
    intros Heq. inversion Heq; subst Q1 R1 V1. clear Heq.
    assert (HR3jj : mat R3 j j = normVec)
      by (rewrite Hsame by lia; exact Hjj).
    assert (HQj : getCol (setCol Qm q_j j) j = q_j).
    { apply double_getCol_setCol_eq; auto; [lia|].
      unfold q_j. rewrite double_length_normalize_loop. auto. }
    assert (Hkept : kept R3 j = true) by (unfold kept; rewrite HR3jj; exact Hgt).
    destruct (Hkeep (setCol Qm q_j j) R3) as [Hres Hold].
    { intros a b Ha. rewrite Hsame by lia. apply double_mat_mset_neq. lia. }
    { intros l Hl. apply double_getCol_setCol_neq; auto. }
    split_all.
    + lia.
    + intros k Hk. destruct (Nat.lt_ge_cases j k) as [Hjk|Hkj].
      * replace (Nat.min (S j) k) with (S j) by lia.
        rewrite double_mgs_residual_S, Hkept, HQj, Hres by lia.
        destruct (Hin k ltac:(lia)) as [HRjk HVk].
        rewrite HRjk, HVk. rewrite (HV k Hk).
        replace (Nat.min j k) with j by lia. reflexivity.
      * replace (Nat.min (S j) k) with k by lia.
        rewrite Hout by lia. rewrite (HV k Hk), Hres by lia.
        replace (Nat.min j k) with k by lia. reflexivity.
    + intros c Hc. destruct (Nat.eq_dec c j) as [->|Hne]; [|apply Hold; lia].
      unfold mgs_recurrence. cbv zeta.
      rewrite Hkept, HQj, !Hres, HR3jj by lia. rewrite <- HVj. split_all.
      * reflexivity.
      * reflexivity.
      * intros k Hk. destruct (Hin k ltac:(lia)) as [HRjk _].
        rewrite HRjk, Hres by lia. rewrite (HV k ltac:(lia)).
        replace (Nat.min j k) with j by lia. reflexivity.
  - destruct (double_mgs_clear_spec j (S j) (n - S j) (mset Rm j j normVec)
                HR2 ltac:(simpl; lia)) as (HR3 & HR3m & HR3n & Hsame & Hzero).
    set (R3 := fold_left (fun Rm0 k => mset Rm0 j k 0) (seq (S j) (n - S j))
                         (mset Rm j j normVec)) in *.
    intros Heq. inversion Heq; subst Q1 R1 V1. clear Heq.
    assert (HR3jj : mat R3 j j = normVec)
      by (rewrite Hsame by lia; exact Hjj).
    assert (HQj : getCol (setCol Qm (repeat 0 m) j) j = repeat 0 m).
    { apply double_getCol_setCol_eq; auto; [lia|].
      rewrite repeat_length. auto. }
    assert (Hkept : kept R3 j = false)
      by (unfold kept; rewrite HR3jj; exact Hgt).
    destruct (Hkeep (setCol Qm (repeat 0 m) j) R3) as [Hres Hold].
    { intros a b Ha. rewrite Hsame by lia. apply double_mat_mset_neq. lia. }
    { intros l Hl. apply double_getCol_setCol_neq; auto. }
    split_all.
    + exact HlV.
    + intros k Hk. destruct (Nat.lt_ge_cases j k) as [Hjk|Hkj].
      * replace (Nat.min (S j) k) with (S j) by lia.
        rewrite double_mgs_residual_S, Hkept, Hres by lia.
        rewrite (HV k Hk). replace (Nat.min j k) with j by lia. reflexivity.
      * replace (Nat.min (S j) k) with k by lia.
        rewrite (HV k Hk), Hres by lia.
        replace (Nat.min j k) with k by lia. reflexivity.
    + intros c Hc. destruct (Nat.eq_dec c j) as [->|Hne]; [|apply Hold; lia].
      unfold mgs_recurrence. cbv zeta.
      rewrite Hkept, HQj, !Hres, HR3jj by lia. rewrite <- HVj. split_all.
      * reflexivity.
      * reflexivity.
      * intros k Hk. apply Hzero. lia.
Qed.

Lemma double_mgs_recurrence_fold (A : Matrix) (m mn n j : nat) :
  (mn <= n)%nat -> (j <= mn)%nat ->
  forall Qm Rm V,
  fold_left (mgs_column m n) (seq 0 j)
            (zeros m mn, zeros mn n, map (fun i => getCol A i) (seq 0 n))
  = (Qm, Rm, V) ->
  length V = n /\
  (forall k, (k < n)%nat ->
     nth k V [] = mgs_residual A m Qm Rm k (Nat.min j k)) /\
  (forall c, (c < j)%nat -> mgs_recurrence A m n Qm Rm c).
Proof.
  intros Hmn. induction j as [|j IH]; intros Hj Qm Rm V Hfold.
  - inversion Hfold; subst. split_all.
    + rewrite length_map, length_seq. reflexivity.
    + intros k Hk. simpl.
      rewrite (nth_indep _ [] (getCol A 0))
        by (rewrite length_map, length_seq; exact Hk).
      rewrite (map_nth (fun i => getCol A i)), seq_nth by exact Hk.
      reflexivity.
    + intros c Hc. lia.
  - rewrite fold_left_seq_S in Hfold. simpl Nat.add in Hfold.
    pose proof (double_mgs_inv_fold m mn n j
                  (map (fun i => getCol A i) (seq 0 n)) Hmn ltac:(lia)) as Hinv.
    destruct (fold_left (mgs_column m n) (seq 0 j) _) as [[Q0 R0] V0].
    destruct (IH ltac:(lia) Q0 R0 V0 eq_refl) as (HlV & HV & Hrec).
    apply (double_mgs_recurrence_step A m mn n j Q0 R0 V0 Hmn ltac:(lia)
             (Hinv Q0 R0 V0 eq_refl) HlV HV Hrec Qm Rm V Hfold).
Qed.

Lemma double_QR_new_fresh (A : Matrix) (s : QR) :
  QR_new A = Ok s -> s = QR_init A.
Proof.
  unfold QR_new. destruct (_ || _); intros H; inversion H. reflexivity.
Qed.

End DoubleGrids.

(** ** Double precision: derivatives with respect to an absent unknown *)

Section DoubleResiduals.

Import Double.
Local Open Scope float_scope.











End DoubleResiduals.

(** ** Double precision: runs on concrete matrices *)

(** Runs the decompositions that the goal applies to a matrix of literals. *)
Ltac double_run :=
  repeat match goal with
  | |- context [Double.qrCGS ?s] =>
      let v := eval vm_compute in (Double.qrCGS s) in
      change (Double.qrCGS s) with v
  | |- context [Double.qrMGS ?s] =>
      let v := eval vm_compute in (Double.qrMGS s) in
      change (Double.qrMGS s) with v
  end.

(** Replaces the doubles of the goal by the fractions they stand for. *)
Ltac exact_values :=
  unfold Double.exact;
  repeat match goal with
  | |- context [Double.fraction ?x] =>
      let v := eval vm_compute in (Double.fraction x) in
      change (Double.fraction x) with v
  end;
  cbn [fst snd].

(** Unrolls sums and products over matrices of doubles read as real
    numbers, leaving the real arithmetic as it is. *)
Ltac exact_unfold :=
  unfold exact_gram, mmul, transpose, identity, exact_matrix, getCol, mat;
  cbn -[Double.exact Rplus Rmult Rminus Rdiv Ropp Rinv Rabs IZR].

Lemma Rabs_exceeds (x tol : R) : tol < x \/ x < - tol -> tol < Rabs x.
Proof.
  intros H. unfold Rabs. destruct (Rcase_abs x); lra.
Qed.

Lemma not_approx_eq_at (tol : R) (M N : Matrix) (i j : nat) :
  (i < rows_size M)%nat -> (j < cols_size M)%nat ->
  tol < Rabs (mat M i j - mat N i j) ->
  ~ approx_eq tol M N.
Proof.
  intros Hi Hj Hgt (_ & _ & H). specialize (H i j Hi Hj). lra.
Qed.

(** Settles that the entry (i, j) of two real matrices differs by more than
    the tolerance. *)
Ltac differs_at i j :=
  apply (not_approx_eq_at _ _ _ i j); [simpl; lia | simpl; lia |];
  exact_unfold; exact_values; apply Rabs_exceeds; lra.

(** The columns of a matrix of doubles are linearly independent, by the
    equations of its rows. *)
Ltac independent_columns :=
  let alpha := fresh "alpha" in
  let H := fresh "H" in
  let c := fresh "c" in
  let Hc := fresh "Hc" in
  intros alpha H c Hc;
  repeat match goal with
  | Hrow : forall k : nat, (k < ?m)%nat -> _ |- _ =>
      pose proof (Hrow 0%nat ltac:(simpl; lia)) as ?H0;
      try pose proof (Hrow 1%nat ltac:(simpl; lia)) as ?H1;
      try pose proof (Hrow 2%nat ltac:(simpl; lia)) as ?H2;
      try pose proof (Hrow 3%nat ltac:(simpl; lia)) as ?H3;
      clear Hrow
  end;
  repeat match goal with
  | Hrow : Rsum _ _ = 0 |- _ => revert Hrow
  end;
  exact_unfold; exact_values; intros;
  simpl in Hc;
  repeat (destruct c as [|c]; [lra|]); lia.

(** ** Construction *)

Lemma QR_new_fresh (A : Matrix) (s : QR) : QR_new A = Ok s -> s = QR_init A.
Proof.
  unfold QR_new. destruct (_ || _); intros H; inversion H. reflexivity.
Qed.

Lemma QR_new_ok (A : Matrix) :
  (1 <= rows_size A)%nat -> (1 <= cols_size A)%nat -> QR_new A = Ok (QR_init A).
Proof.
  intros Hr Hc. unfold QR_new.
  destruct (Nat.ltb_spec (rows_size A) 1), (Nat.ltb_spec (cols_size A) 1);
    try lia. reflexivity.
Qed.


(** ** Decomposition of a full-rank matrix *)

(** C1, as amended.  With the doubles as they are, for every input matrix
    both Gram-Schmidt methods leave [_A] as it is and populate [Q] as a grid
    of m rows and min(m, n) columns and [R] as one of min(m, n) rows and n
    columns, every entry of [R] below the diagonal being [+0.0].  In exact
    arithmetic, for m >= n and a run that drops no column (every diagonal
    entry of the computed [R] exceeds the tolerance 1e-10), moreover
    [Q^t Q] is the identity and [Q R] is [A] (exactly, hence within 1e-8). *)
Theorem gram_schmidt_full_rank :
  (forall (A : Double.Matrix) (s d : Double.QR),
     Double.QR_new A = Ok s ->
     d = Double.qrCGS s \/ d = Double.qrMGS s ->
     Double.QR_A d = A /\
     (Double.wf (Double.QR_Q d) /\
      Double.rows_size (Double.QR_Q d) = Double.rows_size A /\
      Double.cols_size (Double.QR_Q d) =
      Nat.min (Double.rows_size A) (Double.cols_size A)) /\
     (Double.wf (Double.QR_R d) /\
      Double.rows_size (Double.QR_R d) =
      Nat.min (Double.rows_size A) (Double.cols_size A) /\
      Double.cols_size (Double.QR_R d) = Double.cols_size A) /\
     Double.upper_triangular (Double.QR_R d)) /\
  (forall (A : Matrix) (s d : QR),
     wf A -> (cols_size A <= rows_size A)%nat ->
     QR_new A = Ok s ->
     d = qrCGS s \/ d = qrMGS s ->
     (forall i, (i < cols_size A)%nat -> mat (QR_R d) i i > epsilon) ->
     (mmul (transpose (QR_Q d)) (QR_Q d) = identity (cols_size A) /\
      mmul (QR_Q d) (QR_R d) = A) /\
     (approx_eq 1e-8 (mmul (transpose (QR_Q d)) (QR_Q d))
                (identity (cols_size A)) /\
      approx_eq 1e-8 (mmul (QR_Q d) (QR_R d)) A) /\
     upper_triangular (QR_R d)).
Proof.
  split.
  - intros A s d Hs Hd. apply double_QR_new_fresh in Hs. subst s.
    destruct Hd as [-> | ->].
    + destruct (double_qrCGS_inv (Double.QR_init A)) as [HA [HQ HR Hz _ _]].
      split_all; try tauto. intros a b Hab. apply Hz. right; exact Hab.
    + destruct (double_qrMGS_inv (Double.QR_init A)) as [HA [HQ HR Hz _ _]].
      split_all; try tauto. intros a b Hab. apply Hz. right; exact Hab.
  - intros A s d HA Hmn Hs Hd Hfull. apply QR_new_fresh in Hs. subst s.
    assert (Hfacts : gs_facts A (rows_size A) (cols_size A) (cols_size A)
                              (QR_Q d) (QR_R d)).
    { replace (cols_size A) with (Nat.min (rows_size A) (cols_size A)) at 1
        by lia.
      destruct Hd as [-> | ->].
      - apply (qrCGS_facts (QR_init A)). exact HA.
      - apply (qrMGS_facts (QR_init A)). exact HA. }
    destruct (gs_full_rank A _ _ _ _ HA eq_refl eq_refl Hfacts Hfull)
      as (HQ & HR & Hup).
    split_all; auto.
    + rewrite HQ. apply approx_eq_refl. lra.
    + rewrite HR. apply approx_eq_refl. lra.
Qed.

(** The two parts of [gram_schmidt_full_rank] at work: on the doubles of
    [Double.nearly_parallel] both methods return an upper triangular [R]
    of 3 rows and 3 columns; in exact arithmetic both methods keep the two
    columns of [three_four], the second after a projection on the first,
    and return orthonormal columns whose product with [R] is the matrix. *)
Lemma gram_schmidt_full_rank_witness :
  (Double.upper_triangular
     (Double.QR_R (Double.qrCGS (Double.QR_init Double.nearly_parallel))) /\
   Double.upper_triangular
     (Double.QR_R (Double.qrMGS (Double.QR_init Double.nearly_parallel)))) /\
  (mmul (transpose (QR_Q (qrCGS (QR_init three_four))))
        (QR_Q (qrCGS (QR_init three_four))) = identity 2 /\
   mmul (QR_Q (qrCGS (QR_init three_four))) (QR_R (qrCGS (QR_init three_four)))
   = three_four) /\
  (mmul (transpose (QR_Q (qrMGS (QR_init three_four))))
        (QR_Q (qrMGS (QR_init three_four))) = identity 2 /\
   mmul (QR_Q (qrMGS (QR_init three_four))) (QR_R (qrMGS (QR_init three_four)))
   = three_four).
Proof.
  destruct gram_schmidt_full_rank as [Hdouble Hexact].
  split_all.
  - apply (Hdouble Double.nearly_parallel
             (Double.QR_init Double.nearly_parallel)); [reflexivity|].
    left; reflexivity.
  - apply (Hdouble Double.nearly_parallel
             (Double.QR_init Double.nearly_parallel)); [reflexivity|].
    right; reflexivity.
  - apply (Hexact three_four (QR_init three_four) (qrCGS (QR_init three_four))).
    + apply wf_three_four.
    + simpl; lia.
    + reflexivity.
    + left; reflexivity.
    + intros i Hi. simpl in Hi. rewrite qrCGS_three_four.
      destruct i as [|[|i]]; try lia; unfold mat; simpl; unfold epsilon; lra.
  - apply (Hexact three_four (QR_init three_four) (qrCGS (QR_init three_four))).
    + apply wf_three_four.
    + simpl; lia.
    + reflexivity.
    + left; reflexivity.
    + intros i Hi. simpl in Hi. rewrite qrCGS_three_four.
      destruct i as [|[|i]]; try lia; unfold mat; simpl; unfold epsilon; lra.
  - apply (Hexact three_four (QR_init three_four) (qrMGS (QR_init three_four))).
    + apply wf_three_four.
    + simpl; lia.
    + reflexivity.
    + right; reflexivity.
    + intros i Hi. simpl in Hi. rewrite qrMGS_three_four.
      destruct i as [|[|i]]; try lia; unfold mat; simpl; unfold epsilon; lra.
  - apply (Hexact three_four (QR_init three_four) (qrMGS (QR_init three_four))).
    + apply wf_three_four.
    + simpl; lia.
    + reflexivity.
    + right; reflexivity.
    + intros i Hi. simpl in Hi. rewrite qrMGS_three_four.
      destruct i as [|[|i]]; try lia; unfold mat; simpl; unfold epsilon; lra.
Defined.

(** C1 as stated fails, with the doubles as they are; [Q^t Q] below is taken
    exactly of the doubles returned.
    - The 1 x 1 matrix [[1e-11]] has full column rank, yet both methods
      treat its column as dependent and leave [Q = [[0]]].
    - [Double.nearly_parallel] (4 x 3, full column rank): the classical
      method keeps all three columns with [R(1,1) = R(2,2) = 1.41e-8], and
      columns 1 and 2 of its [Q] have the scalar product 0.5.
    - [Double.steep] (3 x 3, full column rank): both methods keep all three
      columns; columns 1 and 2 of the classical [Q] have the scalar product
      0.70, columns 0 and 2 of the modified [Q] the scalar product 5.0e-8.
    - For the 1 x 1 matrix [[1e200]] the square of the entry overflows:
      both methods return [R = [[infinity]]] and [Q = [[0]]], and the
      product [Q(0,0) * R(0,0)] is NaN. *)
Lemma gram_schmidt_loses_orthogonality :
  (full_column_rank (exact_matrix (Double.matrix1 1e-11)) /\
   Double.QR_new (Double.matrix1 1e-11)
   = Ok (Double.QR_init (Double.matrix1 1e-11)) /\
   ~ approx_eq 1e-8
       (exact_gram (Double.QR_Q (Double.qrCGS
                                   (Double.QR_init (Double.matrix1 1e-11)))))
       (identity 1) /\
   ~ approx_eq 1e-8
       (exact_gram (Double.QR_Q (Double.qrMGS
                                   (Double.QR_init (Double.matrix1 1e-11)))))
       (identity 1)) /\
  (full_column_rank (exact_matrix Double.nearly_parallel) /\
   Double.QR_new Double.nearly_parallel
   = Ok (Double.QR_init Double.nearly_parallel) /\
   (forall c, (c < 3)%nat ->
      Double.kept
        (Double.QR_R (Double.qrCGS (Double.QR_init Double.nearly_parallel))) c
      = true) /\
   ~ approx_eq 1e-8
       (exact_gram (Double.QR_Q (Double.qrCGS
                                   (Double.QR_init Double.nearly_parallel))))
       (identity 3)) /\
  (full_column_rank (exact_matrix Double.steep) /\
   Double.QR_new Double.steep = Ok (Double.QR_init Double.steep) /\
   (forall c, (c < 3)%nat ->
      Double.kept (Double.QR_R (Double.qrCGS (Double.QR_init Double.steep))) c
      = true /\
      Double.kept (Double.QR_R (Double.qrMGS (Double.QR_init Double.steep))) c
      = true) /\
   ~ approx_eq 1e-8
       (exact_gram (Double.QR_Q (Double.qrCGS (Double.QR_init Double.steep))))
       (identity 3) /\
   ~ approx_eq 1e-8
       (exact_gram (Double.QR_Q (Double.qrMGS (Double.QR_init Double.steep))))
       (identity 3)) /\
  (full_column_rank (exact_matrix (Double.matrix1 1e200)) /\
   Double.qrCGS (Double.QR_init (Double.matrix1 1e200)) =
   Double.mkQR (Double.matrix1 1e200) (Double.matrix1 0)
               (Double.matrix1 PrimFloat.infinity) /\
   Double.qrMGS (Double.QR_init (Double.matrix1 1e200)) =
   Double.mkQR (Double.matrix1 1e200) (Double.matrix1 0)
               (Double.matrix1 PrimFloat.infinity) /\
   Double.kept (Double.matrix1 PrimFloat.infinity) 0 = true /\
   PrimFloat.mul 0 PrimFloat.infinity = PrimFloat.nan).
Proof.
  split_all.
  - independent_columns.
  - reflexivity.
  - double_run. differs_at 0%nat 0%nat.
  - double_run. differs_at 0%nat 0%nat.
  - independent_columns.
  - reflexivity.
  - intros c Hc. destruct c as [|[|[|c]]]; try lia; vm_compute; reflexivity.
  - double_run. differs_at 1%nat 2%nat.
  - independent_columns.
  - reflexivity.
  - intros c Hc.
    destruct c as [|[|[|c]]]; try lia; split; vm_compute; reflexivity.
  - double_run. differs_at 1%nat 2%nat.
  - double_run. differs_at 0%nat 2%nat.
  - independent_columns.
  - vm_compute. reflexivity.
  - vm_compute. reflexivity.
  - vm_compute. reflexivity.
  - vm_compute. reflexivity.
Qed.

(** ** Decomposition with a dependent column *)




(** ** [solve] *)

Lemma solve_unfold (inverse : Matrix -> result Matrix) (s : QR) (b : Matrix) :
  solve inverse s b =
  bind (inverse (QR_R s)) (fun _ => Ok (mmul (transpose (QR_Q s)) b)).
Proof. reflexivity. Qed.

(** C2 at the failing input [A = [[2]]], [b = [[4]]].  After [qr()] the
    factors are [Q = [[1]]] and [R = [[2]]]; [solve] inverts [R], drops the
    inverse and returns [Q^t b = [[4]]], for which [A x = [[8]]], although
    [A x = b] holds for [x = [[2]]]. *)
Theorem solve_returns_Qt_b :
  (forall inverse : Matrix -> result Matrix,
     solve inverse (qr (QR_init (matrix1 2))) (matrix1 4) =
     bind (inverse (matrix1 2)) (fun _ => Ok (matrix1 4))) /\
  mmul (matrix1 2) (matrix1 4) = matrix1 8 /\
  mmul (matrix1 2) (matrix1 2) = matrix1 4 /\
  matrix1 4 <> matrix1 2.
Proof.
  split_all.
  - intros inverse. unfold qr.
    rewrite solve_unfold, qrCGS_matrix1_kept by (unfold epsilon; lra).
    unfold QR_R, QR_Q; simpl.
    destruct (inverse (matrix1 2)) as [R_inv|e]; simpl; [|reflexivity].
    unfold mmul, matrix1, mat; simpl. repeat (f_equal; try lra).
  - unfold mmul, matrix1, mat; simpl. repeat (f_equal; try lra).
  - unfold mmul, matrix1, mat; simpl. repeat (f_equal; try lra).
  - unfold matrix1. intros H. inversion H as [H1]. lra.
Qed.

(** For [A] the identity of size 3 and every right-hand side [b] with three
    rows, [solve] returns [b] itself, unless [inverse] raises a fault. *)
Lemma solve_identity3 (inverse : Matrix -> result Matrix) (b : Matrix) :
  wf b -> rows_size b = 3%nat ->
  solve inverse (qr (QR_init (identity 3))) b =
  bind (inverse (identity 3)) (fun _ => Ok b).
Proof.
  intros Hb Hrows. unfold qr. rewrite solve_unfold, qrCGS_identity3.
  unfold QR_R, QR_Q; simpl _R; simpl _Q.
  destruct (inverse (identity 3)) as [R_inv|e]; simpl; [|reflexivity].
  f_equal. rewrite (matrix_tabulate b Hb) at 2. rewrite Hrows.
  unfold mmul. simpl rows_size. simpl cols_size.
  apply tabulate_ext. intros i j Hi Hj.
  destruct i as [|[|[|i]]]; try lia; unfold mat; simpl; lra.
Qed.

(** ** [pseudoInverse] *)





(** ** The strategies with an empty body *)

(** C8, as amended.  Each of the six strategies with an empty body returns
    normally, raises no fault and leaves the object, [_Q] and [_R] included,
    exactly as it was: a silent no-op. *)
Theorem empty_strategies_are_no_ops (inverse : Matrix -> result Matrix)
    (c : call) (s : QR) :
  unimplemented c = true -> invoke inverse c s = (s, returned).
Proof.
  destruct c; simpl; intros H; try discriminate H; reflexivity.
Qed.

(** [qrHouseholder] on a freshly constructed engine. *)
Lemma empty_strategies_are_no_ops_witness :
  invoke (fun _ => Throw matrix_fault) call_qrHouseholder (QR_init (matrix1 1))
  = (QR_init (matrix1 1), returned).
Proof.
  apply (empty_strategies_are_no_ops (fun _ => Throw matrix_fault)
           call_qrHouseholder (QR_init (matrix1 1))).
  reflexivity.
Defined.

(** C8 as stated fails: called on a freshly constructed engine, every one of
    the six strategies returns without a fault and leaves [_Q] and [_R]
    empty. *)
Lemma empty_strategies_raise_no_fault :
  Forall (fun c => unimplemented c = true /\
                   forall inverse,
                     invoke inverse c (QR_init (matrix1 1)) =
                     (QR_init (matrix1 1), returned))
         [call_qrIGS; call_qrBGS; call_qrRGS; call_qrCGSP;
          call_qrHouseholder; call_qrGivens] /\
  (forall e, returned <> raised e) /\
  QR_Q (QR_init (matrix1 1)) = empty_matrix /\
  QR_R (QR_init (matrix1 1)) = empty_matrix.
Proof.
  split_all; try reflexivity.
  - repeat constructor.
  - intros e H. discriminate H.
Qed.

(** ** The stored matrix *)

Lemma invoke_A (inverse : Matrix -> result Matrix) (c : call) (s : QR) :
  QR_A (fst (invoke inverse c s)) = QR_A s.
Proof.
  destruct c; simpl; try reflexivity.
  - apply qrCGS_A.
  - apply qrCGS_A.
  - apply qrMGS_A.
Qed.

Lemma run_A (inverse : Matrix -> result Matrix) (cs : list call) (s : QR) :
  QR_A (run inverse cs s) = QR_A s.
Proof.
  unfold run. revert s.
  induction cs as [|c cs IH]; intros s; simpl; [reflexivity|].
  rewrite IH. apply invoke_A.
Qed.

(** C10.  Whatever member functions are called after construction, in any
    number and order (the decompositions, the empty strategies, the
    accessors, [solve] and [pseudoInverse]), [A()] still returns the matrix
    given to the constructor; [solve], [pseudoInverse] and the accessors
    leave the whole object as it is. *)
Theorem stored_matrix_is_never_modified (inverse : Matrix -> result Matrix)
    (A : Matrix) (cs : list call) :
  match QR_new A with
  | Ok s =>
      QR_A (run inverse cs s) = A /\
      snd (invoke inverse call_A (run inverse cs s)) = yielded A /\
      (forall b, fst (invoke inverse (call_solve b) (run inverse cs s))
                 = run inverse cs s) /\
      fst (invoke inverse call_pseudoInverse (run inverse cs s))
      = run inverse cs s
  | Throw _ => True
  end.
Proof.
  destruct (QR_new A) as [s|e] eqn:Hs; [|exact I].
  apply QR_new_fresh in Hs. subst s.
  assert (HA : QR_A (run inverse cs (QR_init A)) = A) by apply run_A.
  split_all; try reflexivity.
  - exact HA.
  - simpl. rewrite HA. reflexivity.
Qed.

(** Assignment, which the claim does not list, is the one member function
    that replaces [_A]: the object becomes a copy of the other one. *)
Lemma QR_assign_replaces (this other : QR) : QR_assign this other = other.
Proof. destruct other; reflexivity. Qed.

(** ** Constraint residuals *)




(** C7.  [clone()] of any constraint residual raises
    [std::runtime_error("Not implemented")]; it returns no copy. *)
Theorem clone_not_implemented (e : ErrorFunctions) :
  clone e = Throw (runtime_error "Not implemented") /\
  (forall copy : Function, clone e <> Ok copy).
Proof.
  split; [reflexivity|]. intros copy H. discriminate H.
Qed.

(** C9.  The distance residual over the unknowns x1, y1, x2, y2 with target
    [d] evaluates to sqrt((x2-x1)^2 + (y2-y1)^2) - d; with target 1 and the
    points (0,0) and (3,4) it is 4, and the coincidence residual of the
    points (2,2) and (2,2) is 0. *)
Theorem point_point_distance_value :
  (forall (env : store) (x1 y1 x2 y2 : Variable_ptr) (d : R),
     ErrorFunctions_evaluate env (PointPointDistanceError [x1; y1; x2; y2] d) =
     sqrt ((env x2 - env x1) * (env x2 - env x1) +
           (env y2 - env y1) * (env y2 - env y1)) - d) /\
  ErrorFunctions_evaluate (store_of [0; 0; 3; 4])
    (PointPointDistanceError [0; 1; 2; 3]%nat 1) = 4 /\
  ErrorFunctions_evaluate (store_of [2; 2; 2; 2])
    (PointOnPointError [0; 1; 2; 3]%nat) = 0.
Proof.
  split_all.
  - intros. reflexivity.
  - unfold ErrorFunctions_evaluate, store_of; simpl.
    replace ((3 - 0) * (3 - 0) + (4 - 0) * (4 - 0)) with (5 * 5) by lra.
    rewrite sqrt_square by lra. lra.
  - unfold ErrorFunctions_evaluate, PointOnPointError, store_of; simpl.
    replace ((2 - 2) * (2 - 2) + (2 - 2) * (2 - 2)) with 0 by lra.
    rewrite sqrt_0. lra.
Qed.

(** ** Further properties of the decompositions *)

(** For the 1 x 1 matrix [[x]] both methods compute the norm as
    [sqrt(0 + x * x)] in double arithmetic.  If it is above the tolerance,
    they return [Q = [[x / norm]]] and [R = [[norm]]]; otherwise [Q] is
    [[0]], and [R] is [[0]] after the classical method and [[norm]] after
    the modified one.  So [[5]] gives [Q = [[1]]] and [R = [[5]]]; for
    [[1e200]] the square overflows, [R] is [[infinity]] and [Q] is [[0]];
    for [[1e-170]] the square underflows to 0 and the column is dropped. *)
Theorem qr_one_by_one (x : float) :
  Double.qr (Double.QR_init (Double.matrix1 x)) =
  Double.qrCGS (Double.QR_init (Double.matrix1 x)) /\
  Double.qrCGS (Double.QR_init (Double.matrix1 x)) =
    (if PrimFloat.ltb Double.epsilon (PrimFloat.sqrt (0 + x * x))
     then Double.mkQR (Double.matrix1 x)
            (Double.matrix1 (x / PrimFloat.sqrt (0 + x * x)))
            (Double.matrix1 (PrimFloat.sqrt (0 + x * x)))
     else Double.mkQR (Double.matrix1 x) (Double.matrix1 0) (Double.matrix1 0)) /\
  Double.qrMGS (Double.QR_init (Double.matrix1 x)) =
    (if PrimFloat.ltb Double.epsilon (PrimFloat.sqrt (0 + x * x))
     then Double.mkQR (Double.matrix1 x)
            (Double.matrix1 (x / PrimFloat.sqrt (0 + x * x)))
            (Double.matrix1 (PrimFloat.sqrt (0 + x * x)))
     else Double.mkQR (Double.matrix1 x) (Double.matrix1 0)
            (Double.matrix1 (PrimFloat.sqrt (0 + x * x)))) /\
  (Double.qrCGS (Double.QR_init (Double.matrix1 5)) =
   Double.mkQR (Double.matrix1 5) (Double.matrix1 1) (Double.matrix1 5) /\
   Double.qrMGS (Double.QR_init (Double.matrix1 5)) =
   Double.mkQR (Double.matrix1 5) (Double.matrix1 1) (Double.matrix1 5)) /\
  (Double.qrCGS (Double.QR_init (Double.matrix1 1e200)) =
   Double.mkQR (Double.matrix1 1e200) (Double.matrix1 0)
               (Double.matrix1 PrimFloat.infinity) /\
   Double.qrMGS (Double.QR_init (Double.matrix1 1e200)) =
   Double.mkQR (Double.matrix1 1e200) (Double.matrix1 0)
               (Double.matrix1 PrimFloat.infinity)) /\
  (Double.qrCGS (Double.QR_init (Double.matrix1 1e-170)) =
   Double.mkQR (Double.matrix1 1e-170) (Double.matrix1 0) (Double.matrix1 0) /\
   Double.qrMGS (Double.QR_init (Double.matrix1 1e-170)) =
   Double.mkQR (Double.matrix1 1e-170) (Double.matrix1 0) (Double.matrix1 0)).
Proof.
  split_all; try reflexivity; try (vm_compute; reflexivity).
  - unfold Double.qrCGS, Double.QR_init, Double.matrix1. cbn.
    destruct (PrimFloat.ltb _ _); reflexivity.
  - unfold Double.qrMGS, Double.QR_init, Double.matrix1. cbn.
    destruct (PrimFloat.ltb _ _); reflexivity.
Qed.

(** Both methods read [_A] only and build [_Q] and [_R] anew: what a
    decomposition returns does not depend on the factors the object held
    before, and running a method again, or the other method, overwrites
    them. *)
Theorem decomposition_overwrites_factors (s : Double.QR) :
  Double.qrCGS s = Double.qrCGS (Double.QR_init (Double.QR_A s)) /\
  Double.qrMGS s = Double.qrMGS (Double.QR_init (Double.QR_A s)) /\
  Double.qrCGS (Double.qrCGS s) = Double.qrCGS s /\
  Double.qrCGS (Double.qrMGS s) = Double.qrCGS s /\
  Double.qrMGS (Double.qrCGS s) = Double.qrMGS s /\
  Double.qrMGS (Double.qrMGS s) = Double.qrMGS s.
Proof.
  assert (HC : forall t, Double._A t = Double._A s ->
                         Double.qrCGS t = Double.qrCGS s).
  { intros t Ht. unfold Double.qrCGS. rewrite Ht. reflexivity. }
  assert (HM : forall t, Double._A t = Double._A s ->
                         Double.qrMGS t = Double.qrMGS s).
  { intros t Ht. unfold Double.qrMGS. rewrite Ht. reflexivity. }
  split_all.
  - symmetry. apply HC. reflexivity.
  - symmetry. apply HM. reflexivity.
  - apply HC, double_qrCGS_inv.
  - apply HC, double_qrMGS_inv.
  - apply HM, double_qrCGS_inv.
  - apply HM, double_qrMGS_inv.
Qed.

(** In double arithmetic the factors that the classical method returns obey
    its recurrences operation by operation, whatever the matrix: for every
    column [i], the entries [R(j,i)] above the diagonal are the rounded
    scalar products of column [i] of [A] with the columns [j] of [Q]; and,
    for [i < min(m, n)], with [u_i] the column less those components and
    [normVec] the rounded norm of [u_i], either [normVec] is above the
    tolerance, [R(i,i) = normVec] and column [i] of [Q] is [u_i / normVec],
    or [R(i,i)] is 0 and column [i] of [Q] is zero. *)
Theorem qrCGS_recurrences (s : Double.QR) (i : nat) :
  (i < Double.cols_size (Double.QR_A s))%nat ->
  Double.cgs_recurrence (Double.QR_A s)
    (Double.rows_size (Double.QR_A s))
    (Nat.min (Double.rows_size (Double.QR_A s))
             (Double.cols_size (Double.QR_A s)))
    (Double.QR_Q (Double.qrCGS s)) (Double.QR_R (Double.qrCGS s)) i.
Proof.
  intros Hi.
  pose proof (double_cgs_recurrence_fold (Double._A s)
                (Double.rows_size (Double._A s))
                (Nat.min (Double.rows_size (Double._A s))
                         (Double.cols_size (Double._A s)))
                (Double.cols_size (Double._A s))
                (Double.cols_size (Double._A s))
                ltac:(lia) ltac:(lia) i Hi) as H.
  unfold Double.qrCGS, Double.QR_A in *.
  destruct (fold_left _ _ _) as [Qm Rm]. exact H.
Qed.

Lemma qrCGS_recurrences_witness :
  (2 < 3)%nat /\
  Double.cgs_recurrence Double.nearly_parallel 4 3
    (Double.QR_Q (Double.qrCGS (Double.QR_init Double.nearly_parallel)))
    (Double.QR_R (Double.qrCGS (Double.QR_init Double.nearly_parallel))) 2.
Proof.
  split; [lia|].
  apply (qrCGS_recurrences (Double.QR_init Double.nearly_parallel) 2).
  simpl. lia.
Defined.

(** In double arithmetic the factors that the modified method returns obey
    its recurrences operation by operation, whatever the matrix: for every
    column [j < min(m, n)], with [v_j] column [j] of [A] less its components
    on the kept columns before it, [R(j,j)] is the rounded norm of [v_j];
    if it is above the tolerance, column [j] of [Q] is [v_j / R(j,j)] and
    each [R(j,k)] to the right is the rounded scalar product of that column
    with vector [k] as the earlier passes left it; otherwise column [j] of
    [Q] and the entries of [R] to the right are zero. *)
Theorem qrMGS_recurrences (s : Double.QR) (j : nat) :
  (j < Nat.min (Double.rows_size (Double.QR_A s))
               (Double.cols_size (Double.QR_A s)))%nat ->
  Double.mgs_recurrence (Double.QR_A s)
    (Double.rows_size (Double.QR_A s)) (Double.cols_size (Double.QR_A s))
    (Double.QR_Q (Double.qrMGS s)) (Double.QR_R (Double.qrMGS s)) j.
Proof.
  intros Hj.
  pose proof (double_mgs_recurrence_fold (Double._A s)
                (Double.rows_size (Double._A s))
                (Nat.min (Double.rows_size (Double._A s))
                         (Double.cols_size (Double._A s)))
                (Double.cols_size (Double._A s))
                (Nat.min (Double.rows_size (Double._A s))
                         (Double.cols_size (Double._A s)))
                ltac:(lia) ltac:(lia)) as H.
  unfold Double.qrMGS, Double.QR_A in *.
  destruct (fold_left _ _ _) as [[Qm Rm] V].
  destruct (H Qm Rm V eq_refl) as (_ & _ & Hrec). apply Hrec, Hj.
Qed.

Lemma qrMGS_recurrences_witness :
  (2 < Nat.min 4 3)%nat /\
  Double.mgs_recurrence Double.nearly_parallel 4 3
    (Double.QR_Q (Double.qrMGS (Double.QR_init Double.nearly_parallel)))
    (Double.QR_R (Double.qrMGS (Double.QR_init Double.nearly_parallel))) 2.
Proof.
  split; [simpl; lia|].
  apply (qrMGS_recurrences (Double.QR_init Double.nearly_parallel) 2).
  simpl. lia.
Defined.

(** [solve] on the identity of size 3 and the right-hand side (1, 2, 3). *)
Lemma solve_identity3_witness :
  solve inverse_by_cofactors (qr (QR_init (identity 3))) rhs3 =
  bind (inverse_by_cofactors (identity 3)) (fun _ => Ok rhs3).
Proof.
  apply (solve_identity3 inverse_by_cofactors rhs3).
  - split; simpl; auto.
  - reflexivity.
Defined.

(** In double arithmetic the two methods do not return the same factors.
    On [Double.three_by_three] both keep every column, and the entry
    [R(1,2)] is 1.5075567228888356 after the classical method and
    1.507556722888818 after the modified one: the classical method projects
    the original column, the modified one the column already reduced. *)
Theorem classical_and_modified_differ :
  (forall c, (c < 3)%nat ->
     Double.kept
       (Double.QR_R (Double.qrCGS (Double.QR_init Double.three_by_three))) c
     = true /\
     Double.kept
       (Double.QR_R (Double.qrMGS (Double.QR_init Double.three_by_three))) c
     = true) /\
  Double.mat
    (Double.QR_R (Double.qrCGS (Double.QR_init Double.three_by_three))) 1 2
  = 1.5075567228888356%float /\
  Double.mat
    (Double.QR_R (Double.qrMGS (Double.QR_init Double.three_by_three))) 1 2
  = 1.507556722888818%float /\
  Double.qrCGS (Double.QR_init Double.three_by_three) <>
  Double.qrMGS (Double.QR_init Double.three_by_three).
Proof.
  split_all; try (vm_compute; reflexivity).
  - intros c Hc.
    destruct c as [|[|[|c]]]; try lia; split; vm_compute; reflexivity.
  - intros H.
    apply (f_equal (fun d => Prim2SF (Double.mat (Double.QR_R d) 1 2))) in H.
    vm_compute in H. discriminate H.
Qed.


(** * The graph container: [src/headers/graph/Graph.h] *)

From stdpp Require Import gmap.

Module GraphH.

(** The two exceptions [Graph.h] throws. *)
Inductive fault : Type :=
| invalid_argument (what : string)
| runtime_error (what : string).

(** What a member function that may throw hands back. *)
Inductive may_throw (T : Type) : Type :=
| Returns (x : T)
| Throws (e : fault).
Arguments Returns {T} x.
Arguments Throws {T} e.

(** The constants the two policy classes of [Politicians.h] provide,
    [DirectedPolicyType::isDirected] and [WeightedPolicyType::isWeighted].
    [Politicians.h] is not among the sources: a policy is a parameter of the
    graph, as the template parameter is in the source. *)
Class DirectedPolicyType : Type := { isDirected : bool }.
Class WeightedPolicyType : Type := { isWeighted : bool }.

(** The value-initialised weight [WeightType()], to which [addEdge] compares
    its argument. *)
Class DefaultWeight (WeightType : Type) : Type := {
  WeightType_default : WeightType
}.

Section Graph.

(** The template parameters: the vertex type (hashable, with equality), the
    weight type with its equality and its default value, and the two
    policies. *)
Context {VertexType : Type} {VertexType_eq : EqDecision VertexType}
        {VertexType_hash : Countable VertexType}.
Context {WeightType : Type} {WeightType_eq : EqDecision WeightType}
        {WeightType_init : DefaultWeight WeightType}.
Context {directed_policy : DirectedPolicyType}
        {weighted_policy : WeightedPolicyType}.

(** Modelled from the spec: [Edge<VertexType, WeightType>] is declared in
    [GraphObjects.h], which is not among the sources, and the spec says
    nothing of it.  The record has the members [Graph.h] reads and writes,
    [from], [to] and [weight], and the constructor it calls,
    [Edge(from, to, weight)]. *)
Record Edge : Type := mkEdge {
  from : VertexType;
  to : VertexType;
  weight : WeightType
}.

(** The two private members.  An [std::unordered_set] is a finite set, an
    [std::unordered_map] a finite map; the order of their iteration is not
    modelled. *)
Record Graph : Type := mkGraph {
  _vertices : gset VertexType;
  _adjacencyList : gmap VertexType (list Edge)
}.

(** [Graph() = default]. *)
Definition empty_graph : Graph := mkGraph ∅ ∅.

(** [_adjacencyList.emplace(vertex, {})]: no effect on a key that is there. *)
Definition emplace_empty (adj : gmap VertexType (list Edge)) (vertex : VertexType)
    : gmap VertexType (list Edge) :=
  match adj !! vertex with
  | Some _ => adj
  | None => <[vertex := []]> adj
  end.

(** [_adjacencyList[key]]: the list at [key], first created empty when the
    key is not there. *)
Definition index (adj : gmap VertexType (list Edge)) (key : VertexType)
    : list Edge :=
  default [] (adj !! key).

(** [Graph::addVertex], one pack element. *)
Definition addVertex1 (g : Graph) (vertex : VertexType) : Graph :=
  mkGraph ({[vertex]} ∪ _vertices g) (emplace_empty (_adjacencyList g) vertex).

(** [Graph::addVertex]: the pack expansion inside the braced list handles the
    arguments from left to right. *)
Definition addVertex (g : Graph) (vertex : list VertexType) : Graph :=
  foldl addVertex1 g vertex.

(** [Graph::hasVertex]. *)
Definition hasVertex (g : Graph) (v : VertexType) : bool :=
  bool_decide (v ∈ _vertices g).

(** [Graph::hasVertices]: the fold of [&&] over the pack. *)
Definition hasVertices (g : Graph) (vertex : list VertexType) : bool :=
  forallb (hasVertex g) vertex.

(** [Graph::hasEdge]. *)
Definition hasEdge (g : Graph) (from' to' : VertexType) : bool :=
  match _adjacencyList g !! from' with
  | Some edges => existsb (fun e => bool_decide (to e = to')) edges
  | None => false
  end.

(** [Graph::getVertices], in the order the set happens to list them. *)
Definition getVertices (g : Graph) : list VertexType := elements (_vertices g).

(** [Graph::getAdjacencyList]. *)
Definition getAdjacencyList (g : Graph) : gmap VertexType (list Edge) :=
  _adjacencyList g.

(** [Graph::getVertexEdges]. *)
Definition getVertexEdges (g : Graph) (v : VertexType) : may_throw (list Edge) :=
  match _adjacencyList g !! v with
  | Some edges => Returns edges
  | None => Throws (runtime_error "Vertex not found")
  end.

(** [Graph::vertexCount]. *)
Definition vertexCount (g : Graph) : nat := size (_vertices g).

(** [Graph::isDirected]. *)
Definition Graph_isDirected (g : Graph) : bool := isDirected.

(** [Graph::isWeighted]. *)
Definition Graph_isWeighted (g : Graph) : bool := isWeighted.

(** [Graph::addEdge]: the new graph and the returned flag, or the exception. *)
Definition addEdge (g : Graph) (from' to' : VertexType) (weight' : WeightType)
    : may_throw (Graph * bool) :=
  if negb (hasVertex g from') || negb (hasVertex g to') then Returns (g, false)
  else if isWeighted && bool_decide (weight' = WeightType_default) then
    Throws (invalid_argument "should be use weight arg in weighted graph.")
  else if negb isWeighted && negb (bool_decide (weight' = WeightType_default)) then
    Throws (invalid_argument "do not use weight arg in unweighted graph.")
  else if (if isDirected then hasEdge g from' to'
           else hasEdge g from' to' || hasEdge g to' from') then
    Returns (g, false)
  else
    let adj := _adjacencyList g in
    let adj := <[from' := index adj from' ++ [mkEdge from' to' weight']]> adj in
    let adj :=
      if isDirected then adj
      else <[to' := index adj to' ++ [mkEdge to' from' weight']]> adj in
    Returns (mkGraph (_vertices g) adj, true).

(** [edges.erase(std::remove_if(..., edge.to == v), edges.end())]. *)
Definition erase_to (v : VertexType) (edges : list Edge) : list Edge :=
  List.filter (fun e => negb (bool_decide (to e = v))) edges.

(** [Graph::removeEdge]. *)
Definition removeEdge (g : Graph) (from' to' : VertexType) : Graph * bool :=
  if negb (hasVertex g from') || negb (hasVertex g to') then (g, false)
  else
    let adj := _adjacencyList g in
    let originalSize := length (index adj from') in
    let fromEdges := erase_to to' (index adj from') in
    let adj := <[from' := fromEdges]> adj in
    let removed := negb (length fromEdges =? originalSize)%nat in
    if isDirected then (mkGraph (_vertices g) adj, removed)
    else
      let originalSize := length (index adj to') in
      let toEdges := erase_to from' (index adj to') in
      let adj := <[to' := toEdges]> adj in
      let removed := removed || negb (length toEdges =? originalSize)%nat in
      (mkGraph (_vertices g) adj, removed).

(** The loop of [setEdgeWeight] over one edge list: the weight of the first
    edge to [v] is overwritten; the flag tells whether there was one. *)
Fixpoint set_first_weight (v : VertexType) (w : WeightType) (edges : list Edge)
    : list Edge * bool :=
  match edges with
  | [] => ([], false)
  | edge :: rest =>
      if bool_decide (to edge = v)
      then (mkEdge (from edge) (to edge) w :: rest, true)
      else let '(rest', found) := set_first_weight v w rest in
           (edge :: rest', found)
  end.

(** [Graph::setEdgeWeight].  The source dereferences [find(from)] and
    [find(to)] unchecked; both keys are there in every graph the member
    functions build, and a missing key is left alone here. *)
Definition setEdgeWeight (g : Graph) (from' to' : VertexType) (weight' : WeightType)
    : may_throw (Graph * bool) :=
  if hasVertex g from' && hasVertex g to' then
    if negb isWeighted then
      Throws (invalid_argument "Cannot set weight on an unweighted graph.")
    else
      let adj := _adjacencyList g in
      let '(adj, found) :=
        match adj !! from' with
        | Some edges =>
            let '(edges', found) := set_first_weight to' weight' edges in
            (<[from' := edges']> adj, found)
        | None => (adj, false)
        end in
      let adj :=
        if isDirected then adj
        else match adj !! to' with
             | Some edges => <[to' := fst (set_first_weight from' weight' edges)]> adj
             | None => adj
             end in
      Returns (mkGraph (_vertices g) adj, found)
  else Returns (g, false).

(** The loop of [getEdgeWeight] over one edge list. *)
Definition first_weight (v : VertexType) (edges : list Edge) : option WeightType :=
  weight <$> List.find (fun e => bool_decide (to e = v)) edges.

(** [Graph::getEdgeWeight]. *)
Definition getEdgeWeight (g : Graph) (from' to' : VertexType) : may_throw WeightType :=
  if hasVertex g from' && hasVertex g to' then
    if negb isWeighted then
      Throws (invalid_argument "Cannot get weight on an unweighted graph.")
    else
      match _adjacencyList g !! from' ≫= first_weight to' with
      | Some w => Returns w
      | None => Throws (invalid_argument "EdgeType does not exist.")
      end
  else Throws (invalid_argument "One or both vertices do not exist.").

(** [Graph::removeVertex].  In the undirected branch the source walks the
    edge list of [v] while it erases from the lists of the neighbours; with a
    loop from [v] to itself it would erase from the list it is walking, so
    no statement below is about that case. *)
Definition removeVertex (g : Graph) (v : VertexType) : Graph * bool :=
  if negb (hasVertex g v) then (g, false)
  else
    let vertices := _vertices g ∖ {[v]} in
    let adj := _adjacencyList g in
    if isDirected then
      (mkGraph vertices (erase_to v <$> delete v adj), true)
    else
      let adj :=
        match adj !! v with
        | Some vec =>
            foldl (fun adj elem =>
                     match adj !! to elem with
                     | Some vec2 => <[to elem := erase_to v vec2]> adj
                     | None => adj
                     end) adj vec
        | None => adj
        end in
      (mkGraph vertices (delete v adj), true).

(** [Graph::DFS].  The recursion of the source ends because every call marks
    a vertex that was not marked; here it is bounded by [fuel], and [None]
    means that the bound was too small. *)
Fixpoint DFS (g : Graph) (fuel : nat) (v : VertexType)
    (st : gset VertexType * list VertexType)
    : option (gset VertexType * list VertexType) :=
  match fuel with
  | O => None
  | S fuel =>
      let '(visited, component) := st in
      let st := ({[v]} ∪ visited, component ++ [v]) in
      match _adjacencyList g !! v with
      | Some edges =>
          foldl (fun r e =>
                   st ← r;
                   if bool_decide (to e ∈ st.1) then Some st
                   else DFS g fuel (to e) st)
                (Some st) edges
      | None => Some st
      end
  end.

(** Every vertex the container knows: the vertex set, the keys of the
    adjacency list and the targets of the stored edges.  It is no part of the
    source; its size bounds the depth of the recursion of [DFS]. *)
Definition universe (g : Graph) : gset VertexType :=
  _vertices g ∪ dom (_adjacencyList g) ∪
  list_to_set (to <$> mjoin (snd <$> map_to_list (_adjacencyList g))).

(** [Graph::findConnectedComponent], with one unit of fuel for each vertex
    that can be marked. *)
Definition findConnectedComponent (g : Graph) (start : VertexType)
    : list VertexType :=
  if hasVertex g start then
    match DFS g (size (universe g)) start (∅, []) with
    | Some (_, component) => component
    | None => []
    end
  else [].


(** ** Vocabulary of the statements about the graph *)

(** The weight the container answers for the pair [(u, w)]: that of the first
    edge to [w] in the list stored under [u], if there is one. *)
Definition weight_of (g : Graph) (u w : VertexType) : option WeightType :=
  first_weight w (index (_adjacencyList g) u).

(** [e] is in the edge list stored under [u]. *)
Definition stored (g : Graph) (u : VertexType) (e : Edge) : Prop :=
  e ∈ index (_adjacencyList g) u.

(** [w] can be reached from [u] along stored edges. *)
Definition reachable (g : Graph) : relation VertexType :=
  rtc (fun u w => hasEdge g u w = true).

(** The representation invariant: the keys of the adjacency list are the
    vertices; an edge is stored under its source and leads to a vertex; an
    undirected graph answers the same for [(u, w)] and [(w, u)]; the edges of
    an unweighted graph carry the default weight. *)
Record wf_graph (g : Graph) : Prop := {
  wf_keys : dom (_adjacencyList g) = _vertices g;
  wf_from : ∀ u e, stored g u e → from e = u;
  wf_to : ∀ u e, stored g u e → to e ∈ _vertices g;
  wf_sym : isDirected = false → ∀ u w, weight_of g u w = weight_of g w u;
  wf_unweighted :
    isWeighted = false → ∀ u e, stored g u e → weight e = WeightType_default
}.

(** No two edges of one list lead to the same vertex.  In an undirected
    graph this holds of the edges to other vertices: a loop is stored
    twice, once for each end. *)
Definition simple (g : Graph) : Prop :=
  ∀ u, NoDup (to <$> (if isDirected then index (_adjacencyList g) u
                      else erase_to u (index (_adjacencyList g) u))).

(** The graphs a program can build: the empty one, and what the member
    functions that change the container return.  [removeVertex] on a vertex
    of an undirected graph that has a loop is left out (see [removeVertex]). *)
Inductive built : Graph → Prop :=
| built_empty : built empty_graph
| built_addVertex g vertex : built g → built (addVertex g vertex)
| built_addEdge g from' to' weight' g' flag :
    built g → addEdge g from' to' weight' = Returns (g', flag) → built g'
| built_removeEdge g from' to' :
    built g → built (removeEdge g from' to').1
| built_setEdgeWeight g from' to' weight' g' flag :
    built g → setEdgeWeight g from' to' weight' = Returns (g', flag) → built g'
| built_removeVertex g v :
    built g → isDirected = true ∨ hasEdge g v v = false →
    built (removeVertex g v).1.

(** What a call of [DFS] on an unmarked vertex [v] adds: the vertices [new],
    [v] first, none of them marked before or listed twice, all of them
    reachable from [v], and every edge that leaves one of them ends at a
    marked vertex. *)
Definition DFS_adds (g : Graph) (v : VertexType)
    (st st' : gset VertexType * list VertexType) : Prop :=
  ∃ new,
    st'.2 = st.2 ++ v :: new ∧
    st'.1 = st.1 ∪ list_to_set (v :: new) ∧
    NoDup (v :: new) ∧
    (∀ x, x ∈ v :: new → x ∉ st.1) ∧
    (∀ x, x ∈ v :: new → reachable g v x) ∧
    (∀ x y, x ∈ v :: new → hasEdge g x y = true → y ∈ st'.1).

End Graph.

(** ** Examples *)

(** The policies of the examples: an undirected weighted graph whose weights
    are natural numbers, with the default weight 0. *)
Definition undirected : DirectedPolicyType := {| isDirected := false |}.
Definition weighted : WeightedPolicyType := {| isWeighted := true |}.
Definition nat_weight : DefaultWeight nat := {| WeightType_default := 0 |}.

(** The three vertices 1, 2 and 3 without an edge. *)
Definition three_vertices : Graph (VertexType := nat) (WeightType := nat) :=
  addVertex empty_graph [1; 2; 3].

(** The undirected weighted graph on them with the edge 1 - 2 of weight 5. *)
Definition one_edge : Graph (VertexType := nat) (WeightType := nat) :=
  mkGraph {[1; 2; 3]}
          {[1 := [mkEdge 1 2 5]; 2 := [mkEdge 2 1 5]; 3 := []]}.

(** The same graph with the edge 2 - 3 of weight 7 added. *)
Definition two_edges : Graph (VertexType := nat) (WeightType := nat) :=
  mkGraph {[1; 2; 3]}
          {[1 := [mkEdge 1 2 5];
            2 := [mkEdge 2 1 5; mkEdge 2 3 7];
            3 := [mkEdge 3 2 7]]}.

(** The same graph with the weight of the edge 2 - 3 set to 9. *)
Definition two_edges_reweighted : Graph (VertexType := nat) (WeightType := nat) :=
  mkGraph {[1; 2; 3]}
          {[1 := [mkEdge 1 2 5];
            2 := [mkEdge 2 1 5; mkEdge 2 3 9];
            3 := [mkEdge 3 2 9]]}.

(** The three vertices with a loop of weight 4 at the vertex 3. *)
Definition looped : Graph (VertexType := nat) (WeightType := nat) :=
  mkGraph {[1; 2; 3]}
          {[1 := []; 2 := []; 3 := [mkEdge 3 3 4; mkEdge 3 3 4]]}.

(** ** Proofs about the graph *)

Section GraphProofs.

Context {VertexType : Type} {VertexType_eq : EqDecision VertexType}
        {VertexType_hash : Countable VertexType}.
Context {WeightType : Type} {WeightType_eq : EqDecision WeightType}
        {WeightType_init : DefaultWeight WeightType}.
Context {directed_policy : DirectedPolicyType}
        {weighted_policy : WeightedPolicyType}.

(** The types of the section before, at the parameters of this one. *)
Local Abbreviation Edge := (@Edge VertexType WeightType) (only parsing).
Local Abbreviation Graph := (@Graph VertexType _ _ WeightType) (only parsing).

Implicit Types (g : Graph) (e : Edge) (l edges vec : list Edge).
Implicit Types (adj : gmap VertexType (list Edge)).
Implicit Types (u v w y start from to : VertexType).
Implicit Types (weight : WeightType) (vertex : list VertexType).

(** *** Edge lists *)

Lemma first_weight_nil v : first_weight v ([] : list Edge) = None.
Proof. reflexivity. Qed.

Lemma first_weight_cons v e l :
  first_weight v (e :: l) =
  if bool_decide (to e = v) then Some (weight e) else first_weight v l.
Proof. unfold first_weight. simpl. by destruct (bool_decide _). Qed.

Lemma first_weight_app v l1 l2 :
  first_weight v (l1 ++ l2) =
  match first_weight v l1 with
  | Some w => Some w
  | None => first_weight v l2
  end.
Proof.
  induction l1 as [|e l1 IH]; [done|].
  rewrite <- app_comm_cons, !first_weight_cons.
  by destruct (bool_decide _).
Qed.

Lemma existsb_first_weight v l :
  existsb (fun e => bool_decide (to e = v)) l = bool_decide (is_Some (first_weight v l)).
Proof.
  induction l as [|e l IH].
  - done.
  - rewrite first_weight_cons. simpl. destruct (bool_decide (to e = v)); simpl.
    + done.
    + done.
Qed.

Lemma first_weight_None v l :
  first_weight v l = None ↔ ∀ e, e ∈ l → to e ≠ v.
Proof.
  induction l as [|e l IH].
  - split; [|done]. intros _ e He. by apply elem_of_nil in He.
  - rewrite first_weight_cons. case_bool_decide as Hv.
    + split; [done|]. intros Hl. destruct (Hl e); [left|done].
    + rewrite IH. split.
      * intros Hl e' [->|He']%elem_of_cons; auto.
      * intros Hl e' He'. apply Hl. by right.
Qed.

Lemma first_weight_Some v l x :
  first_weight v l = Some x → ∃ e, e ∈ l ∧ to e = v ∧ weight e = x.
Proof.
  induction l as [|e l IH]; [done|].
  rewrite first_weight_cons. case_bool_decide as Hv.
  - intros [= <-]. exists e. split; [left|done].
  - intros (e' & He' & ?)%IH. exists e'. split; [by right|done].
Qed.

Lemma first_weight_erase_to v w l :
  first_weight w (erase_to v l) =
  if bool_decide (w = v) then None else first_weight w l.
Proof.
  induction l as [|e l IH].
  - by destruct (bool_decide _).
  - unfold erase_to in *. simpl. rewrite first_weight_cons.
    destruct (bool_decide (to e = v)) eqn:Hev; simpl.
    + apply bool_decide_eq_true in Hev. rewrite IH.
      repeat case_bool_decide; congruence.
    + apply bool_decide_eq_false in Hev. rewrite first_weight_cons, IH.
      repeat case_bool_decide; congruence.
Qed.

Lemma elem_of_erase_to v e l :
  e ∈ erase_to v l ↔ e ∈ l ∧ to e ≠ v.
Proof.
  unfold erase_to. rewrite !list_elem_of_In, filter_In.
  rewrite negb_true_iff, bool_decide_eq_false. done.
Qed.

Lemma erase_to_id v l :
  first_weight v l = None → erase_to v l = l.
Proof.
  rewrite first_weight_None. induction l as [|e l IH]; [done|].
  intros Hl. unfold erase_to in *. simpl.
  rewrite bool_decide_false by (apply Hl; left). simpl.
  f_equal. apply IH. intros e' He'. apply Hl. by right.
Qed.

Lemma erase_to_app v l1 l2 :
  erase_to v (l1 ++ l2) = erase_to v l1 ++ erase_to v l2.
Proof. apply List.filter_app. Qed.

Lemma erase_to_length v l :
  (length (erase_to v l) =? length l)%nat = negb (bool_decide (is_Some (first_weight v l))).
Proof.
  assert (Hle : ∀ l, length (erase_to v l) ≤ length l).
  { intros l'. apply List.filter_length_le. }
  induction l as [|e l IH].
  - done.
  - rewrite first_weight_cons. unfold erase_to in *. simpl.
    destruct (bool_decide (to e = v)); simpl.
    + apply Nat.eqb_neq. specialize (Hle l). unfold erase_to in Hle. lia.
    + exact IH.
Qed.

Lemma set_first_weight_found v x l :
  (set_first_weight v x l).2 = bool_decide (is_Some (first_weight v l)).
Proof.
  induction l as [|e l IH].
  - done.
  - simpl. rewrite first_weight_cons. destruct (bool_decide (to e = v)); simpl.
    + done.
    + destruct (set_first_weight v x l). exact IH.
Qed.

Lemma first_weight_set_first v x w l :
  first_weight w (set_first_weight v x l).1 =
  if bool_decide (w = v) then const x <$> first_weight v l
  else first_weight w l.
Proof.
  induction l as [|e l IH].
  - simpl. by destruct (bool_decide _).
  - simpl. rewrite !first_weight_cons.
    destruct (bool_decide (to e = v)) eqn:Hev; simpl.
    + apply bool_decide_eq_true in Hev. rewrite first_weight_cons. simpl.
      repeat case_bool_decide; congruence.
    + apply bool_decide_eq_false in Hev.
      destruct (set_first_weight v x l) as [l' b]. simpl in *.
      rewrite first_weight_cons, IH.
      repeat case_bool_decide; congruence.
Qed.

Lemma elem_of_set_first_weight v x e l :
  e ∈ (set_first_weight v x l).1 →
  e ∈ l ∨ ∃ e0, e0 ∈ l ∧ e = mkEdge (from e0) (to e0) x.
Proof.
  induction l as [|e0 l IH]; [by left|].
  simpl. destruct (bool_decide (to e0 = v)); simpl.
  - intros [->|He]%elem_of_cons.
    + right. exists e0. split; [left|done].
    + left. by right.
  - destruct (set_first_weight v x l) as [l' b]. simpl in *.
    intros [->|He]%elem_of_cons; [left; left|].
    destruct (IH He) as [?|(e1 & ? & ?)]; [left; by right|].
    right. exists e1. split; [by right|done].
Qed.

Lemma erase_to_nil v : erase_to v ([] : list Edge) = [].
Proof. reflexivity. Qed.

Lemma erase_to_new u v (x : WeightType) : erase_to v [mkEdge u v x] = [].
Proof. unfold erase_to. simpl. by rewrite bool_decide_true. Qed.

(** *** The adjacency list *)

Lemma index_insert (adj : gmap VertexType (list Edge)) k l u :
  index (<[k := l]> adj) u = if bool_decide (u = k) then l else index adj u.
Proof.
  unfold index. rewrite lookup_insert.
  case_decide; case_bool_decide; subst; done.
Qed.

Lemma index_delete (adj : gmap VertexType (list Edge)) k u :
  index (delete k adj) u = if bool_decide (u = k) then [] else index adj u.
Proof.
  unfold index. rewrite lookup_delete.
  case_decide; case_bool_decide; subst; done.
Qed.

Lemma index_lookup (adj : gmap VertexType (list Edge)) u l :
  adj !! u = Some l → index adj u = l.
Proof. unfold index. by intros ->. Qed.

Lemma insert_index_id (adj : gmap VertexType (list Edge)) k :
  k ∈ dom adj → <[k := index adj k]> adj = adj.
Proof.
  intros [l Hl]%elem_of_dom. apply insert_id.
  by rewrite (index_lookup _ _ _ Hl).
Qed.

Lemma index_emplace_empty adj k u :
  index (emplace_empty adj k) u = index adj u.
Proof.
  unfold emplace_empty. destruct (adj !! k) eqn:Hk; [done|].
  rewrite index_insert. case_bool_decide; [|done].
  subst. unfold index. by rewrite Hk.
Qed.

Lemma dom_emplace_empty adj k :
  dom (emplace_empty adj k) = {[k]} ∪ dom adj.
Proof.
  unfold emplace_empty. destruct (adj !! k) eqn:Hk.
  - apply elem_of_dom_2 in Hk. set_solver.
  - by rewrite dom_insert_L.
Qed.

Lemma emplace_empty_id adj k :
  k ∈ dom adj → emplace_empty adj k = adj.
Proof. intros [l Hl]%elem_of_dom. unfold emplace_empty. by rewrite Hl. Qed.

Lemma hasEdge_weight_of g u w :
  hasEdge g u w = bool_decide (is_Some (weight_of g u w)).
Proof.
  unfold hasEdge, weight_of, index.
  destruct (_adjacencyList g !! u); simpl.
  - apply existsb_first_weight.
  - done.
Qed.

Lemma hasEdge_true g u w :
  hasEdge g u w = true ↔ is_Some (weight_of g u w).
Proof. by rewrite hasEdge_weight_of, bool_decide_eq_true. Qed.

Lemma hasEdge_false g u w :
  hasEdge g u w = false ↔ weight_of g u w = None.
Proof.
  rewrite hasEdge_weight_of, bool_decide_eq_false.
  by rewrite eq_None_not_Some.
Qed.

Lemma hasEdge_stored g u w :
  hasEdge g u w = true ↔ ∃ e, stored g u e ∧ to e = w.
Proof.
  rewrite hasEdge_true. unfold weight_of, stored. split.
  - intros [x (e & ? & ? & ?)%first_weight_Some]. eauto.
  - intros (e & He & Hw). apply not_eq_None_Some.
    rewrite first_weight_None. intros Hn. by apply (Hn e).
Qed.

Lemma hasVertex_true g v : hasVertex g v = true ↔ v ∈ _vertices g.
Proof. apply bool_decide_eq_true. Qed.

Lemma hasVertex_false g v : hasVertex g v = false ↔ v ∉ _vertices g.
Proof. apply bool_decide_eq_false. Qed.

(** Two graphs with the same vertices and the same adjacency list. *)
Lemma Graph_eq g1 g2 :
  _vertices g1 = _vertices g2 → _adjacencyList g1 = _adjacencyList g2 → g1 = g2.
Proof. destruct g1, g2. simpl. by intros -> ->. Qed.

(** An adjacency list is given by its keys and the lists under them. *)
Lemma adjacency_eq (adj1 adj2 : gmap VertexType (list Edge)) :
  dom adj1 = dom adj2 → (∀ u, index adj1 u = index adj2 u) → adj1 = adj2.
Proof.
  intros Hdom Hidx. apply map_eq. intros u.
  specialize (Hidx u). unfold index in Hidx.
  destruct (adj1 !! u) as [l1|] eqn:H1, (adj2 !! u) as [l2|] eqn:H2;
    simpl in Hidx; subst; try done.
  - apply elem_of_dom_2 in H1. apply not_elem_of_dom in H2. set_solver.
  - apply elem_of_dom_2 in H2. apply not_elem_of_dom in H1. set_solver.
Qed.

(** *** [addVertex] *)

Lemma addVertex_vertices g vertex :
  _vertices (addVertex g vertex) = list_to_set vertex ∪ _vertices g.
Proof.
  revert g. induction vertex as [|v vs IH]; intros g; simpl.
  - set_solver.
  - change (foldl addVertex1 (addVertex1 g v) vs)
      with (addVertex (addVertex1 g v) vs).
    rewrite IH. simpl. set_solver.
Qed.

Lemma addVertex_dom g vertex :
  dom (_adjacencyList (addVertex g vertex)) =
  list_to_set vertex ∪ dom (_adjacencyList g).
Proof.
  revert g. induction vertex as [|v vs IH]; intros g; simpl.
  - set_solver.
  - change (foldl addVertex1 (addVertex1 g v) vs)
      with (addVertex (addVertex1 g v) vs).
    rewrite IH. simpl.
    rewrite dom_emplace_empty. set_solver.
Qed.

Lemma addVertex_index g vertex u :
  index (_adjacencyList (addVertex g vertex)) u = index (_adjacencyList g) u.
Proof.
  revert g. induction vertex as [|v vs IH]; intros g; simpl; [done|].
  change (foldl addVertex1 (addVertex1 g v) vs)
      with (addVertex (addVertex1 g v) vs).
    rewrite IH. simpl. apply index_emplace_empty.
Qed.

Lemma addVertex_weight_of g vertex u w :
  weight_of (addVertex g vertex) u w = weight_of g u w.
Proof. unfold weight_of. by rewrite addVertex_index. Qed.

Lemma addVertex_stored g vertex u e :
  stored (addVertex g vertex) u e ↔ stored g u e.
Proof. unfold stored. by rewrite addVertex_index. Qed.

Lemma wf_empty_graph : wf_graph (empty_graph : Graph).
Proof.
  split; simpl.
  - apply dom_empty_L.
  - intros u e He. unfold stored, index in He. simpl in He.
    rewrite lookup_empty in He. by apply elem_of_nil in He.
  - intros u e He. unfold stored, index in He. simpl in He.
    rewrite lookup_empty in He. by apply elem_of_nil in He.
  - intros _ u w. unfold weight_of, index. simpl. by rewrite !lookup_empty.
  - intros _ u e He. unfold stored, index in He. simpl in He.
    rewrite lookup_empty in He. by apply elem_of_nil in He.
Qed.

Lemma wf_addVertex g vertex : wf_graph g → wf_graph (addVertex g vertex).
Proof.
  intros [Hk Hf Ht Hs Hu]. split.
  - rewrite addVertex_dom, addVertex_vertices, Hk. done.
  - intros u e He%addVertex_stored. eauto.
  - intros u e He%addVertex_stored. rewrite addVertex_vertices.
    apply elem_of_union_r. eauto.
  - intros Hd u w. rewrite !addVertex_weight_of. auto.
  - intros Hw u e He%addVertex_stored. eauto.
Qed.

(** *** [addEdge] *)

(** What [addEdge] has checked and done when it returns. *)
Lemma addEdge_false_inv g from' to' weight' g' :
  addEdge g from' to' weight' = Returns (g', false) → g' = g.
Proof.
  unfold addEdge. repeat (case_match; try done); by intros [= <-].
Qed.

Lemma addEdge_true_inv g from' to' weight' g' :
  addEdge g from' to' weight' = Returns (g', true) →
  from' ∈ _vertices g ∧ to' ∈ _vertices g ∧
  (if isWeighted then weight' ≠ WeightType_default
   else weight' = WeightType_default) ∧
  weight_of g from' to' = None ∧
  (isDirected = false → weight_of g to' from' = None) ∧
  _vertices g' = _vertices g ∧
  dom (_adjacencyList g') =
    {[from']} ∪ (if isDirected then ∅ else {[to']}) ∪ dom (_adjacencyList g) ∧
  ∀ u, index (_adjacencyList g') u =
       index (_adjacencyList g) u
       ++ (if bool_decide (u = from') then [mkEdge from' to' weight'] else [])
       ++ (if negb isDirected && bool_decide (u = to')
           then [mkEdge to' from' weight'] else []).
Proof.
  unfold addEdge.
  destruct (hasVertex g from') eqn:Hf; [|done].
  destruct (hasVertex g to') eqn:Ht; [|done]. simpl.
  apply hasVertex_true in Hf, Ht.
  assert (Hpolicy : isWeighted && bool_decide (weight' = WeightType_default) = false →
                    negb isWeighted && negb (bool_decide (weight' = WeightType_default)) = false →
                    if isWeighted then weight' ≠ WeightType_default
                    else weight' = WeightType_default).
  { destruct isWeighted; simpl.
    - intros Hw%bool_decide_eq_false _. done.
    - intros _ Hw%negb_false_iff%bool_decide_eq_true. done. }
  destruct (isWeighted && bool_decide (weight' = WeightType_default)); [done|].
  destruct (negb isWeighted && negb (bool_decide (weight' = WeightType_default)));
    [done|].
  specialize (Hpolicy eq_refl eq_refl).
  destruct isDirected.
  - destruct (hasEdge g from' to') eqn:He; [done|].
    apply hasEdge_false in He. intros [= <-]. simpl.
    split_and!; try done.
    + rewrite dom_insert_L. set_solver.
    + intros u. rewrite index_insert, app_nil_r.
      case_bool_decide as Hu; [by rewrite Hu|by rewrite app_nil_r].
  - destruct (hasEdge g from' to') eqn:He; [done|].
    destruct (hasEdge g to' from') eqn:He'; [done|]. simpl.
    apply hasEdge_false in He, He'. intros [= <-]. simpl.
    split_and!; try done.
    + rewrite !dom_insert_L. set_solver.
    + intros u. rewrite !index_insert.
      repeat case_bool_decide; subst; try done; simpl;
        rewrite ?app_nil_r, <- ?app_assoc; try done.
Qed.

Lemma addEdge_stored g from' to' weight' g' u e :
  addEdge g from' to' weight' = Returns (g', true) →
  stored g' u e ↔
  stored g u e ∨ (u = from' ∧ e = mkEdge from' to' weight') ∨
  (isDirected = false ∧ u = to' ∧ e = mkEdge to' from' weight').
Proof.
  intros (_ & _ & _ & _ & _ & _ & _ & Hidx)%addEdge_true_inv.
  unfold stored. rewrite Hidx, !elem_of_app.
  destruct isDirected; simpl; repeat case_bool_decide;
    rewrite ?list_elem_of_singleton, ?elem_of_nil; naive_solver.
Qed.

Lemma addEdge_weight_of g from' to' weight' g' u w :
  addEdge g from' to' weight' = Returns (g', true) →
  weight_of g' u w =
  if bool_decide (u = from' ∧ w = to') ||
     negb isDirected && bool_decide (u = to' ∧ w = from')
  then Some weight' else weight_of g u w.
Proof.
  intros (_ & _ & _ & Hn & Hn' & _ & _ & Hidx)%addEdge_true_inv.
  unfold weight_of in *. rewrite Hidx, !first_weight_app.
  destruct (first_weight w (index (_adjacencyList g) u)) as [x|] eqn:Hx.
  - destruct isDirected; simpl;
      repeat case_bool_decide; simpl; try done; destruct_and?; subst;
        try congruence.
    rewrite Hn' in Hx by done. done.
  - destruct isDirected; simpl;
      repeat case_bool_decide; simpl; rewrite ?first_weight_cons; simpl;
        repeat case_bool_decide; simpl; try done; naive_solver.
Qed.

Lemma wf_addEdge g from' to' weight' g' flag :
  wf_graph g → addEdge g from' to' weight' = Returns (g', flag) → wf_graph g'.
Proof.
  intros Hwf Hadd. destruct flag.
  2:{ by rewrite (addEdge_false_inv _ _ _ _ _ Hadd). }
  pose proof (addEdge_true_inv _ _ _ _ _ Hadd)
    as (Hf & Ht & Hpol & _ & _ & Hv & Hdom & _).
  destruct Hwf as [Hk Hfrom Hto Hsym Hunw]. split.
  - rewrite Hdom, Hv, Hk. destruct isDirected; set_solver.
  - intros u e [He|[[-> ->]|(_ & -> & ->)]]%(addEdge_stored _ _ _ _ _ _ _ Hadd);
      eauto.
  - intros u e [He|[[-> ->]|(_ & -> & ->)]]%(addEdge_stored _ _ _ _ _ _ _ Hadd);
      rewrite Hv; eauto.
  - intros Hd u w. rewrite !(addEdge_weight_of _ _ _ _ _ _ _ Hadd), Hd. simpl.
    rewrite (Hsym Hd u w).
    repeat case_bool_decide; simpl; try done; naive_solver.
  - intros Hw u e [He|[[-> ->]|(_ & -> & ->)]]%(addEdge_stored _ _ _ _ _ _ _ Hadd);
      eauto; rewrite Hw in Hpol; done.
Qed.

(** *** [removeEdge] *)

Lemma removeEdge_absent g from' to' :
  hasVertex g from' && hasVertex g to' = false → removeEdge g from' to' = (g, false).
Proof.
  unfold removeEdge. intros Hv.
  rewrite <- negb_andb, Hv. done.
Qed.

Lemma removeEdge_vertices g from' to' :
  _vertices (removeEdge g from' to').1 = _vertices g.
Proof. unfold removeEdge. repeat case_match; done. Qed.

Lemma removeEdge_index g from' to' u :
  hasVertex g from' && hasVertex g to' = true →
  index (_adjacencyList (removeEdge g from' to').1) u =
  let l := index (_adjacencyList g) u in
  let l := if bool_decide (u = from') then erase_to to' l else l in
  if negb isDirected && bool_decide (u = to') then erase_to from' l else l.
Proof.
  unfold removeEdge. intros Hv. rewrite <- negb_andb, Hv. simpl.
  destruct isDirected; simpl.
  - rewrite index_insert. case_bool_decide; subst; done.
  - rewrite !index_insert. repeat case_bool_decide; subst; done.
Qed.

Lemma removeEdge_dom g from' to' :
  hasVertex g from' && hasVertex g to' = true →
  dom (_adjacencyList (removeEdge g from' to').1) =
  {[from']} ∪ (if isDirected then ∅ else {[to']}) ∪ dom (_adjacencyList g).
Proof.
  unfold removeEdge. intros Hv. rewrite <- negb_andb, Hv. simpl.
  destruct isDirected; simpl; rewrite !dom_insert_L; set_solver.
Qed.

Lemma removeEdge_flag g from' to' :
  hasVertex g from' && hasVertex g to' = true →
  (removeEdge g from' to').2 =
  hasEdge g from' to' || negb isDirected && hasEdge g to' from'.
Proof.
  unfold removeEdge. intros Hv. rewrite <- negb_andb, Hv. simpl.
  rewrite !hasEdge_weight_of. unfold weight_of.
  destruct isDirected; simpl.
  - rewrite erase_to_length, negb_involutive, orb_false_r. done.
  - rewrite !erase_to_length, !negb_involutive, index_insert.
    destruct (decide (to' = from')) as [->|Hne].
    + rewrite (bool_decide_true (from' = from')) by done.
      rewrite first_weight_erase_to.
      rewrite (bool_decide_true (from' = from')) by done. simpl.
      by destruct (bool_decide _).
    + by rewrite (bool_decide_false (to' = from')) by done.
Qed.

Lemma removeEdge_weight_of g from' to' u w :
  hasVertex g from' && hasVertex g to' = true →
  weight_of (removeEdge g from' to').1 u w =
  if bool_decide (u = from' ∧ w = to') ||
     negb isDirected && bool_decide (u = to' ∧ w = from')
  then None else weight_of g u w.
Proof.
  intros Hv. unfold weight_of. rewrite removeEdge_index by done. simpl.
  destruct isDirected; simpl;
    repeat case_bool_decide; simpl; rewrite ?first_weight_erase_to;
      repeat case_bool_decide; simpl; try done; naive_solver.
Qed.

Lemma removeEdge_stored g from' to' u e :
  stored (removeEdge g from' to').1 u e → stored g u e.
Proof.
  destruct (hasVertex g from' && hasVertex g to') eqn:Hv.
  - unfold stored. rewrite removeEdge_index by done. simpl.
    destruct isDirected; simpl; repeat case_bool_decide;
      rewrite ?elem_of_erase_to; naive_solver.
  - by rewrite removeEdge_absent.
Qed.

Lemma wf_removeEdge g from' to' :
  wf_graph g → wf_graph (removeEdge g from' to').1.
Proof.
  intros Hwf.
  destruct (hasVertex g from' && hasVertex g to') eqn:Hv.
  2:{ by rewrite removeEdge_absent. }
  pose proof Hv as [Hf%hasVertex_true Ht%hasVertex_true]%andb_true_iff.
  destruct Hwf as [Hk Hfrom Hto Hsym Hunw]. split.
  - rewrite removeEdge_dom, removeEdge_vertices, Hk by done.
    destruct isDirected; set_solver.
  - intros u e He%removeEdge_stored. eauto.
  - intros u e He%removeEdge_stored. rewrite removeEdge_vertices. eauto.
  - intros Hd u w. rewrite !removeEdge_weight_of, Hd by done. simpl.
    rewrite (Hsym Hd u w).
    repeat case_bool_decide; simpl; try done; naive_solver.
  - intros Hw u e He%removeEdge_stored. eauto.
Qed.

(** *** [setEdgeWeight] and [getEdgeWeight] *)

Lemma set_first_weight_id v x l :
  first_weight v l = None → (set_first_weight v x l).1 = l.
Proof.
  induction l as [|e l IH]; [done|].
  rewrite first_weight_cons. simpl. destruct (bool_decide (to e = v)); [done|].
  intros Hl. destruct (set_first_weight v x l). simpl in *. by rewrite IH.
Qed.

Lemma setEdgeWeight_absent g from' to' weight' :
  hasVertex g from' && hasVertex g to' = false →
  setEdgeWeight g from' to' weight' = Returns (g, false).
Proof. unfold setEdgeWeight. by intros ->. Qed.

Lemma setEdgeWeight_unweighted g from' to' weight' :
  hasVertex g from' && hasVertex g to' = true → isWeighted = false →
  setEdgeWeight g from' to' weight' =
  Throws (invalid_argument "Cannot set weight on an unweighted graph.").
Proof. unfold setEdgeWeight. by intros -> ->. Qed.

Lemma setEdgeWeight_present g from' to' weight' :
  hasVertex g from' && hasVertex g to' = true → isWeighted = true →
  ∃ g', setEdgeWeight g from' to' weight' = Returns (g', hasEdge g from' to') ∧
        _vertices g' = _vertices g ∧
        dom (_adjacencyList g') = dom (_adjacencyList g) ∧
        ∀ u, index (_adjacencyList g') u =
             let l := index (_adjacencyList g) u in
             let l := if bool_decide (u = from')
                      then (set_first_weight to' weight' l).1 else l in
             if negb isDirected && bool_decide (u = to')
             then (set_first_weight from' weight' l).1 else l.
Proof.
  unfold setEdgeWeight. intros -> ->. simpl.
  rewrite hasEdge_weight_of. unfold weight_of.
  destruct (_adjacencyList g !! from') as [edges|] eqn:Hfrom.
  - pose proof (set_first_weight_found to' weight' edges) as Hfound.
    destruct (set_first_weight to' weight' edges) as [edges' found] eqn:Hset.
    simpl in Hfound. rewrite (index_lookup _ _ _ Hfrom), <- Hfound.
    clear Hfound.
    eexists. split; [reflexivity|]. simpl.
    assert (Hd1 : dom (<[from':=edges']> (_adjacencyList g)) = dom (_adjacencyList g)).
    { rewrite dom_insert_L. apply elem_of_dom_2 in Hfrom. set_solver. }
    assert (Hi1 : ∀ u, index (<[from':=edges']> (_adjacencyList g)) u =
                       if bool_decide (u = from')
                       then (set_first_weight to' weight' (index (_adjacencyList g) u)).1
                       else index (_adjacencyList g) u).
    { intros u. rewrite index_insert. case_bool_decide as Hu; [|done].
      subst u. by rewrite (index_lookup _ _ _ Hfrom), Hset. }
    destruct isDirected; simpl; [done|].
    destruct (<[from':=edges']> (_adjacencyList g) !! to') as [edges2|] eqn:Hto.
    + split_and!; [done| |].
      * rewrite dom_insert_L, <- Hd1. apply elem_of_dom_2 in Hto. set_solver.
      * intros u. rewrite index_insert. case_bool_decide as Hu; [|apply Hi1].
        subst u. by rewrite <- Hi1, (index_lookup _ _ _ Hto).
    + split_and!; [done..|].
      intros u. case_bool_decide as Hu; [|apply Hi1].
      subst u. rewrite <- !Hi1. unfold index. by rewrite Hto.
  - replace (index (_adjacencyList g) from') with (@nil Edge)
      by (unfold index; by rewrite Hfrom).
    simpl. eexists. split; [reflexivity|]. simpl.
    assert (Hi1 : ∀ u, index (_adjacencyList g) u =
                       if bool_decide (u = from')
                       then (set_first_weight to' weight' (index (_adjacencyList g) u)).1
                       else index (_adjacencyList g) u).
    { intros u. case_bool_decide as Hu; [|done].
      subst u. unfold index. by rewrite Hfrom. }
    destruct isDirected; simpl; [done|].
    destruct (_adjacencyList g !! to') as [edges2|] eqn:Hto.
    + split_and!; [done| |].
      * rewrite dom_insert_L. apply elem_of_dom_2 in Hto. set_solver.
      * intros u. rewrite index_insert. case_bool_decide as Hu; [|apply Hi1].
        subst u. by rewrite <- Hi1, (index_lookup _ _ _ Hto).
    + split_and!; [done..|].
      intros u. case_bool_decide as Hu; [|apply Hi1].
      subst u. rewrite <- !Hi1. unfold index. by rewrite Hto.
Qed.

Lemma setEdgeWeight_Returns_inv g from' to' weight' g' flag :
  setEdgeWeight g from' to' weight' = Returns (g', flag) →
  (hasVertex g from' && hasVertex g to' = false ∧ g' = g ∧ flag = false) ∨
  (hasVertex g from' && hasVertex g to' = true ∧ isWeighted = true ∧
   flag = hasEdge g from' to' ∧
   _vertices g' = _vertices g ∧
   dom (_adjacencyList g') = dom (_adjacencyList g) ∧
   ∀ u, index (_adjacencyList g') u =
        let l := index (_adjacencyList g) u in
        let l := if bool_decide (u = from')
                 then (set_first_weight to' weight' l).1 else l in
        if negb isDirected && bool_decide (u = to')
        then (set_first_weight from' weight' l).1 else l).
Proof.
  destruct (hasVertex g from' && hasVertex g to') eqn:Hv.
  - destruct isWeighted eqn:Hw.
    + destruct (setEdgeWeight_present g from' to' weight' Hv Hw)
        as (g'' & -> & ? & ? & ?).
      intros [= <- <-]. right. done.
    + by rewrite setEdgeWeight_unweighted.
  - rewrite setEdgeWeight_absent by done. intros [= <- <-]. by left.
Qed.

Lemma setEdgeWeight_weight_of g from' to' weight' g' flag u w :
  setEdgeWeight g from' to' weight' = Returns (g', flag) →
  weight_of g' u w =
  if hasVertex g from' && hasVertex g to' &&
     (bool_decide (u = from' ∧ w = to') ||
      negb isDirected && bool_decide (u = to' ∧ w = from'))
  then const weight' <$> weight_of g u w else weight_of g u w.
Proof.
  intros [(-> & -> & _)|(-> & _ & _ & _ & _ & Hidx)]%setEdgeWeight_Returns_inv;
    [done|].
  unfold weight_of. rewrite Hidx. simpl.
  destruct isDirected; simpl;
    repeat case_bool_decide; simpl; rewrite ?first_weight_set_first;
      repeat case_bool_decide; simpl; rewrite ?first_weight_set_first;
        repeat case_bool_decide; simpl; try done; try naive_solver.
  destruct_and?; subst.
  by destruct (first_weight _ _).
Qed.

Lemma setEdgeWeight_stored g from' to' weight' g' flag u e :
  setEdgeWeight g from' to' weight' = Returns (g', flag) →
  stored g' u e →
  stored g u e ∨
  isWeighted = true ∧ ∃ e0, stored g u e0 ∧ e = mkEdge (from e0) (to e0) weight'.
Proof.
  intros [(_ & -> & _)|(_ & Hw & _ & _ & _ & Hidx)]%setEdgeWeight_Returns_inv;
    [by left|].
  unfold stored. rewrite Hidx. simpl.
  set (P := fun e1 : Edge =>
    e1 ∈ index (_adjacencyList g) u ∨
    ∃ e0, e0 ∈ index (_adjacencyList g) u ∧ e1 = mkEdge (from e0) (to e0) weight').
  assert (Hstep : ∀ v l, (∀ e1, e1 ∈ l → P e1) →
                         ∀ e1, e1 ∈ (set_first_weight v weight' l).1 → P e1).
  { intros v l Hl e1 [He1|(e2 & He2 & ->)]%elem_of_set_first_weight; [by apply Hl|].
    destruct (Hl _ He2) as [?|(e0 & ? & ->)]; right; eauto. }
  assert (Hbase : ∀ e1, e1 ∈ index (_adjacencyList g) u → P e1) by (by left).
  intros He. assert (HP : P e).
  { destruct (negb isDirected && bool_decide (u = to')), (bool_decide (u = from'));
      eauto. }
  destruct HP as [?|?]; [by left|by right].
Qed.

Lemma wf_setEdgeWeight g from' to' weight' g' flag :
  wf_graph g → setEdgeWeight g from' to' weight' = Returns (g', flag) →
  wf_graph g'.
Proof.
  intros Hwf Hset.
  pose proof (setEdgeWeight_Returns_inv _ _ _ _ _ _ Hset)
    as [(_ & -> & _)|(Hv & Hw & _ & Hvs & Hdom & _)]; [done|].
  destruct Hwf as [Hk Hfrom Hto Hsym Hunw]. split.
  - by rewrite Hdom, Hvs.
  - intros u e [He|(_ & e0 & He & ->)]%(setEdgeWeight_stored _ _ _ _ _ _ _ _ Hset);
      simpl; eauto.
  - intros u e [He|(_ & e0 & He & ->)]%(setEdgeWeight_stored _ _ _ _ _ _ _ _ Hset);
      rewrite Hvs; simpl; eauto.
  - intros Hd u w. rewrite !(setEdgeWeight_weight_of _ _ _ _ _ _ _ _ Hset), Hd, Hv.
    simpl. rewrite (Hsym Hd u w).
    repeat case_bool_decide; simpl; try done; naive_solver.
  - intros Hw'. congruence.
Qed.

Lemma getEdgeWeight_weight_of g from' to' :
  getEdgeWeight g from' to' =
  if hasVertex g from' && hasVertex g to' then
    if isWeighted then
      match weight_of g from' to' with
      | Some w => Returns w
      | None => Throws (invalid_argument "EdgeType does not exist.")
      end
    else Throws (invalid_argument "Cannot get weight on an unweighted graph.")
  else Throws (invalid_argument "One or both vertices do not exist.").
Proof.
  unfold getEdgeWeight, weight_of, index.
  destruct (hasVertex g from' && hasVertex g to'); [|done].
  destruct isWeighted; simpl; [|done].
  by destruct (_adjacencyList g !! from').
Qed.

(** *** [removeVertex] *)

Lemma erase_to_idemp v l : erase_to v (erase_to v l) = erase_to v l.
Proof.
  apply erase_to_id. rewrite first_weight_erase_to.
  by rewrite bool_decide_true.
Qed.

Lemma removeVertex_absent g v :
  hasVertex g v = false → removeVertex g v = (g, false).
Proof. unfold removeVertex. by intros ->. Qed.

(** The loop of the undirected branch. *)
Lemma removeVertex_loop v (vec : list Edge) (adj : gmap VertexType (list Edge)) :
  let adj' :=
    foldl (fun adj elem =>
             match adj !! to elem with
             | Some vec2 => <[to elem := erase_to v vec2]> adj
             | None => adj
             end) adj vec in
  dom adj' = dom adj ∧
  ∀ u, index adj' u =
       if bool_decide (is_Some (first_weight u vec))
       then erase_to v (index adj u) else index adj u.
Proof.
  revert adj. induction vec as [|e vec IH]; intros adj; simpl; [done|].
  set (adj1 := match adj !! to e with
               | Some vec2 => <[to e := erase_to v vec2]> adj
               | None => adj
               end).
  assert (Hd1 : dom adj1 = dom adj).
  { subst adj1. destruct (adj !! to e) eqn:He; [|done].
    rewrite dom_insert_L. apply elem_of_dom_2 in He. set_solver. }
  assert (Hi1 : ∀ u, index adj1 u =
                     if bool_decide (to e = u) then erase_to v (index adj u)
                     else index adj u).
  { intros u. subst adj1. destruct (adj !! to e) eqn:He.
    - rewrite index_insert. repeat case_bool_decide; subst; try done.
      by rewrite (index_lookup _ _ _ He).
    - case_bool_decide; [|done]. subst. unfold index. by rewrite He. }
  destruct (IH adj1) as [Hd Hi]. split; [by rewrite Hd|].
  intros u. rewrite Hi, Hi1, first_weight_cons.
  destruct (bool_decide (to e = u)); simpl.
  - rewrite erase_to_idemp. by destruct (bool_decide _).
  - done.
Qed.

Lemma removeVertex_present g v :
  hasVertex g v = true →
  (isDirected = false → ∀ u, weight_of g u v = weight_of g v u) →
  (removeVertex g v).2 = true ∧
  _vertices (removeVertex g v).1 = _vertices g ∖ {[v]} ∧
  dom (_adjacencyList (removeVertex g v).1) = dom (_adjacencyList g) ∖ {[v]} ∧
  ∀ u, index (_adjacencyList (removeVertex g v).1) u =
       if bool_decide (u = v) then [] else erase_to v (index (_adjacencyList g) u).
Proof.
  unfold removeVertex. intros -> Hsym. simpl.
  destruct isDirected; simpl.
  - split_and!; [done..| |].
    + by rewrite dom_fmap_L, dom_delete_L.
    + intros u. unfold index. rewrite lookup_fmap, lookup_delete.
      case_decide; case_bool_decide; subst; try done.
      by destruct (_adjacencyList g !! u).
  - specialize (Hsym eq_refl).
    destruct (_adjacencyList g !! v) as [vec|] eqn:Hv.
    + destruct (removeVertex_loop v vec (_adjacencyList g)) as [Hd Hi].
      simpl in Hd, Hi. split_and!; [done..| |].
      * by rewrite dom_delete_L, Hd.
      * intros u. rewrite index_delete. case_bool_decide; [done|].
        rewrite Hi. case_bool_decide as Hu; [done|].
        symmetry. apply erase_to_id. fold (weight_of g u v).
        rewrite Hsym. unfold weight_of.
        rewrite (index_lookup _ _ _ Hv). by apply eq_None_not_Some.
    + split_and!; [done..| |].
      { by rewrite dom_delete_L. }
      intros u. rewrite index_delete. case_bool_decide; [done|].
      symmetry. apply erase_to_id. fold (weight_of g u v).
      rewrite Hsym. unfold weight_of, index. by rewrite Hv.
Qed.

Lemma wf_removeVertex g v : wf_graph g → wf_graph (removeVertex g v).1.
Proof.
  intros Hwf. destruct (hasVertex g v) eqn:Hv.
  2:{ by rewrite removeVertex_absent. }
  destruct Hwf as [Hk Hfrom Hto Hsym Hunw].
  destruct (removeVertex_present g v Hv) as (_ & Hvs & Hdom & Hidx).
  { intros Hd u. by apply Hsym. }
  assert (Hst : ∀ u e, stored (removeVertex g v).1 u e → stored g u e ∧ to e ≠ v).
  { intros u e. unfold stored. rewrite Hidx. case_bool_decide.
    - by intros ?%elem_of_nil.
    - by rewrite elem_of_erase_to. }
  split.
  - by rewrite Hdom, Hvs, Hk.
  - intros u e [He _]%Hst. eauto.
  - intros u e [He Hne]%Hst. rewrite Hvs. specialize (Hto _ _ He). set_solver.
  - intros Hd u w. unfold weight_of. rewrite !Hidx.
    repeat case_bool_decide; subst; simpl; rewrite ?first_weight_erase_to;
      repeat case_bool_decide; simpl; try done.
    apply (Hsym Hd).
  - intros Hw u e [He _]%Hst. eauto.
Qed.

(** *** The representation invariant *)

Lemma built_wf g : built g → wf_graph g.
Proof.
  induction 1 as [|g vertex _ IH|g a b x g' flag _ IH Hadd|g a b _ IH
                  |g a b x g' flag _ IH Hset|g v _ IH _].
  - apply wf_empty_graph.
  - by apply wf_addVertex.
  - by eapply wf_addEdge.
  - by apply wf_removeEdge.
  - by eapply wf_setEdgeWeight.
  - by apply wf_removeVertex.
Qed.

Lemma built_graph_edges_join_vertices g :
  built g → ∀ u w, hasEdge g u w = true → hasVertex g u = true ∧ hasVertex g w = true.
Proof.
  intros [Hk _ Hto _ _]%built_wf u w (e & He & <-)%hasEdge_stored.
  rewrite !hasVertex_true. split; [|eauto].
  rewrite <- Hk. apply elem_of_dom.
  unfold stored, index in He. destruct (_adjacencyList g !! u); [done|].
  by apply elem_of_nil in He.
Qed.

(** *** [DFS] and [findConnectedComponent] *)

Lemma hasEdge_universe g x y : hasEdge g x y = true → y ∈ universe g.
Proof.
  intros (e & He & <-)%hasEdge_stored. unfold stored, index in He.
  destruct (_adjacencyList g !! x) as [l|] eqn:Hx; simpl in He;
    [|by apply elem_of_nil in He].
  unfold universe. apply elem_of_union_r, elem_of_list_to_set.
  apply list_elem_of_fmap_2, list_elem_of_join. exists l. split; [done|].
  apply list_elem_of_fmap. exists (x, l). split; [done|].
  by apply elem_of_map_to_list.
Qed.

Lemma DFS_returns g fuel v st :
  v ∉ st.1 → v ∈ universe g → size (universe g ∖ st.1) ≤ fuel →
  ∃ st', DFS g fuel v st = Some st' ∧ DFS_adds g v st st'.
Proof.
  revert v st. induction fuel as [|fuel IH]; intros v [visited component];
    simpl; intros Hv HvU Hfuel.
  { assert (Hin : v ∈ universe g ∖ visited) by set_solver.
    apply size_empty_inv in Hin; [done|lia]. }
  assert (Hfuel' : ∀ vis, {[v]} ∪ visited ⊆ vis → size (universe g ∖ vis) ≤ fuel).
  { intros vis Hvis.
    assert (size (universe g ∖ vis) < size (universe g ∖ visited)); [|lia].
    apply subset_size. set_solver. }
  destruct (_adjacencyList g !! v) as [edges|] eqn:Hedges.
  2:{ eexists. split; [done|]. exists []. simpl. split_and!; try done.
      - set_solver.
      - apply NoDup_singleton.
      - intros x ->%list_elem_of_singleton. done.
      - intros x ->%list_elem_of_singleton. done.
      - intros x y ->%list_elem_of_singleton He. unfold hasEdge in He.
        by rewrite Hedges in He. }
  (* the loop over the edges of [v] *)
  assert (Hloop : ∀ l new,
    (∀ e, e ∈ l → hasEdge g v (to e) = true) →
    NoDup (v :: new) →
    (∀ x, x ∈ v :: new → x ∉ visited) →
    (∀ x, x ∈ v :: new → reachable g v x) →
    (∀ x y, x ∈ v :: new → hasEdge g x y = true →
            y ∈ visited ∪ list_to_set (v :: new) ∨ x = v ∧ y ∈ to <$> l) →
    ∃ new',
      foldl (fun r e =>
               st ← r;
               if bool_decide (to e ∈ st.1) then Some st
               else DFS g fuel (to e) st)
            (Some (visited ∪ list_to_set (v :: new), component ++ v :: new)) l
      = Some (visited ∪ list_to_set (v :: new'), component ++ v :: new') ∧
      NoDup (v :: new') ∧
      (∀ x, x ∈ v :: new' → x ∉ visited) ∧
      (∀ x, x ∈ v :: new' → reachable g v x) ∧
      (∀ x y, x ∈ v :: new' → hasEdge g x y = true →
              y ∈ visited ∪ list_to_set (v :: new'))).
  { induction l as [|e l IHl]; intros new Hl Hnd Hfresh Hreach Hclosed.
    - exists new. simpl. split_and!; try done.
      intros x y Hx Hxy. destruct (Hclosed x y Hx Hxy) as [?|[_ Hy]]; [done|].
      by apply elem_of_nil in Hy.
    - simpl. case_bool_decide as Hmarked.
      + apply IHl; try done.
        * intros e' He'. apply Hl. by right.
        * intros x y Hx Hxy.
          destruct (Hclosed x y Hx Hxy) as [?|[-> Hy]]; [by left|].
          rewrite fmap_cons in Hy. apply elem_of_cons in Hy as [->|Hy];
            [by left|by right].
      + assert (Hve : hasEdge g v (to e) = true) by (apply Hl; left).
        destruct (IH (to e) (visited ∪ list_to_set (v :: new), component ++ v :: new))
          as ([vis' cmp'] & HDFS & new2 & Hcmp & Hvis & Hnd2 & Hfresh2 & Hreach2 & Hclosed2).
        { done. }
        { by eapply hasEdge_universe. }
        { apply Hfuel'. simpl. set_solver. }
        simpl in HDFS. rewrite HDFS. clear HDFS.
        simpl in Hcmp, Hvis, Hfresh2, Hclosed2. subst vis' cmp'.
        destruct (IHl (new ++ to e :: new2)) as (new' & Hfold & Hrest).
        * intros e' He'. apply Hl. by right.
        * rewrite app_comm_cons. apply NoDup_app. split_and!; [done| |done].
          intros x Hx Hx2. apply (Hfresh2 x Hx2). set_solver.
        * intros x. rewrite app_comm_cons, elem_of_app. intros [Hx|Hx]; [by apply Hfresh|].
          specialize (Hfresh2 x Hx). set_solver.
        * intros x. rewrite app_comm_cons, elem_of_app. intros [Hx|Hx]; [by apply Hreach|].
          eapply rtc_l; [exact Hve|]. by apply Hreach2.
        * intros x y. rewrite app_comm_cons, elem_of_app. intros [Hx|Hx] Hxy.
          -- destruct (Hclosed x y Hx Hxy) as [Hy|[-> Hy]].
             ++ left. rewrite list_to_set_app_L. set_solver.
             ++ rewrite fmap_cons in Hy. apply elem_of_cons in Hy as [->|Hy];
                  [|by right].
                left. rewrite list_to_set_app_L. set_solver.
          -- left. specialize (Hclosed2 x y Hx Hxy).
             rewrite list_to_set_app_L. set_solver.
        * exists new'. split; [|done].
          etrans; [|exact Hfold]. f_equal. f_equal. f_equal.
          -- rewrite app_comm_cons, list_to_set_app_L. set_solver.
          -- by rewrite <- app_assoc. }
  destruct (Hloop edges []) as (new' & Hfold & Hnd & Hfresh & Hreach & Hclosed).
  - intros e He. apply hasEdge_stored. exists e. split; [|done].
    unfold stored. by rewrite (index_lookup _ _ _ Hedges).
  - apply NoDup_singleton.
  - intros x ->%list_elem_of_singleton. done.
  - intros x ->%list_elem_of_singleton. done.
  - intros x y ->%list_elem_of_singleton [e [He <-]]%hasEdge_stored. right.
    split; [done|]. apply list_elem_of_fmap_2.
    unfold stored in He. by rewrite (index_lookup _ _ _ Hedges) in He.
  - eexists. split.
    + etrans; [|exact Hfold]. f_equal. f_equal. f_equal. set_solver.
    + exists new'. simpl. split_and!; try done.
Qed.

Lemma findConnectedComponent_absent g start :
  hasVertex g start = false → findConnectedComponent g start = [].
Proof. unfold findConnectedComponent. by intros ->. Qed.

Lemma findConnectedComponent_present g start :
  hasVertex g start = true →
  ∃ visited new,
    DFS g (size (universe g)) start (∅, []) = Some (visited, start :: new) ∧
    findConnectedComponent g start = start :: new ∧
    NoDup (start :: new) ∧
    ∀ x, x ∈ start :: new ↔ reachable g start x.
Proof.
  intros Hs. unfold findConnectedComponent. rewrite Hs.
  destruct (DFS_returns g (size (universe g)) start (∅, []))
    as ([visited component] & HDFS & new & Hcmp & Hvis & Hnd & _ & Hreach & Hclosed).
  { set_solver. }
  { apply hasVertex_true in Hs. unfold universe. set_solver. }
  { apply subseteq_size. set_solver. }
  simpl in Hcmp, Hvis, Hclosed. subst component.
  exists visited, new. rewrite HDFS. split_and!; try done.
  intros x. split; [by apply Hreach|].
  revert x. apply (rtc_ind_r (fun x => x ∈ start :: new) start); [left|].
  intros y z _ Hyz IH. specialize (Hclosed _ _ IH Hyz). set_solver.
Qed.

(** *** No parallel edges *)

Lemma erase_to_comm u v l : erase_to u (erase_to v l) = erase_to v (erase_to u l).
Proof.
  induction l as [|e l IH]; [done|].
  unfold erase_to in *. simpl.
  destruct (bool_decide (to e = v)) eqn:Hv, (bool_decide (to e = u)) eqn:Hu;
    simpl; rewrite ?Hv, ?Hu; simpl; by rewrite IH.
Qed.

Lemma NoDup_targets_erase_to v l :
  NoDup (to <$> l) → NoDup (to <$> erase_to v l).
Proof.
  induction l as [|e l IH]; [done|].
  rewrite fmap_cons, NoDup_cons. intros [Hnin Hnd].
  unfold erase_to in *. simpl. destruct (bool_decide (to e = v)); simpl; [auto|].
  apply NoDup_cons. split; [|auto].
  intros (e' & He' & Hin)%list_elem_of_fmap. apply Hnin.
  apply list_elem_of_fmap. exists e'. split; [done|].
  apply list_elem_of_In in Hin. apply filter_In in Hin as [Hin _].
  by apply list_elem_of_In.
Qed.

Lemma targets_set_first_weight v (x : WeightType) l :
  to <$> (set_first_weight v x l).1 = to <$> l.
Proof.
  induction l as [|e l IH]; [done|].
  cbn [set_first_weight]. destruct (bool_decide (to e = v)); [done|].
  destruct (set_first_weight v x l) as [l' b]. cbn [fst] in *.
  by rewrite !fmap_cons, IH.
Qed.

Lemma erase_to_cons v e l :
  erase_to v (e :: l) =
  if bool_decide (to e = v) then erase_to v l else e :: erase_to v l.
Proof. unfold erase_to. simpl. by destruct (bool_decide _). Qed.

Lemma erase_to_other u v w (x : WeightType) :
  w ≠ v → erase_to v [mkEdge u w x] = [mkEdge u w x].
Proof. intros Hw. rewrite erase_to_cons. simpl. by rewrite bool_decide_false. Qed.

Lemma targets_erase_set_first_weight u v (x : WeightType) l :
  to <$> erase_to u (set_first_weight v x l).1 = to <$> erase_to u l.
Proof.
  induction l as [|e l IH]; [done|].
  cbn [set_first_weight]. destruct (bool_decide (to e = v)).
  - cbn [fst]. rewrite !erase_to_cons. cbn [to].
    destruct (bool_decide (to e = u)); [done|]. by rewrite !fmap_cons.
  - destruct (set_first_weight v x l) as [l' b]. cbn [fst] in *.
    rewrite !erase_to_cons. destruct (bool_decide (to e = u)); [done|].
    by rewrite !fmap_cons, IH.
Qed.

Lemma simple_empty_graph : simple (empty_graph : Graph).
Proof.
  intros u. unfold index. simpl. rewrite lookup_empty. simpl.
  destruct isDirected; apply NoDup_nil_2.
Qed.

Lemma simple_addVertex g vertex : simple g → simple (addVertex g vertex).
Proof. intros Hs u. rewrite addVertex_index. apply Hs. Qed.

Lemma simple_addEdge g from' to' weight' g' flag :
  simple g → addEdge g from' to' weight' = Returns (g', flag) → simple g'.
Proof.
  intros Hs Hadd. destruct flag.
  2:{ by rewrite (addEdge_false_inv _ _ _ _ _ Hadd). }
  pose proof (addEdge_true_inv _ _ _ _ _ Hadd)
    as (_ & _ & _ & Hn & Hn' & _ & _ & Hidx).
  unfold weight_of in Hn, Hn'. rewrite first_weight_None in Hn.
  intros u. specialize (Hs u). rewrite Hidx.
  destruct isDirected; simpl in *.
  - rewrite app_nil_r. case_bool_decide as Hu; [|by rewrite app_nil_r].
    subst u. rewrite fmap_app. apply NoDup_app. split_and!; [done| |].
    + intros w Hw1 Hw2. simpl in Hw2. apply list_elem_of_singleton in Hw2.
      subst w. apply list_elem_of_fmap in Hw1 as (e & Heq & He).
      by apply (Hn e).
    + apply NoDup_singleton.
  - specialize (Hn' eq_refl). rewrite first_weight_None in Hn'.
    rewrite !erase_to_app.
    assert (Hfresh : ∀ w (l0 : list Edge),
              (∀ e, e ∈ l0 → to e ≠ w) → NoDup (to <$> erase_to u l0) →
              NoDup (to <$> (erase_to u l0 ++ [mkEdge u w weight']))).
    { intros w l0 Hl0 Hnd. rewrite fmap_app. apply NoDup_app.
      split_and!; [done| |apply NoDup_singleton].
      intros w' Hw1 Hw2. simpl in Hw2. apply list_elem_of_singleton in Hw2.
      subst w'. apply list_elem_of_fmap in Hw1 as (e & Heq & He).
      apply elem_of_erase_to in He as [He _]. by apply (Hl0 e). }
    destruct (decide (u = from')) as [->|Hu1].
    + rewrite (bool_decide_true (from' = from')) by done.
      destruct (decide (from' = to')) as [<-|Hu2].
      * rewrite (bool_decide_true (from' = from')) by done.
        rewrite !erase_to_new. by rewrite !app_nil_r.
      * rewrite (bool_decide_false (from' = to')) by done.
        rewrite erase_to_other, erase_to_nil, app_nil_r by done.
        by apply Hfresh.
    + rewrite (bool_decide_false (u = from')) by done.
      rewrite erase_to_nil, app_nil_l.
      destruct (decide (u = to')) as [->|Hu2].
      * rewrite (bool_decide_true (to' = to')) by done.
        rewrite erase_to_other by done. by apply Hfresh.
      * rewrite (bool_decide_false (u = to')) by done.
        by rewrite erase_to_nil, app_nil_r.
Qed.

Lemma simple_removeEdge g from' to' :
  simple g → simple (removeEdge g from' to').1.
Proof.
  intros Hs. destruct (hasVertex g from' && hasVertex g to') eqn:Hv.
  2:{ by rewrite removeEdge_absent. }
  intros u. specialize (Hs u). rewrite removeEdge_index by done. clear Hv.
  cbv zeta.
  destruct isDirected; cbn [negb andb] in *.
  - destruct (bool_decide (u = from')); [by apply NoDup_targets_erase_to|done].
  - destruct (bool_decide (u = from')), (bool_decide (u = to'));
      rewrite ?(erase_to_comm u);
      repeat first [exact Hs | apply NoDup_targets_erase_to].
Qed.

Lemma simple_setEdgeWeight g from' to' weight' g' flag :
  simple g → setEdgeWeight g from' to' weight' = Returns (g', flag) → simple g'.
Proof.
  intros Hs [(_ & -> & _)|(_ & _ & _ & _ & _ & Hidx)]%setEdgeWeight_Returns_inv;
    [done|].
  intros u. specialize (Hs u). rewrite Hidx. cbv zeta.
  destruct isDirected; cbn [negb andb] in *.
  - destruct (bool_decide (u = from')); by rewrite ?targets_set_first_weight.
  - destruct (bool_decide (u = from')), (bool_decide (u = to'));
      by rewrite ?targets_erase_set_first_weight.
Qed.

Lemma simple_removeVertex g v :
  wf_graph g → simple g → simple (removeVertex g v).1.
Proof.
  intros [_ _ _ Hsym _] Hs. destruct (hasVertex g v) eqn:Hv.
  2:{ by rewrite removeVertex_absent. }
  destruct (removeVertex_present g v Hv) as (_ & _ & _ & Hidx).
  { intros Hd u. by apply Hsym. }
  intros u. specialize (Hs u). rewrite Hidx. clear Hv.
  destruct (bool_decide (u = v)).
  - destruct isDirected; apply NoDup_nil_2.
  - destruct isDirected.
    + by apply NoDup_targets_erase_to.
    + rewrite erase_to_comm. by apply NoDup_targets_erase_to.
Qed.

Lemma built_simple g : built g → simple g.
Proof.
  induction 1 as [|g vertex _ IH|g a b x g' flag _ IH Hadd|g a b _ IH
                  |g a b x g' flag _ IH Hset|g v Hb IH _].
  - apply simple_empty_graph.
  - by apply simple_addVertex.
  - by eapply simple_addEdge.
  - by apply simple_removeEdge.
  - by eapply simple_setEdgeWeight.
  - apply simple_removeVertex; [by apply built_wf|done].
Qed.

(** *** What a user of the container can rely on *)

(** Every graph built through the member functions is consistent: the
    vertices are exactly the keys whose edge list can be read; a stored edge
    lies under its source and joins two vertices; an undirected graph answers
    [hasEdge] and [getEdgeWeight] alike in both directions; an unweighted
    graph stores default weights only. *)
Theorem built_graph_consistent (g : Graph) :
  built g →
  (∀ v, hasVertex g v = true ↔ ∃ edges, getVertexEdges g v = Returns edges) ∧
  (∀ u edges e, getVertexEdges g u = Returns edges → e ∈ edges →
     from e = u ∧ hasVertex g (to e) = true) ∧
  (∀ u w, hasEdge g u w = true → hasVertex g u = true ∧ hasVertex g w = true) ∧
  (isDirected = false → ∀ u w,
     hasEdge g u w = hasEdge g w u ∧ getEdgeWeight g u w = getEdgeWeight g w u) ∧
  (isWeighted = false → ∀ u edges e,
     getVertexEdges g u = Returns edges → e ∈ edges →
     weight e = WeightType_default).
Proof.
  intros [Hk Hfrom Hto Hsym Hunw]%built_wf.
  assert (Hget : ∀ u edges e, getVertexEdges g u = Returns edges → e ∈ edges →
                              stored g u e).
  { intros u edges e Hu He. unfold getVertexEdges in Hu. unfold stored, index.
    destruct (_adjacencyList g !! u); [|done]. by injection Hu as ->. }
  split_and!.
  - intros v. rewrite hasVertex_true, <- Hk, elem_of_dom. unfold getVertexEdges.
    destruct (_adjacencyList g !! v) as [l|]; split.
    + eauto.
    + eauto.
    + by intros [? ?].
    + by intros [? ?].
  - intros u edges e Hu He. rewrite hasVertex_true.
    pose proof (Hget _ _ _ Hu He). split; eauto.
  - intros u w (e & He & <-)%hasEdge_stored. rewrite !hasVertex_true.
    split; [|eauto]. rewrite <- Hk. apply elem_of_dom.
    unfold stored, index in He. destruct (_adjacencyList g !! u); [done|].
    by apply elem_of_nil in He.
  - intros Hd u w. rewrite !hasEdge_weight_of, !getEdgeWeight_weight_of.
    rewrite (Hsym Hd u w), (andb_comm (hasVertex g u)). done.
  - intros Hw u edges e Hu He. pose proof (Hget _ _ _ Hu He). eauto.
Qed.

(** [addVertex] makes the given vertices present, beside those that were;
    a vertex that was a key keeps its edge list (adding it again clears
    nothing), a new one gets the empty list, and no answer of [hasEdge]
    changes.  All the given vertices are there afterwards. *)
Theorem addVertex_effect (g : Graph) (vertex : list VertexType) :
  (∀ v, hasVertex (addVertex g vertex) v =
        hasVertex g v || bool_decide (v ∈ vertex)) ∧
  (∀ v, getVertexEdges (addVertex g vertex) v =
        match getVertexEdges g v with
        | Returns edges => Returns edges
        | Throws e => if bool_decide (v ∈ vertex) then Returns [] else Throws e
        end) ∧
  (∀ u w, hasEdge (addVertex g vertex) u w = hasEdge g u w) ∧
  hasVertices (addVertex g vertex) vertex = true.
Proof.
  assert (Hhas : ∀ v, hasVertex (addVertex g vertex) v =
                      hasVertex g v || bool_decide (v ∈ vertex)).
  { intros v. unfold hasVertex. rewrite addVertex_vertices.
    repeat case_bool_decide; simpl; try done; exfalso; set_solver. }
  split_and!; [done| | |].
  - intros v. unfold getVertexEdges.
    pose proof (addVertex_index g vertex v) as Hidx.
    pose proof (addVertex_dom g vertex) as Hdom.
    unfold index in Hidx.
    destruct (_adjacencyList g !! v) as [l|] eqn:Hv.
    + destruct (_adjacencyList (addVertex g vertex) !! v) as [l'|] eqn:Hv'.
      * simpl in Hidx. by subst.
      * apply elem_of_dom_2 in Hv. apply not_elem_of_dom in Hv'. set_solver.
    + destruct (_adjacencyList (addVertex g vertex) !! v) as [l'|] eqn:Hv'.
      * simpl in Hidx. subst l'. apply elem_of_dom_2 in Hv'.
        apply not_elem_of_dom in Hv. rewrite bool_decide_true; [done|].
        set_solver.
      * apply not_elem_of_dom in Hv'. rewrite bool_decide_false; [done|].
        set_solver.
  - intros u w. by rewrite !hasEdge_weight_of, addVertex_weight_of.
  - unfold hasVertices. apply forallb_forall. intros v Hv%list_elem_of_In.
    rewrite Hhas, (bool_decide_true (v ∈ vertex)) by done. apply orb_true_r.
Qed.

(** [getVertices] lists every vertex once and [vertexCount] is the length of
    that list; adding one vertex raises the count by one exactly when the
    vertex is new. *)
Theorem vertexCount_counts_vertices (g : Graph) (v : VertexType) :
  NoDup (getVertices g) ∧
  (∀ u, u ∈ getVertices g ↔ hasVertex g u = true) ∧
  vertexCount g = length (getVertices g) ∧
  vertexCount (addVertex g [v]) =
    if hasVertex g v then vertexCount g else S (vertexCount g).
Proof.
  unfold getVertices, vertexCount. split_and!.
  - apply NoDup_elements.
  - intros u. by rewrite elem_of_elements, hasVertex_true.
  - done.
  - simpl. destruct (hasVertex g v) eqn:Hv.
    + apply hasVertex_true in Hv. f_equal. set_solver.
    + apply hasVertex_false in Hv. rewrite size_union by set_solver.
      by rewrite size_singleton.
Qed.

(** Adding vertices that are all there changes nothing in a graph built
    through the member functions. *)
Theorem addVertex_again (g : Graph) (vertex : list VertexType) :
  built g → hasVertices g vertex = true → addVertex g vertex = g.
Proof.
  intros [Hk _ _ _ _]%built_wf Hall.
  assert (Hin : ∀ v, v ∈ vertex → v ∈ _vertices g).
  { intros v Hv%list_elem_of_In. apply hasVertex_true.
    unfold hasVertices in Hall. rewrite forallb_forall in Hall. auto. }
  apply Graph_eq.
  - rewrite addVertex_vertices. set_solver.
  - apply adjacency_eq.
    + rewrite addVertex_dom, Hk. set_solver.
    + apply addVertex_index.
Qed.

(** [addEdge] returns [true] exactly when both ends are vertices, the weight
    argument fits the weight policy (the default value in an unweighted
    graph, any other value in a weighted one) and the two are not joined yet
    (in either direction for an undirected graph); it throws exactly when
    both ends are vertices and the weight argument does not fit; and when it
    returns [false] the graph is as it was. *)
Theorem addEdge_accepts_iff (g : Graph) (from' to' : VertexType)
    (weight' : WeightType) :
  ((∃ g', addEdge g from' to' weight' = Returns (g', true)) ↔
   hasVertex g from' = true ∧ hasVertex g to' = true ∧
   (weight' = WeightType_default ↔ isWeighted = false) ∧
   hasEdge g from' to' = false ∧
   (isDirected = false → hasEdge g to' from' = false)) ∧
  ((∃ err, addEdge g from' to' weight' = Throws err) ↔
   hasVertex g from' = true ∧ hasVertex g to' = true ∧
   ¬ (weight' = WeightType_default ↔ isWeighted = false)) ∧
  (∀ g', addEdge g from' to' weight' = Returns (g', false) → g' = g).
Proof.
  split_and!; [| |apply addEdge_false_inv].
  - unfold addEdge.
    destruct (decide (weight' = WeightType_default)) as [Hd|Hd];
      [rewrite !(bool_decide_true _ Hd)|rewrite !(bool_decide_false _ Hd)];
      destruct (hasVertex g from'), (hasVertex g to'), isWeighted, isDirected,
        (hasEdge g from' to'), (hasEdge g to' from'); simpl; naive_solver.
  - unfold addEdge.
    destruct (decide (weight' = WeightType_default)) as [Hd|Hd];
      [rewrite !(bool_decide_true _ Hd)|rewrite !(bool_decide_false _ Hd)];
      destruct (hasVertex g from'), (hasVertex g to'), isWeighted, isDirected,
        (hasEdge g from' to'), (hasEdge g to' from'); simpl; naive_solver.
Qed.

(** After [addEdge] has returned [true] the vertices are the same, the new
    pair is joined (both ways in an undirected graph) and no other answer of
    [hasEdge] has changed; in a weighted graph [getEdgeWeight] returns the
    weight given, and the weights of the other pairs are as before. *)
Theorem addEdge_effect (g g' : Graph) (from' to' : VertexType)
    (weight' : WeightType) :
  addEdge g from' to' weight' = Returns (g', true) →
  (∀ v, hasVertex g' v = hasVertex g v) ∧
  (∀ u w, hasEdge g' u w =
          hasEdge g u w || bool_decide (u = from' ∧ w = to') ||
          negb isDirected && bool_decide (u = to' ∧ w = from')) ∧
  (isWeighted = true →
   getEdgeWeight g' from' to' = Returns weight' ∧
   (isDirected = false → getEdgeWeight g' to' from' = Returns weight')) ∧
  (∀ u w, ¬ (u = from' ∧ w = to') →
          isDirected = true ∨ ¬ (u = to' ∧ w = from') →
          getEdgeWeight g' u w = getEdgeWeight g u w).
Proof.
  intros Hadd.
  pose proof (addEdge_true_inv _ _ _ _ _ Hadd)
    as (Hf & Ht & _ & _ & _ & Hvs & _ & _).
  pose proof (fun u w => addEdge_weight_of _ _ _ _ _ u w Hadd) as Hw.
  assert (Hhas : ∀ v, hasVertex g' v = hasVertex g v).
  { intros v. unfold hasVertex. by rewrite Hvs. }
  split_and!; [done| | |].
  - intros u w. rewrite !hasEdge_weight_of, Hw.
    destruct (bool_decide (u = from' ∧ w = to')),
      (negb isDirected && bool_decide (u = to' ∧ w = from')); simpl;
      rewrite ?orb_true_r, ?orb_false_r; done.
  - intros Hwt. rewrite !getEdgeWeight_weight_of, !Hhas, !Hw, Hwt.
    apply hasVertex_true in Hf, Ht. rewrite Hf, Ht. simpl.
    split.
    + by rewrite bool_decide_true.
    + intros ->. simpl. rewrite (bool_decide_true (to' = to' ∧ from' = from')) by done.
      by rewrite orb_true_r.
  - intros u w Hne1 Hne2. rewrite !getEdgeWeight_weight_of, !Hhas, Hw.
    rewrite (bool_decide_false (u = from' ∧ w = to')) by done. simpl.
    destruct Hne2 as [->|Hne2]; [done|].
    rewrite (bool_decide_false (u = to' ∧ w = from')) by done.
    by rewrite andb_false_r.
Qed.

(** [removeEdge] on a graph built through the member functions returns
    whether the pair was joined (in either direction for an undirected
    graph); afterwards the pair is not joined, every other answer of
    [hasEdge] and [getEdgeWeight] is as before and the vertices are the
    same. *)
Theorem removeEdge_effect (g : Graph) (from' to' : VertexType) :
  built g →
  (removeEdge g from' to').2 =
    hasEdge g from' to' || negb isDirected && hasEdge g to' from' ∧
  (∀ v, hasVertex (removeEdge g from' to').1 v = hasVertex g v) ∧
  (∀ u w, hasEdge (removeEdge g from' to').1 u w =
          hasEdge g u w &&
          negb (bool_decide (u = from' ∧ w = to') ||
                negb isDirected && bool_decide (u = to' ∧ w = from'))) ∧
  (∀ u w, ¬ (u = from' ∧ w = to') →
          isDirected = true ∨ ¬ (u = to' ∧ w = from') →
          getEdgeWeight (removeEdge g from' to').1 u w = getEdgeWeight g u w).
Proof.
  intros Hb. pose proof (built_graph_edges_join_vertices g Hb) as Hjoin.
  assert (Hhas : ∀ v, hasVertex (removeEdge g from' to').1 v = hasVertex g v).
  { intros v. unfold hasVertex. by rewrite removeEdge_vertices. }
  destruct (hasVertex g from' && hasVertex g to') eqn:Hv.
  - pose proof (fun u w => removeEdge_weight_of g from' to' u w Hv) as Hw.
    split_and!; [by apply removeEdge_flag|done| |].
    + intros u w. rewrite !hasEdge_weight_of, Hw.
      destruct (bool_decide (u = from' ∧ w = to') ||
                negb isDirected && bool_decide (u = to' ∧ w = from')); simpl;
        [by rewrite andb_false_r|by rewrite andb_true_r].
    + intros u w Hne1 Hne2. rewrite !getEdgeWeight_weight_of, !Hhas, Hw.
      rewrite (bool_decide_false (u = from' ∧ w = to')) by done. simpl.
      destruct Hne2 as [->|Hne2]; [done|].
      rewrite (bool_decide_false (u = to' ∧ w = from')) by done.
      by rewrite andb_false_r.
  - rewrite removeEdge_absent by done. simpl.
    assert (Hno : hasEdge g from' to' = false ∧ hasEdge g to' from' = false).
    { split; apply not_true_is_false; intros [Hx Hy]%Hjoin; by rewrite Hx, Hy in Hv. }
    destruct Hno as [Hno1 Hno2]. rewrite Hno1, Hno2, andb_false_r.
    split_and!; try done.
    intros u w.
    destruct (bool_decide (u = from' ∧ w = to')) eqn:E1; simpl.
    { apply bool_decide_eq_true in E1 as [-> ->]. by rewrite Hno1. }
    destruct (negb isDirected && bool_decide (u = to' ∧ w = from')) eqn:E2; simpl.
    { apply andb_true_iff in E2 as [_ [-> ->]%bool_decide_eq_true]. by rewrite Hno2. }
    by rewrite andb_true_r.
Qed.

(** Removing an edge that [addEdge] has just added gives back the graph as it
    was, in a graph built through the member functions. *)
Theorem removeEdge_undoes_addEdge (g g' : Graph) (from' to' : VertexType)
    (weight' : WeightType) :
  built g → addEdge g from' to' weight' = Returns (g', true) →
  removeEdge g' from' to' = (g, true).
Proof.
  intros [Hk _ _ _ _]%built_wf Hadd.
  pose proof (addEdge_true_inv _ _ _ _ _ Hadd)
    as (Hf & Ht & _ & Hn & Hn' & Hvs & Hdom & Hidx).
  assert (Hv : hasVertex g' from' && hasVertex g' to' = true).
  { unfold hasVertex. rewrite Hvs, !bool_decide_true; done. }
  rewrite (surjective_pairing (removeEdge g' from' to')). f_equal.
  - apply Graph_eq.
    + by rewrite removeEdge_vertices.
    + apply adjacency_eq.
      * rewrite removeEdge_dom, Hdom, Hk by done. destruct isDirected; set_solver.
      * intros u. rewrite removeEdge_index, Hidx by done. simpl.
        unfold weight_of in Hn, Hn'.
        assert (Hn1 : erase_to to' (index (_adjacencyList g) from') =
                      index (_adjacencyList g) from') by by apply erase_to_id.
        destruct isDirected; simpl.
        -- rewrite app_nil_r. case_bool_decide as Hu; [|by rewrite app_nil_r].
           subst u. by rewrite erase_to_app, Hn1, erase_to_new, app_nil_r.
        -- assert (Hn2 : erase_to from' (index (_adjacencyList g) to') =
                         index (_adjacencyList g) to')
             by (apply erase_to_id, Hn'; done).
           destruct (decide (u = from')) as [->|Hu1].
           ++ rewrite (bool_decide_true (from' = from')) by done.
              destruct (decide (from' = to')) as [<-|Hu2].
              ** rewrite (bool_decide_true (from' = from')) by done.
                 rewrite !erase_to_app, Hn1, !erase_to_new. simpl.
                 by rewrite app_nil_r.
              ** rewrite (bool_decide_false (from' = to')) by done.
                 rewrite !erase_to_app, Hn1, !erase_to_new. simpl.
                 by rewrite app_nil_r.
           ++ rewrite (bool_decide_false (u = from')) by done.
              destruct (decide (u = to')) as [->|Hu2].
              ** rewrite (bool_decide_true (to' = to')) by done.
                 rewrite !erase_to_app, Hn2, !erase_to_new. simpl.
                 by rewrite app_nil_r.
              ** rewrite (bool_decide_false (u = to')) by done. simpl.
                 by rewrite app_nil_r.
  - rewrite removeEdge_flag by done.
    rewrite hasEdge_weight_of, (addEdge_weight_of _ _ _ _ _ _ _ Hadd).
    by rewrite (bool_decide_true (from' = from' ∧ to' = to')).
Qed.

(** On a graph built through the member functions [setEdgeWeight] returns
    [true] exactly when both ends are vertices, the graph is weighted and
    the pair is joined; it throws exactly when both ends are vertices and
    the graph is unweighted. *)
Theorem setEdgeWeight_outcome (g : Graph) (from' to' : VertexType)
    (weight' : WeightType) :
  built g →
  ((∃ g', setEdgeWeight g from' to' weight' = Returns (g', true)) ↔
   hasVertex g from' = true ∧ hasVertex g to' = true ∧ isWeighted = true ∧
   hasEdge g from' to' = true) ∧
  ((∃ err, setEdgeWeight g from' to' weight' = Throws err) ↔
   hasVertex g from' = true ∧ hasVertex g to' = true ∧ isWeighted = false).
Proof.
  intros _. destruct (hasVertex g from' && hasVertex g to') eqn:Hv.
  - pose proof Hv as [Hf Ht]%andb_true_iff.
    destruct isWeighted eqn:Hw.
    + destruct (setEdgeWeight_present g from' to' weight' Hv Hw)
        as (g' & Hset & _).
      rewrite Hset. split; split.
      * intros [g'' [= _ Hflag]]. done.
      * intros (_ & _ & _ & ->). eauto.
      * by intros [? ?].
      * by intros (_ & _ & ?).
    + rewrite setEdgeWeight_unweighted by done. split; split.
      * by intros [? ?].
      * by intros (_ & _ & ? & _).
      * done.
      * eauto.
  - rewrite setEdgeWeight_absent by done.
    apply andb_false_iff in Hv. split; split.
    + by intros [? ?].
    + intros (Hf & Ht & _). destruct Hv; congruence.
    + by intros [? ?].
    + intros (Hf & Ht & _). destruct Hv; congruence.
Qed.

(** In a graph built through the member functions, [setEdgeWeight] that
    returns [false] leaves the graph as it was; one that returns [true]
    keeps the vertices and every answer of [hasEdge], makes [getEdgeWeight]
    return the new weight for the pair (both ways in an undirected graph)
    and leaves the weights of the other pairs alone. *)
Theorem setEdgeWeight_effect (g g' : Graph) (from' to' : VertexType)
    (weight' : WeightType) (flag : bool) :
  built g → setEdgeWeight g from' to' weight' = Returns (g', flag) →
  (flag = false → g' = g) ∧
  (∀ v, hasVertex g' v = hasVertex g v) ∧
  (∀ u w, hasEdge g' u w = hasEdge g u w) ∧
  (flag = true →
   getEdgeWeight g' from' to' = Returns weight' ∧
   (isDirected = false → getEdgeWeight g' to' from' = Returns weight')) ∧
  (∀ u w, ¬ (u = from' ∧ w = to') →
          isDirected = true ∨ ¬ (u = to' ∧ w = from') →
          getEdgeWeight g' u w = getEdgeWeight g u w).
Proof.
  intros [Hk _ _ Hsym _]%built_wf Hset.
  pose proof (fun u w => setEdgeWeight_weight_of _ _ _ _ _ _ u w Hset) as Hw.
  destruct (setEdgeWeight_Returns_inv _ _ _ _ _ _ Hset)
    as [(Hv & -> & ->)|(Hv & Hwt & -> & Hvs & Hdom & Hidx)].
  { split_and!; done. }
  rewrite Hv in Hw. simpl in Hw.
  assert (Hhas : ∀ v, hasVertex g' v = hasVertex g v).
  { intros v. unfold hasVertex. by rewrite Hvs. }
  split_and!; [|done| | |].
  - intros Hno%hasEdge_false. apply Graph_eq; [done|].
    apply adjacency_eq; [done|]. intros u. rewrite Hidx. simpl.
    assert (H1 : (if bool_decide (u = from')
                  then (set_first_weight to' weight' (index (_adjacencyList g) u)).1
                  else index (_adjacencyList g) u) = index (_adjacencyList g) u).
    { destruct (decide (u = from')) as [->|Hu];
        [rewrite (bool_decide_true (from' = from')) by done
        |by rewrite (bool_decide_false (u = from')) by done].
      by apply set_first_weight_id. }
    rewrite H1. destruct isDirected; simpl; [done|].
    destruct (decide (u = to')) as [->|Hu];
      [rewrite (bool_decide_true (to' = to')) by done
      |by rewrite (bool_decide_false (u = to')) by done].
    apply set_first_weight_id.
    fold (weight_of g to' from'). by rewrite <- (Hsym eq_refl from' to').
  - intros u w. rewrite !hasEdge_weight_of, Hw.
    destruct (bool_decide (u = from' ∧ w = to') ||
              negb isDirected && bool_decide (u = to' ∧ w = from')); [|done].
    by destruct (weight_of g u w).
  - intros [x Hx]%hasEdge_true.
    rewrite !getEdgeWeight_weight_of, !Hhas, !Hw, Hwt.
    pose proof Hv as [Hf Ht]%andb_true_iff. rewrite Hf, Ht. simpl.
    split.
    + rewrite bool_decide_true by done. simpl. by rewrite Hx.
    + intros Hd. rewrite Hd. simpl.
      rewrite (bool_decide_true (to' = to' ∧ from' = from')) by done.
      rewrite orb_true_r, <- (Hsym Hd from' to'), Hx. done.
  - intros u w Hne1 Hne2. rewrite !getEdgeWeight_weight_of, !Hhas, Hw.
    rewrite (bool_decide_false (u = from' ∧ w = to')) by done. simpl.
    destruct Hne2 as [->|Hne2]; [done|].
    rewrite (bool_decide_false (u = to' ∧ w = from')) by done.
    by rewrite andb_false_r.
Qed.

(** [getEdgeWeight] returns a weight exactly when both ends are vertices, the
    graph is weighted and the pair is joined.  A missing vertex is reported
    first, then an unweighted graph, then a missing edge. *)
Theorem getEdgeWeight_outcome (g : Graph) (from' to' : VertexType) :
  ((∃ x, getEdgeWeight g from' to' = Returns x) ↔
   hasVertex g from' = true ∧ hasVertex g to' = true ∧ isWeighted = true ∧
   hasEdge g from' to' = true) ∧
  (hasVertex g from' && hasVertex g to' = false →
   getEdgeWeight g from' to' =
   Throws (invalid_argument "One or both vertices do not exist.")) ∧
  (hasVertex g from' && hasVertex g to' = true → isWeighted = false →
   getEdgeWeight g from' to' =
   Throws (invalid_argument "Cannot get weight on an unweighted graph.")) ∧
  (hasVertex g from' && hasVertex g to' = true → isWeighted = true →
   hasEdge g from' to' = false →
   getEdgeWeight g from' to' =
   Throws (invalid_argument "EdgeType does not exist.")).
Proof.
  rewrite getEdgeWeight_weight_of, hasEdge_weight_of.
  destruct (hasVertex g from'), (hasVertex g to'), isWeighted,
    (weight_of g from' to'); simpl; split_and!; try done;
    try (split; [intros [? ?]; try done; naive_solver|naive_solver]).
Qed.

(** [removeVertex] on a graph built through the member functions (for an
    undirected graph: on a vertex without a loop) returns whether the vertex
    was there; afterwards the vertex is gone together with every edge from
    or to it, its edge list can no longer be read, and the other vertices,
    edges and weights are as before. *)
Theorem removeVertex_effect (g : Graph) (v : VertexType) :
  built g → isDirected = true ∨ hasEdge g v v = false →
  (removeVertex g v).2 = hasVertex g v ∧
  (∀ u, hasVertex (removeVertex g v).1 u =
        hasVertex g u && negb (bool_decide (u = v))) ∧
  (∀ u w, hasEdge (removeVertex g v).1 u w =
          hasEdge g u w && negb (bool_decide (u = v)) && negb (bool_decide (w = v))) ∧
  getVertexEdges (removeVertex g v).1 v = Throws (runtime_error "Vertex not found") ∧
  vertexCount (removeVertex g v).1 =
    (if hasVertex g v then vertexCount g - 1 else vertexCount g) ∧
  (∀ u w, u ≠ v → w ≠ v →
          getEdgeWeight (removeVertex g v).1 u w = getEdgeWeight g u w).
Proof.
  intros Hb _. pose proof (built_graph_edges_join_vertices g Hb) as Hjoin.
  pose proof (built_wf g Hb) as [Hk _ _ Hsym _].
  destruct (hasVertex g v) eqn:Hv.
  - destruct (removeVertex_present g v Hv) as (Hflag & Hvs & Hdom & Hidx).
    { intros Hd u. by apply Hsym. }
    assert (Hhas : ∀ u, hasVertex (removeVertex g v).1 u =
                        hasVertex g u && negb (bool_decide (u = v))).
    { intros u. unfold hasVertex. rewrite Hvs.
      repeat case_bool_decide; simpl; try done; exfalso; set_solver. }
    assert (Hw : ∀ u w, weight_of (removeVertex g v).1 u w =
                        if bool_decide (u = v) || bool_decide (w = v) then None
                        else weight_of g u w).
    { intros u w. unfold weight_of. rewrite Hidx.
      destruct (bool_decide (u = v)); simpl; [done|].
      apply first_weight_erase_to. }
    split_and!; [done|done| | | |].
    + intros u w. rewrite !hasEdge_weight_of, Hw.
      destruct (bool_decide (u = v)), (bool_decide (w = v)); simpl;
        rewrite ?andb_false_r, ?andb_true_r; done.
    + unfold getVertexEdges.
      destruct (_adjacencyList (removeVertex g v).1 !! v) eqn:Hl; [|done].
      apply elem_of_dom_2 in Hl. set_solver.
    + unfold vertexCount. rewrite Hvs, size_difference, size_singleton; [done|].
      apply hasVertex_true in Hv. set_solver.
    + intros u w Hu Hw'. rewrite !getEdgeWeight_weight_of, !Hhas, Hw.
      rewrite (bool_decide_false (u = v)), (bool_decide_false (w = v)) by done.
      simpl. by rewrite !andb_true_r.
  - rewrite removeVertex_absent by done. simpl.
    assert (Hout : ∀ u w, hasEdge g u w = true → u ≠ v ∧ w ≠ v).
    { intros u w [Hu Hw]%Hjoin. split; intros ->; congruence. }
    split_and!; [done| | | |done|done].
    + intros u. case_bool_decide; subst; simpl; [by rewrite Hv|by rewrite andb_true_r].
    + intros u w. destruct (hasEdge g u w) eqn:He; [|done].
      destruct (Hout u w He).
      by rewrite (bool_decide_false (u = v)), (bool_decide_false (w = v)).
    + unfold getVertexEdges.
      destruct (_adjacencyList g !! v) eqn:Hl; [|done].
      apply elem_of_dom_2 in Hl. apply hasVertex_false in Hv. set_solver.
Qed.

(** Removing a vertex that [addVertex] has just added to a graph built
    through the member functions gives back the graph as it was. *)
Theorem removeVertex_undoes_addVertex (g : Graph) (v : VertexType) :
  built g → hasVertex g v = false →
  removeVertex (addVertex g [v]) v = (g, true).
Proof.
  intros Hb Hv. pose proof (built_graph_edges_join_vertices g Hb) as Hjoin.
  pose proof (built_wf g Hb) as [Hk _ _ _ _].
  pose proof (wf_addVertex g [v] (built_wf g Hb)) as [_ _ _ Hsym' _].
  assert (Hv' : hasVertex (addVertex g [v]) v = true).
  { apply hasVertex_true. rewrite addVertex_vertices. set_solver. }
  destruct (removeVertex_present (addVertex g [v]) v Hv')
    as (Hflag & Hvs & Hdom & Hidx).
  { intros Hd u. by apply Hsym'. }
  apply hasVertex_false in Hv.
  rewrite (surjective_pairing (removeVertex _ _)), Hflag. f_equal.
  apply Graph_eq.
  - rewrite Hvs, addVertex_vertices. set_solver.
  - apply adjacency_eq.
    + rewrite Hdom, addVertex_dom, Hk. set_solver.
    + intros u. rewrite Hidx, addVertex_index.
      case_bool_decide as Hu.
      * subst u. unfold index. rewrite <- Hk in Hv.
        apply not_elem_of_dom in Hv. by rewrite Hv.
      * apply erase_to_id. fold (weight_of g u v). apply hasEdge_false.
        apply not_true_is_false. intros [_ Hin%hasVertex_true]%Hjoin. done.
Qed.

(** [findConnectedComponent] returns the empty list for a vertex that is not
    there.  For one that is there the recursion of [DFS] ends (as many
    levels as there are vertices suffice) and the list begins with the start
    vertex, repeats no vertex and holds exactly the vertices that can be
    reached from the start along stored edges. *)
Theorem findConnectedComponent_reachable (g : Graph) (start : VertexType) :
  NoDup (findConnectedComponent g start) ∧
  (∀ x, x ∈ findConnectedComponent g start ↔
        hasVertex g start = true ∧ reachable g start x) ∧
  head (findConnectedComponent g start) =
    (if hasVertex g start then Some start else None) ∧
  (if hasVertex g start
   then ∃ visited, DFS g (size (universe g)) start (∅, []) =
                   Some (visited, findConnectedComponent g start)
   else findConnectedComponent g start = []).
Proof.
  destruct (hasVertex g start) eqn:Hs.
  - destruct (findConnectedComponent_present g start Hs)
      as (visited & new & HDFS & -> & Hnd & Hreach).
    split_and!; [done| |done|by exists visited].
    intros x. rewrite Hreach. naive_solver.
  - rewrite findConnectedComponent_absent by done.
    split_and!; [apply NoDup_nil_2| |done|done].
    intros x. split; [by intros ?%elem_of_nil|by intros [? _]].
Qed.

(** In an undirected graph built through the member functions the components
    are classes: every member of the component of a vertex is a vertex, and
    its own component has the same members. *)
Theorem undirected_components_are_classes (g : Graph) (start x : VertexType) :
  built g → isDirected = false →
  x ∈ findConnectedComponent g start →
  hasVertex g x = true ∧
  start ∈ findConnectedComponent g x ∧
  ∀ y, y ∈ findConnectedComponent g x ↔ y ∈ findConnectedComponent g start.
Proof.
  intros Hb Hd Hx. pose proof (built_graph_edges_join_vertices g Hb) as Hjoin.
  pose proof (built_wf g Hb) as [_ _ _ Hsym _].
  assert (Hedge : ∀ u w, hasEdge g u w = true → hasEdge g w u = true).
  { intros u w. rewrite !hasEdge_weight_of, (Hsym Hd u w). done. }
  assert (Hback : ∀ u w, reachable g u w → reachable g w u).
  { intros u w. induction 1 as [|u m w Hum _ IH]; [done|].
    eapply rtc_r; [exact IH|]. by apply Hedge. }
  destruct (hasVertex g start) eqn:Hs.
  2:{ rewrite findConnectedComponent_absent in Hx by done.
      by apply elem_of_nil in Hx. }
  destruct (findConnectedComponent_present g start Hs)
    as (? & new & _ & Hfcc & _ & Hreach).
  rewrite Hfcc in Hx |- *. apply Hreach in Hx.
  assert (Hvx : hasVertex g x = true).
  { apply rtc_inv_r in Hx as [<-|(m & _ & Hm)]; [done|].
    by destruct (Hjoin _ _ Hm). }
  destruct (findConnectedComponent_present g x Hvx)
    as (? & new' & _ & Hfcc' & _ & Hreach').
  rewrite Hfcc'. split_and!; [done|by apply Hreach', Hback|].
  intros y. rewrite Hreach, Hreach'. split; intros Hy.
  - by etrans.
  - etrans; [apply Hback, Hx|done].
Qed.

(** The member functions never store parallel edges: in a graph built
    through them the edges of one list lead to different vertices.  In an
    undirected graph this holds of the edges to other vertices, a loop
    being stored twice. *)
Theorem no_parallel_edges (g : Graph) (u : VertexType) (edges : list Edge) :
  built g → getVertexEdges g u = Returns edges →
  NoDup (to <$> (if isDirected then edges else erase_to u edges)).
Proof.
  intros Hs%built_simple Hu. specialize (Hs u).
  unfold getVertexEdges in Hu. unfold index in Hs.
  destruct (_adjacencyList g !! u); [|done]. by injection Hu as <-.
Qed.

(** In an undirected graph [addEdge] accepts a loop and appends it twice to
    the edge list of the vertex. *)
Theorem undirected_loop_is_stored_twice (g g' : Graph) (v : VertexType)
    (weight' : WeightType) (edges : list Edge) :
  isDirected = false → getVertexEdges g v = Returns edges →
  addEdge g v v weight' = Returns (g', true) →
  getVertexEdges g' v =
  Returns (edges ++ [mkEdge v v weight'; mkEdge v v weight']).
Proof.
  intros Hd Hv Hadd.
  pose proof (addEdge_true_inv _ _ _ _ _ Hadd)
    as (_ & _ & _ & _ & _ & _ & Hdom & Hidx).
  specialize (Hidx v). rewrite Hd, (bool_decide_true (v = v)) in Hidx by done.
  unfold getVertexEdges in *. unfold index in Hidx.
  destruct (_adjacencyList g !! v) as [l|]; [|done]. injection Hv as ->.
  destruct (_adjacencyList g' !! v) as [l'|] eqn:Hv'.
  - simpl in Hidx. by subst l'.
  - apply not_elem_of_dom in Hv'. set_solver.
Qed.

(** The members of a component of a graph built through the member
    functions are vertices, so that the component is not longer than
    [vertexCount]. *)
Theorem component_within_vertices (g : Graph) (start : VertexType) :
  built g →
  (∀ x, x ∈ findConnectedComponent g start → hasVertex g x = true) ∧
  length (findConnectedComponent g start) ≤ vertexCount g.
Proof.
  intros Hb. pose proof (built_graph_edges_join_vertices g Hb) as Hjoin.
  assert (Hin : ∀ x, x ∈ findConnectedComponent g start → hasVertex g x = true).
  { intros x Hx. destruct (hasVertex g start) eqn:Hs.
    2:{ rewrite findConnectedComponent_absent in Hx by done.
        by apply elem_of_nil in Hx. }
    destruct (findConnectedComponent_present g start Hs)
      as (? & new & _ & Hfcc & _ & Hreach).
    rewrite Hfcc in Hx. apply Hreach in Hx.
    apply rtc_inv_r in Hx as [<-|(m & _ & Hm)]; [done|].
    by destruct (Hjoin _ _ Hm). }
  split; [exact Hin|].
  assert (Hnd : NoDup (findConnectedComponent g start)).
  { destruct (hasVertex g start) eqn:Hs.
    - destruct (findConnectedComponent_present g start Hs)
        as (? & new & _ & -> & Hnd & _). done.
    - rewrite findConnectedComponent_absent by done. apply NoDup_nil_2. }
  unfold vertexCount.
  rewrite <- (size_list_to_set (C := gset VertexType) _ Hnd).
  apply subseteq_size. intros x Hx%elem_of_list_to_set.
  by apply hasVertex_true, Hin.
Qed.
End GraphProofs.

(** ** The statements on the examples *)

Section Examples.

#[local] Existing Instance undirected.
#[local] Existing Instance weighted.
#[local] Existing Instance nat_weight.

(** The examples are built by the member functions of an undirected weighted
    graph whose default weight is 0. *)
Lemma built_three_vertices : built three_vertices.
Proof. apply built_addVertex, built_empty. Qed.

Lemma addEdge_three_vertices :
  addEdge three_vertices 1 2 5 = Returns (one_edge, true).
Proof. vm_compute. reflexivity. Qed.

Lemma built_one_edge : built one_edge.
Proof.
  exact (built_addEdge three_vertices 1 2 5 one_edge true
           built_three_vertices addEdge_three_vertices).
Qed.

Lemma addEdge_one_edge :
  addEdge one_edge 2 3 7 = Returns (two_edges, true).
Proof. vm_compute. reflexivity. Qed.

Lemma built_two_edges : built two_edges.
Proof.
  exact (built_addEdge one_edge 2 3 7 two_edges true
           built_one_edge addEdge_one_edge).
Qed.

Lemma setEdgeWeight_two_edges :
  setEdgeWeight two_edges 3 2 9 = Returns (two_edges_reweighted, true).
Proof. vm_compute. reflexivity. Qed.

(** The graph with the edges 1 - 2 and 2 - 3 answers alike in both
    directions. *)
Lemma built_graph_consistent_witness :
  built two_edges ∧
  hasEdge two_edges 3 2 = hasEdge two_edges 2 3 ∧
  getEdgeWeight two_edges 3 2 = getEdgeWeight two_edges 2 3.
Proof.
  split; [exact built_two_edges|].
  destruct (built_graph_consistent two_edges built_two_edges)
    as (_ & _ & _ & Hsym & _).
  exact (Hsym eq_refl 3 2).
Defined.

(** Adding the vertices 1 and 3 again. *)
Lemma addVertex_again_witness :
  built three_vertices ∧
  hasVertices three_vertices [1; 3] = true ∧
  addVertex three_vertices [1; 3] = three_vertices.
Proof.
  split; [exact built_three_vertices|]. split; [vm_compute; reflexivity|].
  apply (addVertex_again three_vertices [1; 3] built_three_vertices).
  vm_compute. reflexivity.
Defined.

(** The edge 1 - 2 of weight 5 can be read in both directions. *)
Lemma addEdge_effect_witness :
  addEdge three_vertices 1 2 5 = Returns (one_edge, true) ∧
  getEdgeWeight one_edge 1 2 = Returns 5 ∧
  getEdgeWeight one_edge 2 1 = Returns 5.
Proof.
  split; [exact addEdge_three_vertices|].
  destruct (addEdge_effect three_vertices one_edge 1 2 5
              addEdge_three_vertices) as (_ & _ & Hw & _).
  destruct (Hw eq_refl) as [H12 H21].
  split; [exact H12|exact (H21 eq_refl)].
Defined.

(** Removing the edge 3 - 2 of the graph with two edges. *)
Lemma removeEdge_effect_witness :
  built two_edges ∧
  (removeEdge two_edges 3 2).2 = true ∧
  hasEdge (removeEdge two_edges 3 2).1 2 3 = false ∧
  hasEdge (removeEdge two_edges 3 2).1 2 1 = true.
Proof.
  split; [exact built_two_edges|].
  destruct (removeEdge_effect two_edges 3 2 built_two_edges)
    as (Hflag & _ & Hedge & _).
  split; [exact Hflag|]. split; [exact (Hedge 2 3)|exact (Hedge 2 1)].
Defined.

(** Adding the edge 1 - 2 and removing it again. *)
Lemma removeEdge_undoes_addEdge_witness :
  built three_vertices ∧
  addEdge three_vertices 1 2 5 = Returns (one_edge, true) ∧
  removeEdge one_edge 1 2 = (three_vertices, true).
Proof.
  split; [exact built_three_vertices|]. split; [exact addEdge_three_vertices|].
  exact (removeEdge_undoes_addEdge three_vertices one_edge 1 2 5
           built_three_vertices addEdge_three_vertices).
Defined.

(** In the graph with two edges the weight of 3 - 2 can be set, that of
    3 - 1 cannot. *)
Lemma setEdgeWeight_outcome_witness :
  built two_edges ∧
  (∃ g', setEdgeWeight two_edges 3 2 9 = Returns (g', true)) ∧
  ¬ (∃ err, setEdgeWeight two_edges 3 1 9 = Throws err).
Proof.
  split; [exact built_two_edges|].
  split.
  - apply (setEdgeWeight_outcome two_edges 3 2 9 built_two_edges).
    vm_compute. auto.
  - intros Hthrows.
    apply (setEdgeWeight_outcome two_edges 3 1 9 built_two_edges) in Hthrows.
    destruct Hthrows as (_ & _ & Hw). discriminate Hw.
Defined.

(** Setting the weight of the edge 3 - 2 to 9. *)
Lemma setEdgeWeight_effect_witness :
  built two_edges ∧
  setEdgeWeight two_edges 3 2 9 = Returns (two_edges_reweighted, true) ∧
  getEdgeWeight two_edges_reweighted 3 2 = Returns 9 ∧
  getEdgeWeight two_edges_reweighted 2 3 = Returns 9 ∧
  getEdgeWeight two_edges_reweighted 1 2 = getEdgeWeight two_edges 1 2.
Proof.
  split; [exact built_two_edges|]. split; [exact setEdgeWeight_two_edges|].
  destruct (setEdgeWeight_effect two_edges two_edges_reweighted
              3 2 9 true built_two_edges setEdgeWeight_two_edges)
    as (_ & _ & _ & Hnew & Hother).
  destruct (Hnew eq_refl) as [H32 H23].
  split; [exact H32|]. split; [exact (H23 eq_refl)|].
  apply Hother.
  - intros [? _]. discriminate.
  - right. intros [? _]. discriminate.
Defined.

(** Removing the middle vertex of the graph with two edges. *)
Lemma removeVertex_effect_witness :
  built two_edges ∧
  (isDirected = true ∨ hasEdge two_edges 2 2 = false) ∧
  (removeVertex two_edges 2).2 = true ∧
  hasVertex (removeVertex two_edges 2).1 2 = false ∧
  hasEdge (removeVertex two_edges 2).1 1 2 = false ∧
  vertexCount (removeVertex two_edges 2).1 = 2.
Proof.
  assert (Hloop : isDirected = true ∨ hasEdge two_edges 2 2 = false)
    by (right; vm_compute; reflexivity).
  split; [exact built_two_edges|]. split; [exact Hloop|].
  destruct (removeVertex_effect two_edges 2 built_two_edges Hloop)
    as (Hflag & Hvertex & Hedge & _ & Hcount & _).
  split; [exact Hflag|]. split; [exact (Hvertex 2)|].
  split; [exact (Hedge 1 2)|exact Hcount].
Defined.

(** Adding the vertex 9 to the graph with two edges and removing it again. *)
Lemma removeVertex_undoes_addVertex_witness :
  built two_edges ∧
  hasVertex two_edges 9 = false ∧
  removeVertex (addVertex two_edges [9]) 9 = (two_edges, true).
Proof.
  split; [exact built_two_edges|]. split; [vm_compute; reflexivity|].
  apply (removeVertex_undoes_addVertex two_edges 9 built_two_edges).
  vm_compute. reflexivity.
Defined.

(** The component of the vertex 1 in the graph with two edges holds the
    vertex 3, whose component holds the vertex 1. *)
Lemma undirected_components_are_classes_witness :
  built two_edges ∧
  3 ∈ findConnectedComponent two_edges 1 ∧
  hasVertex two_edges 3 = true ∧
  1 ∈ findConnectedComponent two_edges 3.
Proof.
  assert (Hin : 3 ∈ findConnectedComponent two_edges 1)
    by (vm_compute; repeat constructor).
  split; [exact built_two_edges|]. split; [exact Hin|].
  destruct (undirected_components_are_classes two_edges 1 3
              built_two_edges eq_refl Hin) as (Hvertex & Hback & _).
  split; [exact Hvertex|exact Hback].
Defined.

(** The edges of the middle vertex of the graph with two edges lead to
    different vertices. *)
Lemma no_parallel_edges_witness :
  built two_edges ∧
  getVertexEdges two_edges 2 = Returns [mkEdge 2 1 5; mkEdge 2 3 7] ∧
  NoDup (to <$> erase_to 2 [mkEdge 2 1 5; mkEdge 2 3 7]).
Proof.
  assert (Hget : getVertexEdges two_edges 2 = Returns [mkEdge 2 1 5; mkEdge 2 3 7])
    by (vm_compute; reflexivity).
  split; [exact built_two_edges|]. split; [exact Hget|].
  exact (no_parallel_edges two_edges 2 _ built_two_edges Hget).
Defined.

(** A loop of weight 4 at the vertex 3. *)
Lemma undirected_loop_is_stored_twice_witness :
  isDirected = false ∧
  getVertexEdges three_vertices 3 = Returns [] ∧
  addEdge three_vertices 3 3 4 = Returns (looped, true) ∧
  getVertexEdges looped 3 = Returns [mkEdge 3 3 4; mkEdge 3 3 4].
Proof.
  assert (Hget : getVertexEdges three_vertices 3 = Returns [])
    by (vm_compute; reflexivity).
  assert (Hadd : addEdge three_vertices 3 3 4 = Returns (looped, true))
    by (vm_compute; reflexivity).
  split; [reflexivity|]. split; [exact Hget|]. split; [exact Hadd|].
  exact (undirected_loop_is_stored_twice three_vertices looped 3 4 []
           eq_refl Hget Hadd).
Defined.

(** The component of the vertex 1 in the graph with two edges. *)
Lemma component_within_vertices_witness :
  built two_edges ∧
  length (findConnectedComponent two_edges 1) ≤ vertexCount two_edges.
Proof.
  split; [exact built_two_edges|].
  apply (component_within_vertices two_edges 1 built_two_edges).
Defined.

End Examples.

End GraphH.
